(** * LR(0) item sets, SLR table construction and the shift-reduce driver

    A shallow embedding of [lr0_parser.py] (class [LRParser]) and the
    properties of its closure/goto algebra, FIRST/FOLLOW recursion, table
    construction and parse loop.

    Python sets of items are [gset item]; the dictionaries keyed by state
    number are [gmap nat _]; the grammar dictionary keeps its insertion
    order as an association list (its keys are distinct in Python). *)

From stdpp Require Import base gmap sets list strings pretty.

Set Warnings "-clear-no-such-hyp,-level-tolerance".

Open Scope string_scope.
Open Scope list_scope.
Open Scope nat_scope.

(** ** Data model *)

Abbreviation symbol := string.
Abbreviation production := (list symbol).

(** An item is the Python triple [(lhs, rhs, dot_pos)]. *)
Abbreviation item := (symbol * production * nat)%type.

Definition item_lhs (it : item) : symbol := it.1.1.
Definition item_rhs (it : item) : production := it.1.2.
Definition item_dot (it : item) : nat := it.2.

(** The cell values written into [action_table]:
    [('shift', n)], [('reduce', lhs, rhs)] and [('accept',)].  Nothing else
    is ever stored there, so the last branch of [parse], which raises on
    any other tag, has no counterpart here. *)
Inductive action : Type :=
  | shift (dest : nat)
  | reduce (lhs : symbol) (rhs : production)
  | accept.

#[global] Instance action_eq_dec : EqDecision action.
Proof. solve_decision. Defined.

(** Exceptions a method can leave with. [RecursionError] is what the
    interpreter raises when the call depth passes its recursion limit. *)
Inductive exn : Type :=
  | RecursionError
  | KeyError
  | IndexError
  | SyntaxError (position : nat) (sym : symbol).

#[global] Instance exn_eq_dec : EqDecision exn.
Proof. solve_decision. Defined.

Inductive result (A : Type) : Type :=
  | Ok (a : A)
  | Raise (e : exn).
Arguments Ok {A} a.
Arguments Raise {A} e.

#[global] Instance result_eq_dec {A} `{EqDecision A} : EqDecision (result A).
Proof. solve_decision. Defined.

#[global] Instance result_bind : MBind result := λ A B k m,
  match m with
  | Ok a => k a
  | Raise e => Raise e
  end.

(** [for x in l: acc = body(acc, x)], leaving at the first exception. *)
Fixpoint rfold {A B} (body : B → A → result B) (acc : B) (l : list A) : result B :=
  match l with
  | [] => Ok acc
  | x :: l' => acc' ← body acc x; rfold body acc' l'
  end.

(** A [defaultdict(dict)]: a table of rows keyed by state number. *)
Abbreviation table V := (gmap nat (gmap symbol V)).

(** Reading [tbl[k]] creates the empty row when [k] is missing. *)
Definition dd_get {V} (tbl : table V) (k : nat) : gmap symbol V * table V :=
  match tbl !! k with
  | Some row => (row, tbl)
  | None => (∅, <[k := ∅]> tbl)
  end.

(** [tbl[k][s] = v]. *)
Definition dd_set {V} (tbl : table V) (k : nat) (s : symbol) (v : V) : table V :=
  let '(row, tbl') := dd_get tbl k in
  <[k := <[s := v]> row]> tbl'.

(** The content of cell [(k, s)], without touching the table. *)
Definition cell {V} (tbl : table V) (k : nat) (s : symbol) : option V :=
  tbl !! k ≫= λ row, row !! s.

(** The object: fields of [self] in the order [__init__] assigns them. *)
Record LRParser : Type := mkLRParser {
  grammar : list (symbol * list production);
  terminals : list symbol;
  non_terminals : list symbol;
  start_symbol : symbol;
  action_table : table action;
  goto_table : table nat;
  states : list (gset item);
  state_count : nat
}.

Definition init (g : list (symbol * list production)) (ts nts : list symbol)
    (start : symbol) : LRParser :=
  {| grammar := g;
     terminals := ts ++ ["$"];
     non_terminals := nts;
     start_symbol := start;
     action_table := ∅;
     goto_table := ∅;
     states := [];
     state_count := 0 |}.

(** [self.grammar.get(nt)]: the entry of the first (only) key equal to [nt]. *)
Fixpoint grammar_get (g : list (symbol * list production)) (nt : symbol)
    : option (list production) :=
  match g with
  | [] => None
  | (k, prods) :: g' => if decide (k = nt) then Some prods else grammar_get g' nt
  end.

(** ** Item set algebra *)

Section Methods.
Variable self : LRParser.

(** The symbol right after the dot: [rhs[dot_pos]] under the guard
    [dot_pos < len(rhs)]. *)
Definition next_symbol (it : item) : option symbol :=
  item_rhs it !! item_dot it.

(** The candidates one item contributes in a pass of [closure]'s loop. *)
Definition expand (it : item) : gset item :=
  match next_symbol it with
  | Some nxt =>
      if decide (nxt ∈ non_terminals self) then
        list_to_set
          ((λ p, (nxt, p, 0)) <$> default [] (grammar_get (grammar self) nxt))
      else ∅
  | None => ∅
  end.

(** [new_items] at the end of one pass of the [while added] loop. *)
Definition new_items (closure_set : gset item) : gset item :=
  filter (λ it, it ∉ closure_set) (set_bind expand closure_set).

(** The [while added] loop; [added] is [new_items ≠ ∅]. *)
Fixpoint closure_loop (fuel : nat) (closure_set : gset item) : gset item :=
  match fuel with
  | O => closure_set
  | S fuel' =>
      let new := new_items closure_set in
      if decide (new = ∅) then closure_set
      else closure_loop fuel' (closure_set ∪ new)
  end.

(** Number of productions in the grammar: every pass but the last adds
    an item [(N, p, 0)] with [p] one of them, so this many passes plus
    one reach the fixed point ([closure_saturated] below). *)
Definition production_count : nat :=
  sum_list (length <$> (grammar self).*2).

Definition closure (items : gset item) : gset item :=
  closure_loop (S production_count) items.

Definition advance (it : item) : item :=
  (item_lhs it, item_rhs it, S (item_dot it)).

Definition goto (items : gset item) (sym : symbol) : gset item :=
  closure (set_map advance (filter (λ it, next_symbol it = Some sym) items)).

(** ** FIRST and FOLLOW

    Both methods are plain recursion with no record of the non-terminals
    already entered.  [depth] is the number of nested calls the
    interpreter still allows; a call made at depth 0 raises
    [RecursionError]. *)

Fixpoint first (depth : nat) (non_terminal : symbol) : result (gset symbol) :=
  match depth with
  | O => Raise RecursionError
  | S depth' =>
      match grammar_get (grammar self) non_terminal with
      | None => Raise KeyError
      | Some productions =>
          rfold (λ first_set production,
                   match production with
                   | [] => Raise IndexError
                   | sym :: _ =>
                       if decide (sym ∈ terminals self)
                       then Ok (first_set ∪ {[sym]})
                       else s ← first depth' sym; Ok (first_set ∪ s)
                   end)
                ∅ productions
      end
  end.

(** The loop [for i, symbol in enumerate(production)] of [follow], run on
    the suffix [production[i:]]: its head is [symbol], and the head of the
    rest, when there is one, is [production[i + 1]]. *)
Fixpoint follow_scan (rec_first rec_follow : symbol → result (gset symbol))
    (non_terminal lhs : symbol) (follow_set : gset symbol)
    (suffix : list symbol) : result (gset symbol) :=
  match suffix with
  | [] => Ok follow_set
  | sym :: rest =>
      follow_set' ←
        (if decide (sym = non_terminal) then
           match rest with
           | nxt :: _ =>
               if decide (nxt ∈ terminals self)
               then Ok (follow_set ∪ {[nxt]})
               else s ← rec_first nxt; Ok (follow_set ∪ s)
           | [] => s ← rec_follow lhs; Ok (follow_set ∪ s)
           end
         else Ok follow_set);
      follow_scan rec_first rec_follow non_terminal lhs follow_set' rest
  end.

Fixpoint follow (depth : nat) (non_terminal : symbol) : result (gset symbol) :=
  match depth with
  | O => Raise RecursionError
  | S depth' =>
      let follow_set :=
        if decide (non_terminal = start_symbol self) then {["$"]} else ∅ in
      rfold (λ follow_set '(lhs, productions),
               rfold (follow_scan (first depth') (follow depth') non_terminal lhs)
                     follow_set productions)
            follow_set (grammar self)
  end.

(** ** Canonical collection and tables *)

(** Position of the first production equal to [rhs], or -1. *)
Fixpoint index_of (rhs : production) (productions : list production) (i : Z) : Z :=
  match productions with
  | [] => (-1)%Z
  | p :: ps => if decide (p = rhs) then i else index_of rhs ps (i + 1)%Z
  end.

Definition get_production_index (lhs : symbol) (rhs : production) : result Z :=
  match grammar_get (grammar self) lhs with
  | None => Raise KeyError
  | Some productions => Ok (index_of rhs productions 0%Z)
  end.

(** What [items] assigns: the four mutable fields of [self] and its two
    locals.  The methods it calls ([goto], [follow]) read only [grammar],
    [terminals], [non_terminals] and [start_symbol], which it leaves
    alone, so they are taken from [self] throughout. *)
Record builder : Type := mkBuilder {
  b_states : list (gset item);
  b_count : nat;
  b_mapping : gmap (gset item) nat;
  b_queue : list (gset item);
  b_action : table action;
  b_goto : table nat
}.

(** Body of [for symbol in self.terminals + self.non_terminals].  The
    index read back from [state_mapping] is the one already there or the
    one just stored. *)
Definition items_symbol (state : gset item) (state_index : nat)
    (b : builder) (sym : symbol) : builder :=
  let next_state := goto state sym in
  if decide (next_state = ∅) then b
  else
    let '(b1, next_state_index) :=
      match b_mapping b !! next_state with
      | Some i => (b, i)
      | None =>
          let c := S (b_count b) in
          (mkBuilder (b_states b ++ [next_state]) c
                     (<[next_state := c]> (b_mapping b))
                     (b_queue b ++ [next_state])
                     (b_action b) (b_goto b), c)
      end in
    if decide (sym ∈ terminals self) then
      mkBuilder (b_states b1) (b_count b1) (b_mapping b1) (b_queue b1)
                (dd_set (b_action b1) state_index sym (shift next_state_index))
                (b_goto b1)
    else
      mkBuilder (b_states b1) (b_count b1) (b_mapping b1) (b_queue b1)
                (b_action b1)
                (dd_set (b_goto b1) state_index sym next_state_index).

(** One pass of [while states_queue]; [None] when the queue is empty. *)
Definition items_dequeue (b : builder) : option (result builder) :=
  match b_queue b with
  | [] => None
  | state :: queue =>
      Some match b_mapping b !! state with
           | None => Raise KeyError
           | Some state_index =>
               Ok (foldl (items_symbol state state_index)
                         (mkBuilder (b_states b) (b_count b) (b_mapping b) queue
                                    (b_action b) (b_goto b))
                         (terminals self ++ non_terminals self))
           end
  end.

(** The [while] loop.  The outer [None] says the queue was not yet empty
    after [fuel] passes. *)
Fixpoint items_loop (fuel : nat) (b : builder) : option (result builder) :=
  match items_dequeue b with
  | None => Some (Ok b)
  | Some (Raise e) => Some (Raise e)
  | Some (Ok b') =>
      match fuel with
      | O => None
      | S fuel' => items_loop fuel' b'
      end
  end.

(** Body of [for lhs, rhs, dot_pos in state] in the second loop. *)
Definition items_complete (depth : nat) (i : nat) (tbl : table action)
    (it : item) : result (table action) :=
  let '(lhs, rhs, dot_pos) := it in
  if decide (dot_pos = length rhs) then
    if decide (lhs = start_symbol self) then Ok (dd_set tbl i "$" accept)
    else
      production_index ← get_production_index lhs rhs;
      follow_set ← follow depth lhs;
      Ok (foldl (λ tbl terminal, dd_set tbl i terminal (reduce lhs rhs))
                tbl (elements follow_set))
  else Ok tbl.

(** [for i, state in enumerate(self.states)].  [order] is the order in
    which the interpreter happens to iterate over a set of items. *)
Definition items_reduce (order : gset item → list item) (depth : nat)
    (sts : list (gset item)) (tbl : table action) : result (table action) :=
  rfold (λ tbl '(i, state), rfold (items_complete depth i) tbl (order state))
        tbl (imap pair sts).

Definition initial_item : result item :=
  match grammar_get (grammar self) (start_symbol self) with
  | None => Raise KeyError
  | Some [] => Raise IndexError
  | Some (p :: _) => Ok (start_symbol self, p, 0)
  end.

Definition items (order : gset item → list item) (fuel depth : nat)
    : option (result LRParser) :=
  match initial_item with
  | Raise e => Some (Raise e)
  | Ok it =>
      let initial_state := closure {[it]} in
      let b := mkBuilder (states self ++ [initial_state]) (state_count self)
                         {[initial_state := 0]} [initial_state]
                         (action_table self) (goto_table self) in
      match items_loop fuel b with
      | None => None
      | Some (Raise e) => Some (Raise e)
      | Some (Ok b') =>
          Some (tbl ← items_reduce order depth (b_states b') (b_action b');
                Ok (mkLRParser (grammar self) (terminals self)
                               (non_terminals self) (start_symbol self)
                               tbl (b_goto b') (b_states b') (b_count b')))
      end
  end.

End Methods.

(** ** Parse driver *)

(** A stack slot holds a state number or a grammar symbol.  The model keeps
    the stack top first: [stack[-1]] is the head of the list. *)
Inductive entry : Type :=
  | St (state : nat)
  | Sym (s : symbol).

#[global] Instance entry_eq_dec : EqDecision entry.
Proof. solve_decision. Defined.

(** What one pass of [while True] leads to. *)
Inductive outcome : Type :=
  | Running (stack : list entry) (index : nat)
  | Returned (value : bool)
  | Raised (e : exn).

#[global] Instance outcome_eq_dec : EqDecision outcome.
Proof. solve_decision. Defined.

Definition with_action_table (self : LRParser) (tbl : table action) : LRParser :=
  mkLRParser (grammar self) (terminals self) (non_terminals self)
             (start_symbol self) tbl (goto_table self) (states self)
             (state_count self).

Definition with_goto_table (self : LRParser) (tbl : table nat) : LRParser :=
  mkLRParser (grammar self) (terminals self) (non_terminals self)
             (start_symbol self) (action_table self) tbl (states self)
             (state_count self).

(** [for _ in range(n): stack.pop()]. *)
Fixpoint pop_n (n : nat) (stack : list entry) : result (list entry) :=
  match n with
  | O => Ok stack
  | S n' =>
      match stack with
      | [] => Raise IndexError
      | _ :: stack' => pop_n n' stack'
      end
  end.

(** One pass of the loop of [parse].  Both tables are [defaultdict]s, so
    the reads [self.action_table[state]] and [self.goto_table[stack[-2]]]
    go through [dd_get].  A symbol where a state is expected does not occur
    ([parse_stack_alternates] below); the tables, keyed by numbers here,
    are left as they are in those branches. *)
Definition parse_step (input_string : list symbol) (self : LRParser)
    (stack : list entry) (index : nat) : LRParser * outcome :=
  match stack with
  | [] => (self, Raised IndexError)
  | top :: _ =>
      match input_string !! index with
      | None => (self, Raised IndexError)
      | Some current_symbol =>
          match top with
          | Sym _ => (self, Raised (SyntaxError index current_symbol))
          | St state =>
              let '(row, tbl) := dd_get (action_table self) state in
              let self1 := with_action_table self tbl in
              match row !! current_symbol with
              | None => (self1, Raised (SyntaxError index current_symbol))
              | Some (shift dest) =>
                  (self1, Running (St dest :: Sym current_symbol :: stack) (S index))
              | Some (reduce lhs rhs) =>
                  match pop_n (2 * length rhs) stack with
                  | Raise e => (self1, Raised e)
                  | Ok stack1 =>
                      let stack2 := Sym lhs :: stack1 in
                      match stack2 !! 1 with
                      | None => (self1, Raised IndexError)
                      | Some (Sym _) => (self1, Raised KeyError)
                      | Some (St exposed) =>
                          let '(grow, gtbl) := dd_get (goto_table self1) exposed in
                          let self2 := with_goto_table self1 gtbl in
                          match grow !! lhs with
                          | None => (self2, Raised KeyError)
                          | Some goto_state =>
                              (self2, Running (St goto_state :: stack2) index)
                          end
                      end
                  end
              | Some accept => (self1, Returned true)
              end
          end
      end
  end.

(** The loop itself; [Running] is reported when it is still going after
    [fuel] passes. *)
Fixpoint parse_loop (fuel : nat) (input_string : list symbol) (self : LRParser)
    (stack : list entry) (index : nat) : LRParser * outcome :=
  match fuel with
  | O => (self, Running stack index)
  | S fuel' =>
      match parse_step input_string self stack index with
      | (self', Running stack' index') =>
          parse_loop fuel' input_string self' stack' index'
      | r => r
      end
  end.

Definition parse (fuel : nat) (self : LRParser) (input : list symbol)
    : LRParser * outcome :=
  parse_loop fuel (input ++ ["$"]) self [St 0] 0.

(** ** Output helpers *)

(** [str(x)] for a stack slot: a state number in decimal, a symbol as it
    is. *)
Definition str (x : entry) : string :=
  match x with
  | St state => pretty state
  | Sym s => s
  end.

(** [format_stack]: the Python list has the bottom of the stack first, the
    model the top. *)
Definition format_stack (stack : list entry) : string :=
  String.concat "" (str <$> reverse stack).

(** [format_input]: the slice [input_string[index:]] is empty from the end
    of the list on. *)
Definition format_input (input_string : list symbol) (index : nat) : string :=
  String.concat "" (drop index input_string).

(** [rhs_with_dot] in [print_closure_sets]: [list.insert] puts the dot
    before position [dot_pos], or at the end when there is no such
    position. *)
Definition rhs_with_dot (rhs : production) (dot_pos : nat) : list symbol :=
  take dot_pos rhs ++ "." :: drop dot_pos rhs.

(** ** The grammar of [__main__] *)

Definition example_grammar : list (symbol * list production) :=
  [ ("S'", [["S"]]);
    ("S", [["E"]]);
    ("E", [["E"; "+"; "T"]; ["T"]]);
    ("T", [["T"; "*"; "F"]; ["F"]]);
    ("F", [["("; "E"; ")"]; ["id"]]) ].

Definition example_parser : LRParser :=
  init example_grammar ["+"; "*"; "("; ")"; "id"] ["S"; "E"; "T"; "F"] "S'".



(** * Vocabulary of the properties *)

(** The lists obtained from [l] by dropping elements. *)
Fixpoint sublists {A} (l : list A) : list (list A) :=
  match l with
  | [] => [[]]
  | x :: l' => ((x ::.) <$> sublists l') ++ sublists l'
  end.

Section Vocabulary.
Variable self : LRParser.

(** Every item the loop can ever add: [(N, p, 0)] for a production [p]
    listed under [N]. *)
Definition fresh_items : gset item :=
  list_to_set (flat_map (λ '(k, prods), (λ p, (k, p, 0)) <$> prods) (grammar self)).

(** An item of the grammar: a production listed under its left-hand side,
    with the dot somewhere in it. *)
Definition item_in_grammar (it : item) : Prop :=
  (∃ prods, (item_lhs it, prods) ∈ grammar self ∧ item_rhs it ∈ prods) ∧
  item_dot it ≤ length (item_rhs it).

(** What holds of every item set stored in [self.states]. *)
Record state_ok (X : gset item) : Prop := {
  so_nonempty : X ≠ ∅;
  so_saturated : new_items self X = ∅;
  so_items : ∀ it, it ∈ X → item_in_grammar it;
  so_derived : ∀ it, it ∈ X → item_dot it = 0 →
    item_lhs it = start_symbol self ∨ ∃ it', it' ∈ X ∧ it ∈ expand self it'
}.

(** The items of the grammar, listed. *)
Definition all_items : list item :=
  flat_map (λ '(k, prods),
              flat_map (λ p, (λ d, (k, p, d)) <$> seq 0 (S (length p))) prods)
           (grammar self).

(** A bound on the number of item sets [items] can find: each one is a
    set of items of the grammar. *)
Definition state_bound : nat := length (sublists all_items).

(** While the symbols of the state [X0] are being gone through in [items],
    [rest] are those still to come; the edges not yet looked at are those
    of the queued states and those of [X0] on [rest]. *)
Definition pending (b : builder) (X0 : gset item) (rest : list symbol)
    (X : gset item) (sym : symbol) : Prop :=
  X ∈ b_queue b ∨ (X = X0 ∧ sym ∈ rest).

(** The invariant of the first loop of [items]. *)
Record binv (X0 : gset item) (rest : list symbol) (b : builder) : Prop := {
  bi_count : S (b_count b) = length (b_states b);
  bi_mapping : ∀ X i, b_mapping b !! X = Some i ↔ b_states b !! i = Some X;
  bi_queue : ∀ X, X ∈ b_queue b → X ∈ b_states b;
  bi_states : ∀ i X, b_states b !! i = Some X → state_ok X;
  bi_initial : ∃ X, b_states b !! 0 = Some X ∧ ∀ it, it ∈ X → item_dot it = 0;
  bi_action : ∀ i t a, cell (b_action b) i t = Some a →
    ∃ j X, a = shift j ∧ t ∈ terminals self ∧ b_states b !! i = Some X ∧
           goto self X t ≠ ∅ ∧ b_states b !! j = Some (goto self X t);
  bi_goto : ∀ i t j, cell (b_goto b) i t = Some j →
    ∃ X, t ∉ terminals self ∧ b_states b !! i = Some X ∧
         goto self X t ≠ ∅ ∧ b_states b !! j = Some (goto self X t);
  bi_edges : ∀ i X sym, b_states b !! i = Some X →
    sym ∈ terminals self ++ non_terminals self → goto self X sym ≠ ∅ →
    pending b X0 rest X sym ∨
    ∃ j, b_states b !! j = Some (goto self X sym) ∧
         if decide (sym ∈ terminals self)
         then cell (b_action b) i sym = Some (shift j)
         else cell (b_goto b) i sym = Some j
}.

(** Ranks that make the recursion of [first] well founded on the
    non-terminals [dom]: a production of a non-terminal of [dom] starts
    with a terminal or with a non-terminal of [dom] of lower rank. *)
Definition first_ranked (dom : list symbol) (rank : symbol → nat) : Prop :=
  Forall (λ '(lhs, productions),
            lhs ∈ dom →
            Forall (λ production,
                      match production with
                      | [] => False
                      | sym :: _ =>
                          sym ∈ terminals self ∨
                          (sym ∈ dom ∧
                           is_Some (grammar_get (grammar self) sym) ∧
                           rank sym < rank lhs)
                      end) productions)
         (grammar self).

(** Ranks that make the recursion of [follow] well founded, checked on
    [production[i:]] for a production of [lhs]: a non-terminal [sym] of the
    grammar is followed by a terminal or by a non-terminal of [dom] whose
    [first] rank is below [bound], and when it ends the production, [lhs]
    has a lower rank than [sym]. *)
Fixpoint follow_ranked_in (dom : list symbol) (frank rank : symbol → nat)
    (bound : nat) (lhs : symbol) (suffix : list symbol) : Prop :=
  match suffix with
  | [] => True
  | sym :: rest =>
      (is_Some (grammar_get (grammar self) sym) →
       match rest with
       | nxt :: _ =>
           nxt ∈ terminals self ∨
           (nxt ∈ dom ∧ is_Some (grammar_get (grammar self) nxt) ∧
            frank nxt < bound)
       | [] => rank lhs < rank sym
       end) ∧
      follow_ranked_in dom frank rank bound lhs rest
  end.

Definition follow_ranked (dom : list symbol) (frank rank : symbol → nat)
    (bound : nat) : Prop :=
  Forall (λ '(lhs, productions),
            Forall (follow_ranked_in dom frank rank bound lhs) productions)
         (grammar self).

#[global] Instance first_ranked_dec dom rank : Decision (first_ranked dom rank).
Proof.
  unfold first_ranked. apply Forall_dec. intros [lhs productions].
  apply impl_dec; [apply _|]. apply Forall_dec. intros [|sym rest]; apply _.
Defined.

#[global] Instance follow_ranked_in_dec dom frank rank bound lhs suffix :
  Decision (follow_ranked_in dom frank rank bound lhs suffix).
Proof.
  induction suffix as [|sym [|nxt rest] IH]; simpl; apply _.
Defined.

#[global] Instance follow_ranked_dec dom frank rank bound :
  Decision (follow_ranked dom frank rank bound).
Proof.
  unfold follow_ranked. apply Forall_dec. intros [lhs productions]. apply _.
Defined.

Variable depth : nat.

(** The cells the body of the second loop writes for one item, and the
    action it writes there. *)
Definition item_targets (it : item) (t : symbol) : Prop :=
  item_dot it = length (item_rhs it) ∧
  if decide (item_lhs it = start_symbol self) then t = "$"
  else match follow self depth (item_lhs it) with
       | Ok follow_set => t ∈ follow_set
       | Raise _ => False
       end.

Definition item_action (it : item) : action :=
  if decide (item_lhs it = start_symbol self) then accept
  else reduce (item_lhs it) (item_rhs it).

#[global] Instance item_targets_dec it t : Decision (item_targets it t).
Proof.
  unfold item_targets. apply and_dec; [apply _|].
  case_decide; [apply _|]. destruct (follow _ _ _); apply _.
Defined.

(** The terminals under which the second loop writes for an item. *)
Definition item_target_set (it : item) : gset symbol :=
  if decide (item_dot it = length (item_rhs it)) then
    if decide (item_lhs it = start_symbol self) then {["$"]}
    else match follow self depth (item_lhs it) with
         | Ok follow_set => follow_set
         | Raise _ => ∅
         end
  else ∅.

(** No two items of a state write different actions into one cell. *)
Definition conflict_free (sts : list (gset item)) : Prop :=
  Forall (λ X,
            Forall (λ it1,
                      Forall (λ it2,
                                item_target_set it1 ## item_target_set it2 ∨
                                item_action it1 = item_action it2)
                             (elements X))
                   (elements X))
         sts.

#[global] Instance conflict_free_dec sts : Decision (conflict_free sts).
Proof. unfold conflict_free. apply _. Defined.

(** Whether the body of the second loop raises depends on the item
    only. *)
Definition item_fine (it : item) : Prop :=
  ∃ tbl, items_complete self depth 0 ∅ it = Ok tbl.

Variable order : gset item → list item.

(** The pass over all states, started at index [n]. *)
Definition reduce_from (n : nat) (sts : list (gset item)) (tbl : table action)
    : result (table action) :=
  rfold (λ tbl '(i, state), rfold (items_complete self depth i) tbl (order state))
        tbl (imap (λ j, pair (n + j)) sts).

End Vocabulary.

(** The order in which a set is iterated lists every element once. *)
Definition iteration_order (order : gset item → list item) : Prop :=
  ∀ X, order X ≡ₚ elements X.

(** All that a read through a [defaultdict] can do to a table: give a
    state that had no row the empty row. *)
Definition rows_extended {V} (t t' : table V) : Prop :=
  ∀ k, t' !! k = t !! k ∨ (t !! k = None ∧ t' !! k = Some ∅).

(** Two snapshots of the object that differ by such reads at most. *)
Record same_object (P P' : LRParser) : Prop := {
  same_grammar : grammar P' = grammar P;
  same_terminals : terminals P' = terminals P;
  same_non_terminals : non_terminals P' = non_terminals P;
  same_start_symbol : start_symbol P' = start_symbol P;
  same_states : states P' = states P;
  same_state_count : state_count P' = state_count P;
  same_action_table : rows_extended (action_table P) (action_table P');
  same_goto_table : rows_extended (goto_table P) (goto_table P')
}.

(** The outcome of a run is decided by the cells of the two tables. *)
Definition same_cells (P Q : LRParser) : Prop :=
  (∀ i s, cell (action_table Q) i s = cell (action_table P) i s) ∧
  (∀ i s, cell (goto_table Q) i s = cell (goto_table P) i s).

(** One pass of the loop, read off the cells of the two tables. *)
Definition pass_outcome (self : LRParser) (stack : list entry) (index : nat)
    (state : nat) (current_symbol : symbol) : outcome :=
  match cell (action_table self) state current_symbol with
  | None => Raised (SyntaxError index current_symbol)
  | Some (shift dest) => Running (St dest :: Sym current_symbol :: stack) (S index)
  | Some (reduce lhs rhs) =>
      if decide (2 * length rhs ≤ length stack) then
        match drop (2 * length rhs) stack with
        | [] => Raised IndexError
        | Sym _ :: _ => Raised KeyError
        | St exposed :: below =>
            match cell (goto_table self) exposed lhs with
            | None => Raised KeyError
            | Some goto_state =>
                Running (St goto_state :: Sym lhs :: St exposed :: below) index
            end
        end
      else Raised IndexError
  | Some accept => Returned true
  end.

(** The stack has a state on top and alternates below it. *)
Inductive state_top : list entry → Prop :=
  | state_top_base state : state_top [St state]
  | state_top_push state x stack :
      state_top stack → state_top (St state :: Sym x :: stack).

(** The symbols the cursor has passed are not the end marker. *)
Definition cursor_ok (input_string : list symbol) (index : nat) : Prop :=
  ∀ k, k < index → input_string !! k ≠ Some "$".

Section StackVocabulary.
Variables (g : list (symbol * list production)) (ts nts : list symbol).
Variable start : symbol.
Let self := init g ts nts start.
Variable P : LRParser.

(** Bottom state 0, and each state above is the [goto] of the state two
    slots below on the symbol between them. *)
Inductive stack_ok : list entry → Prop :=
  | stack_ok_base : stack_ok [St 0]
  | stack_ok_push i X sym j rest :
      stack_ok (St i :: rest) →
      states P !! i = Some X →
      states P !! j = Some (goto self X sym) →
      stack_ok (St j :: Sym sym :: St i :: rest).

(** The configurations of a run on [input_string]. *)
Record config_ok (input_string : list symbol) (P1 : LRParser)
    (stack : list entry) (index : nat) : Prop := {
  co_object : same_object P P1;
  co_stack : stack_ok stack;
  co_cursor : cursor_ok input_string index
}.

End StackVocabulary.

(** All symbols on right-hand sides of the grammar. *)
Definition rhs_symbols (g : list (symbol * list production)) : list symbol :=
  mjoin (mjoin g.*2).

(** The object after a call of [items] that returns. *)
Definition built (self : LRParser) (order : gset item → list item)
    (fuel depth : nat) : LRParser :=
  match items self order fuel depth with
  | Some (Ok P) => P
  | _ => self
  end.

Definition builds (self : LRParser) (order : gset item → list item)
    (fuel depth : nat) : bool :=
  match items self order fuel depth with
  | Some (Ok _) => true
  | _ => false
  end.

(** ** Vocabulary of the further properties *)

Section NumberingVocabulary.
Variable self : LRParser.

(** The states are numbered in the order they are found: state 0 is the
    initial one and each later one is the [goto] of a state numbered
    before it; the goto table is keyed by declared non-terminals. *)
Record numbered (X0 : gset item) (b : builder) : Prop := {
  nb_initial : b_states b !! 0 = Some X0;
  nb_later : ∀ j X, b_states b !! S j = Some X →
    ∃ i Y sym, i ≤ j ∧ b_states b !! i = Some Y ∧
               sym ∈ terminals self ++ non_terminals self ∧
               X = goto self Y sym;
  nb_goto_keys : ∀ i t j, cell (b_goto b) i t = Some j → t ∈ non_terminals self
}.

(** The canonical collection: the item sets reached from [X0] by
    non-empty [goto]s on the declared symbols. *)
Inductive canonical (X0 : gset item) : gset item → Prop :=
  | canonical_initial : canonical X0 X0
  | canonical_goto Y sym :
      canonical X0 Y → sym ∈ terminals self ++ non_terminals self →
      goto self Y sym ≠ ∅ → canonical X0 (goto self Y sym).

End NumberingVocabulary.

Section SetsVocabulary.
Variable self : LRParser.

(** The terminal [x] begins a chain of leading symbols from [N]: a
    production of [N] starts with [x], or with a symbol that is not a
    terminal and from which such a chain starts. *)
Inductive leads : symbol → symbol → Prop :=
  | leads_terminal N prods x rest :
      grammar_get (grammar self) N = Some prods → (x :: rest) ∈ prods →
      x ∈ terminals self → leads N x
  | leads_through N prods sym rest x :
      grammar_get (grammar self) N = Some prods → (sym :: rest) ∈ prods →
      sym ∉ terminals self → leads sym x → leads N x.

(** What an occurrence of [N] in a production of [lhs] contributes to
    FOLLOW([N]), by the symbols [after] it. *)
Inductive follows : symbol → symbol → Prop :=
  | follows_start : follows (start_symbol self) "$"
  | follows_terminal N lhs prods before nxt after :
      (lhs, prods) ∈ grammar self → (before ++ N :: nxt :: after) ∈ prods →
      nxt ∈ terminals self → follows N nxt
  | follows_first N lhs prods before nxt after x :
      (lhs, prods) ∈ grammar self → (before ++ N :: nxt :: after) ∈ prods →
      nxt ∉ terminals self → leads nxt x → follows N x
  | follows_end N lhs prods before x :
      (lhs, prods) ∈ grammar self → (before ++ [N]) ∈ prods →
      follows lhs x → follows N x.

End SetsVocabulary.

Section ClosedVocabulary.
Variable self : LRParser.

(** Every right-hand side is non-empty and made of terminals and of keys
    of the grammar. *)
Definition grammar_closed : Prop :=
  Forall (λ e : symbol * list production,
            Forall (λ p : production,
                      p ≠ [] ∧
                      Forall (λ x, x ∈ terminals self ∨
                                   is_Some (grammar_get (grammar self) x)) p)
                   e.2)
         (grammar self).

#[global] Instance grammar_closed_dec : Decision grammar_closed.
Proof. unfold grammar_closed. apply _. Defined.

End ClosedVocabulary.

(** The only exception a computation leaves with is [RecursionError]. *)
Definition recursion_only {A} (r : result A) : Prop :=
  ∀ e, r = Raise e → e = RecursionError.

(** The grammar symbols on the stack, bottom first. *)
Fixpoint stack_symbols (stack : list entry) : list symbol :=
  match stack with
  | [] => []
  | St _ :: rest => stack_symbols rest
  | Sym s :: rest => stack_symbols rest ++ [s]
  end.

(** [derives g u w]: the string [w] is obtained from [u] by replacing,
    any number of times, a left-hand side by one of its productions. *)
Inductive derives (g : list (symbol * list production))
    : list symbol → list symbol → Prop :=
  | derives_refl w : derives g w w
  | derives_step before lhs prods rhs after w :
      (lhs, prods) ∈ g → rhs ∈ prods →
      derives g (before ++ rhs ++ after) w →
      derives g (before ++ lhs :: after) w.

Section SoundVocabulary.
Variables (g : list (symbol * list production)) (ts nts : list symbol).
Variable start : symbol.
Variable P : LRParser.

(** What a run keeps: the stack follows the automaton, and its symbols
    derive the input read so far. *)
Record sound_config (input_string : list symbol) (P1 : LRParser)
    (stack : list entry) (index : nat) : Prop := {
  sc_object : same_object P P1;
  sc_stack : stack_ok g ts nts start P stack;
  sc_derives : derives g (stack_symbols stack) (take index input_string)
}.

End SoundVocabulary.

(** ** Grammars used as instances *)

(** The object built for the example grammar of [__main__], with sets
    iterated in the order of [elements]. *)
Definition example_built : LRParser := built example_parser elements 100 1000.

(** A grammar whose initial state has neither a terminal after a dot nor a
    complete item: state 0 gets no row in the action table. *)
Definition unproductive_parser : LRParser :=
  init [ ("S'", [["A"]]); ("A", [["B"; "c"]]); ("B", [["A"; "d"]]) ]
       ["c"; "d"] ["A"; "B"] "S'".

Definition unproductive_built : LRParser :=
  built unproductive_parser elements 10 10.

(** The augmented grammar written with the end marker in it,
    [S' → S $]. *)
Definition marked_parser : LRParser :=
  init [ ("S'", [["S"; "$"]]); ("S", [["a"]]) ] ["a"] ["S"] "S'".

Definition marked_built : LRParser := built marked_parser elements 10 10.

(** Two productions with the same right-hand side and the same FOLLOW. *)
Definition ambiguous_parser : LRParser :=
  init [ ("S'", [["S"]]); ("S", [["A"]; ["B"]]); ("A", [["a"]]); ("B", [["a"]]) ]
       ["a"] ["S"; "A"; "B"] "S'".

Definition ambiguous_built : LRParser := built ambiguous_parser elements 10 10.

(** A symbol declared both as a terminal and as a non-terminal. *)
Definition overlapping_parser : LRParser :=
  init [ ("S'", [["S"]]); ("S", [["A"]]); ("A", [["a"]]) ]
       ["a"; "A"] ["S"; "A"] "S'".

Definition overlapping_built : LRParser :=
  built overlapping_parser elements 10 10.

(** Ranks for [follow] on the example grammar: [S' < S < E < T < F]. *)
Definition example_follow_rank (x : symbol) : nat :=
  if decide (x = "S'") then 0
  else if decide (x = "S") then 1
  else if decide (x = "E") then 2
  else if decide (x = "T") then 3
  else 4.

(** Closed decidable facts are settled by evaluation. *)
Ltac vm_decide := apply (bool_decide_unpack _); vm_compute; exact I.

(** * Properties *)

(** ** The closure loop reaches its fixed point *)

Section ClosureFacts.
Variable self : LRParser.

Lemma grammar_get_elem g nt prods :
  grammar_get g nt = Some prods → (nt, prods) ∈ g.
Proof.
  induction g as [|[k ps] g IH]; simpl; [done|].
  case_decide as Hk.
  - intros [= <-]. subst k. apply list_elem_of_here.
  - intros Hg. apply list_elem_of_further, IH, Hg.
Qed.

Lemma elem_of_expand x it :
  x ∈ expand self it ↔
  ∃ nxt prods p, next_symbol it = Some nxt ∧ nxt ∈ non_terminals self ∧
                 grammar_get (grammar self) nxt = Some prods ∧ p ∈ prods ∧
                 x = (nxt, p, 0).
Proof.
  unfold expand. destruct (next_symbol it) as [nxt|] eqn:Hn.
  - case_decide as Hnt.
    + rewrite elem_of_list_to_set, list_elem_of_fmap. split.
      * intros (p & -> & Hp).
        destruct (grammar_get (grammar self) nxt) as [prods|] eqn:Hg;
          simpl in Hp; [|by apply not_elem_of_nil in Hp].
        by exists nxt, prods, p.
      * intros (nxt' & prods & p & [= <-] & _ & Hg & Hp & ->).
        exists p. rewrite Hg. done.
    + split; [set_solver|].
      intros (nxt' & ? & ? & [= <-] & ? & _); done.
  - split; [set_solver|]. intros (? & ? & ? & ? & _); done.
Qed.

Lemma elem_of_new_items x C :
  x ∈ new_items self C ↔ (x ∉ C) ∧ (∃ it, it ∈ C ∧ x ∈ expand self it).
Proof. unfold new_items. rewrite elem_of_filter, elem_of_set_bind. done. Qed.

Lemma expand_fresh it : expand self it ⊆ fresh_items self.
Proof.
  intros x Hx. apply elem_of_expand in Hx as (nxt & prods & p & _ & _ & Hg & Hp & ->).
  unfold fresh_items. rewrite elem_of_list_to_set, list_elem_of_In.
  apply in_flat_map. exists (nxt, prods). split.
  - apply list_elem_of_In, grammar_get_elem, Hg.
  - apply list_elem_of_In, list_elem_of_fmap. by exists p.
Qed.

Lemma new_items_fresh C : new_items self C ⊆ fresh_items self.
Proof.
  intros x Hx. apply elem_of_new_items in Hx as (_ & it & _ & Hx).
  by eapply expand_fresh.
Qed.

Lemma size_list_to_set_le (l : list item) :
  size (list_to_set (C:=gset item) l) ≤ length l.
Proof.
  induction l as [|x l IH]; simpl.
  - change (size (∅ : gset item) ≤ 0). by rewrite size_empty.
  - change (size ({[x]} ∪ list_to_set (C:=gset item) l) ≤ S (length l)).
    rewrite size_union_alt, size_singleton.
    assert (list_to_set (C:=gset item) l ∖ {[x]} ⊆ list_to_set l) as Hle
      by set_solver.
    apply subseteq_size in Hle. lia.
Qed.

Lemma size_fresh_items : size (fresh_items self) ≤ production_count self.
Proof.
  unfold fresh_items, production_count.
  etrans; [apply size_list_to_set_le|].
  induction (grammar self) as [|[k prods] g IH]; simpl; [done|].
  rewrite length_app, length_fmap. apply Nat.add_le_mono_l, IH.
Qed.

Lemma closure_loop_extensive fuel C : C ⊆ closure_loop self fuel C.
Proof.
  revert C. induction fuel as [|fuel IH]; intros C; simpl; [done|].
  case_decide; [done|]. etrans; [|apply IH]. set_solver.
Qed.

(** With more fuel than there are fresh items still missing, the loop
    stops because a pass found nothing to add, not because the fuel ran
    out. *)
Lemma closure_loop_saturated fuel C :
  size (fresh_items self ∖ C) < fuel →
  new_items self (closure_loop self fuel C) = ∅.
Proof.
  revert C. induction fuel as [|fuel IH]; intros C Hsz; [lia|]. simpl.
  case_decide as Hnew; [done|]. apply IH.
  apply set_choose_L in Hnew as [x Hx].
  assert (fresh_items self ∖ (C ∪ new_items self C) ⊂ fresh_items self ∖ C)
    as Hlt.
  { split; [set_solver|]. intros Hsub.
    pose proof (new_items_fresh C x Hx) as Hfr.
    apply elem_of_new_items in Hx as Hx'. destruct Hx' as [HxC _].
    assert (x ∈ fresh_items self ∖ (C ∪ new_items self C)) as Hbad
      by (apply Hsub; set_solver).
    set_solver. }
  apply subset_size in Hlt. lia.
Qed.

Lemma closure_saturated X : new_items self (closure self X) = ∅.
Proof.
  apply closure_loop_saturated.
  assert (size (fresh_items self ∖ X) ≤ size (fresh_items self))
    by (apply subseteq_size; set_solver).
  pose proof size_fresh_items. lia.
Qed.

Lemma closure_loop_fixed fuel C :
  new_items self C = ∅ → closure_loop self fuel C = C.
Proof. intros H. destruct fuel; simpl; [done|]. by rewrite decide_True. Qed.

Lemma closure_extensive X : X ⊆ closure self X.
Proof. apply closure_loop_extensive. Qed.

(** The closure is closed under [expand]. *)
Lemma closure_closed X it :
  it ∈ closure self X → expand self it ⊆ closure self X.
Proof.
  intros Hit x Hx. destruct (decide (x ∈ closure self X)) as [|Hn]; [done|].
  assert (x ∈ new_items self (closure self X)) as Hbad
    by (apply elem_of_new_items; eauto).
  rewrite closure_saturated in Hbad. set_solver.
Qed.

(** Whatever the closure holds was given or comes from expanding one of
    its items. *)
Lemma closure_loop_elem fuel C x :
  x ∈ closure_loop self fuel C →
  x ∈ C ∨ ∃ it, it ∈ closure_loop self fuel C ∧ x ∈ expand self it.
Proof.
  revert C. induction fuel as [|fuel IH]; intros C; simpl; [auto|].
  case_decide as Hnew; [auto|]. intros Hx.
  destruct (IH _ Hx) as [Hin|?]; [|auto].
  apply elem_of_union in Hin as [?|Hin]; [auto|]. right.
  apply elem_of_new_items in Hin as (_ & it & Hit & Hex).
  exists it. split; [|done].
  apply closure_loop_extensive. set_solver.
Qed.

Lemma closure_elem X x :
  x ∈ closure self X →
  x ∈ X ∨ ∃ it, it ∈ closure self X ∧ x ∈ expand self it.
Proof. apply closure_loop_elem. Qed.

Lemma closure_empty : closure self ∅ = ∅.
Proof.
  unfold closure. apply closure_loop_fixed.
  apply set_eq. intros x. rewrite elem_of_new_items. set_solver.
Qed.

Lemma closure_closure X : closure self (closure self X) = closure self X.
Proof. apply closure_loop_fixed, closure_saturated. Qed.

Lemma elem_of_goto_kernel X sym x :
  x ∈ set_map (C:=gset item) (D:=gset item) advance
        (filter (λ it, next_symbol it = Some sym) X) ↔
  ∃ it, it ∈ X ∧ next_symbol it = Some sym ∧ x = advance it.
Proof. rewrite elem_of_map. setoid_rewrite elem_of_filter. naive_solver. Qed.

End ClosureFacts.

(** ** Table cells *)

Section TableFacts.
Context {V : Type}.
Implicit Types tbl : table V.

Lemma cell_dd_set tbl k s v k' s' :
  cell (dd_set tbl k s v) k' s' =
  if decide (k = k' ∧ s = s') then Some v else cell tbl k' s'.
Proof.
  unfold cell, dd_set, dd_get.
  destruct (tbl !! k) as [row|] eqn:Hk.
  - destruct (decide (k = k')) as [<-|Hne].
    + rewrite lookup_insert_eq, Hk. simpl.
      destruct (decide (s = s')) as [<-|Hs].
      * rewrite lookup_insert_eq. by rewrite decide_True.
      * rewrite lookup_insert_ne by done. rewrite decide_False; naive_solver.
    + rewrite lookup_insert_ne by done. rewrite decide_False; naive_solver.
  - destruct (decide (k = k')) as [<-|Hne].
    + rewrite lookup_insert_eq, Hk. simpl.
      destruct (decide (s = s')) as [<-|Hs].
      * rewrite lookup_insert_eq. by rewrite decide_True.
      * rewrite lookup_insert_ne by done. rewrite decide_False; naive_solver.
    + rewrite !lookup_insert_ne by done. rewrite decide_False; naive_solver.
Qed.

Lemma cell_dd_set_eq tbl k s v : cell (dd_set tbl k s v) k s = Some v.
Proof. rewrite cell_dd_set. by rewrite decide_True. Qed.

Lemma cell_dd_set_ne tbl k s v k' s' :
  ¬ (k = k' ∧ s = s') → cell (dd_set tbl k s v) k' s' = cell tbl k' s'.
Proof. intros. rewrite cell_dd_set. by rewrite decide_False. Qed.

(** A read through the [defaultdict] returns the row whose cells are
    those of the table, and changes no cell. *)
Lemma dd_get_row tbl k s : (dd_get tbl k).1 !! s = cell tbl k s.
Proof.
  unfold dd_get, cell. destruct (tbl !! k); simpl; [done|].
  apply lookup_empty.
Qed.

Lemma cell_dd_get tbl k k' s : cell (dd_get tbl k).2 k' s = cell tbl k' s.
Proof.
  unfold dd_get, cell. destruct (tbl !! k) eqn:Hk; simpl; [done|].
  destruct (decide (k = k')) as [<-|Hne].
  - rewrite lookup_insert_eq, Hk. simpl. apply lookup_empty.
  - by rewrite lookup_insert_ne.
Qed.

Lemma cell_empty k s : cell (∅ : table V) k s = None.
Proof. unfold cell. by rewrite lookup_empty. Qed.

End TableFacts.

(** ** Invariant of the breadth-first construction *)

Section BuilderFacts.
Variable self : LRParser.

Lemma expand_production it x :
  x ∈ expand self it → item_in_grammar self x ∧ item_dot x = 0.
Proof.
  intros (nxt & prods & p & _ & _ & Hg & Hp & ->)%elem_of_expand.
  split; [|done]. split; [|simpl; lia]. exists prods. split; [|done].
  by apply grammar_get_elem.
Qed.

Lemma closure_state_ok K :
  K ≠ ∅ →
  (∀ it, it ∈ K → item_in_grammar self it) →
  (∀ it, it ∈ K → item_dot it = 0 → item_lhs it = start_symbol self) →
  state_ok self (closure self K).
Proof.
  intros Hne Hrhs Hdot. split.
  - pose proof (closure_extensive self K). set_solver.
  - apply closure_saturated.
  - intros it [Hit|(it' & _ & Hex)]%closure_elem; [auto|].
    by apply expand_production in Hex as [? _].
  - intros it [Hit|(it' & Hit' & Hex)]%closure_elem Hd; [auto|].
    right. eauto.
Qed.

Lemma goto_state_ok X sym :
  state_ok self X → goto self X sym ≠ ∅ → state_ok self (goto self X sym).
Proof.
  intros HX Hne. apply closure_state_ok.
  - intros HK. apply Hne. unfold goto. rewrite HK. apply closure_empty.
  - intros it (it0 & Hit0 & Hnext & ->)%elem_of_goto_kernel.
    destruct (so_items self _ HX it0 Hit0) as [Hprod _].
    split; [exact Hprod|].
    apply lookup_lt_Some in Hnext. exact Hnext.
  - intros it (it0 & Hit0 & _ & ->)%elem_of_goto_kernel; done.
Qed.

(** An item of [goto(X, sym)] whose dot is not at the start comes from an
    item of [X] with [sym] after its dot. *)
Lemma goto_kernel_item X sym lhs rhs d :
  (lhs, rhs, S d) ∈ goto self X sym →
  (lhs, rhs, d) ∈ X ∧ rhs !! d = Some sym.
Proof.
  intros [Hk|(it' & _ & Hex)]%closure_elem.
  - apply elem_of_goto_kernel in Hk as ([[l r] d'] & Hit & Hn & Heq).
    unfold next_symbol, advance, item_lhs, item_rhs, item_dot in *.
    by simplify_eq/=.
  - by apply expand_production in Hex as [_ ?].
Qed.

Lemma goto_advance X sym it :
  it ∈ X → next_symbol it = Some sym → advance it ∈ goto self X sym.
Proof.
  intros Hit Hn. apply closure_extensive, elem_of_goto_kernel. eauto.
Qed.

(** Appending a state that [state_mapping] does not know yet. *)
Lemma binv_add_state X0 rest b Y :
  binv self X0 rest b → state_ok self Y → b_mapping b !! Y = None →
  binv self X0 rest
    (mkBuilder (b_states b ++ [Y]) (S (b_count b))
               (<[Y := S (b_count b)]> (b_mapping b)) (b_queue b ++ [Y])
               (b_action b) (b_goto b)).
Proof.
  intros Hb HY Hnew. pose proof (bi_count self _ _ _ Hb) as Hc.
  assert (∀ i X, b_states b !! i = Some X → (b_states b ++ [Y]) !! i = Some X)
    as Hmono by (intros; by apply lookup_app_l_Some).
  split; simpl.
  - rewrite length_app. simpl. lia.
  - intros X i. rewrite lookup_app_Some. simpl.
    destruct (decide (Y = X)) as [<-|Hne].
    + rewrite lookup_insert_eq. split.
      * intros [= <-]. right. split; [lia|].
        by replace (S (b_count b) - length (b_states b)) with 0 by lia.
      * intros [Hi|[Hle Hi]].
        -- apply (bi_mapping self _ _ _ Hb) in Hi. congruence.
        -- apply lookup_lt_Some in Hi as Hlt. simpl in Hlt. f_equal. lia.
    + rewrite lookup_insert_ne by done. rewrite (bi_mapping self _ _ _ Hb).
      split; [auto|]. intros [?|[Hle Hi]]; [done|].
      apply list_lookup_singleton_Some in Hi as [_ ?]. done.
  - intros X [HX| ->%list_elem_of_singleton]%elem_of_app.
    + apply elem_of_app. left. by apply (bi_queue self _ _ _ Hb).
    + apply elem_of_app. right. apply list_elem_of_here.
  - intros i X [Hi|[_ Hi]]%lookup_app_Some.
    + by eapply (bi_states self _ _ _ Hb).
    + apply list_lookup_singleton_Some in Hi as [_ <-]. done.
  - destruct (bi_initial self _ _ _ Hb) as (X & H0 & Hdots). eauto.
  - intros i t a Ha.
    destruct (bi_action self _ _ _ Hb _ _ _ Ha) as (j & X & ? & ? & ? & ? & ?).
    exists j, X. eauto 10.
  - intros i t j Hj.
    destruct (bi_goto self _ _ _ Hb _ _ _ Hj) as (X & ? & ? & ? & ?).
    exists X. eauto 10.
  - intros i X sym [Hi|[_ Hi]]%lookup_app_Some Hsym Hne.
    + destruct (bi_edges self _ _ _ Hb _ _ _ Hi Hsym Hne) as [[Hq|Hcur]|(j & ? & ?)].
      * left. left. apply elem_of_app. by left.
      * left. by right.
      * right. exists j. eauto.
    + apply list_lookup_singleton_Some in Hi as [_ <-].
      left. left. apply elem_of_app. right. apply list_elem_of_here.
Qed.

(** Recording the edge of [X0] on [sym]. *)
Lemma binv_add_edge X0 sym rest b i0 j :
  binv self X0 (sym :: rest) b →
  b_states b !! i0 = Some X0 →
  goto self X0 sym ≠ ∅ →
  b_states b !! j = Some (goto self X0 sym) →
  binv self X0 rest
    (if decide (sym ∈ terminals self) then
       mkBuilder (b_states b) (b_count b) (b_mapping b) (b_queue b)
                 (dd_set (b_action b) i0 sym (shift j)) (b_goto b)
     else
       mkBuilder (b_states b) (b_count b) (b_mapping b) (b_queue b)
                 (b_action b) (dd_set (b_goto b) i0 sym j)).
Proof.
  intros Hb Hi0 Hne Hj.
  assert (∀ i X s, b_states b !! i = Some X →
            s ∈ terminals self ++ non_terminals self → goto self X s ≠ ∅ →
            ¬ (i0 = i ∧ sym = s) →
            pending b X0 rest X s ∨
            ∃ j, b_states b !! j = Some (goto self X s) ∧
                 if decide (s ∈ terminals self)
                 then cell (b_action b) i s = Some (shift j)
                 else cell (b_goto b) i s = Some j) as Hother.
  { intros i X s Hi Hs HneX Hcell.
    destruct (bi_edges self _ _ _ Hb _ _ _ Hi Hs HneX) as [[Hq|[-> Hin]]|?];
      [left; by left| |by right].
    apply elem_of_cons in Hin as [->|Hin]; [|left; by right].
    destruct (decide (i0 = i)) as [->|Hi0i]; [naive_solver|].
    right. destruct (bi_edges self _ _ _ Hb _ _ _ Hi Hs HneX) as [[Hq|[_ _]]|?];
      [| |done].
    - exfalso. (* the same set at two indices *)
      apply (bi_mapping self _ _ _ Hb) in Hi, Hi0. congruence.
    - exfalso. apply (bi_mapping self _ _ _ Hb) in Hi, Hi0. congruence. }
  case_decide as Ht; split; simpl;
    try apply Hb; try (destruct Hb; done).
  - intros i t a. rewrite cell_dd_set. case_decide as Hc.
    + destruct Hc as [<- <-]. intros [= <-]. exists j, X0. eauto 10.
    + apply Hb.
  - intros i X s Hi Hs HneX.
    destruct (decide (i0 = i ∧ sym = s)) as [[<- <-]|Hc].
    + right. exists j. assert (X = X0) as -> by congruence.
      split; [done|]. rewrite decide_True by done. apply cell_dd_set_eq.
    + destruct (Hother _ _ _ Hi Hs HneX Hc) as [?|(j' & ? & Hcell)]; [by left|].
      right. exists j'. split; [done|]. case_decide; [|done].
      by rewrite cell_dd_set_ne.
  - intros i t j'. rewrite cell_dd_set. case_decide as Hc.
    + destruct Hc as [<- <-]. intros [= <-]. exists X0. eauto 10.
    + apply Hb.
  - intros i X s Hi Hs HneX.
    destruct (decide (i0 = i ∧ sym = s)) as [[<- <-]|Hc].
    + right. exists j. assert (X = X0) as -> by congruence.
      split; [done|]. rewrite decide_False by done. apply cell_dd_set_eq.
    + destruct (Hother _ _ _ Hi Hs HneX Hc) as [?|(j' & ? & Hcell)]; [by left|].
      right. exists j'. split; [done|]. case_decide; [done|].
      by rewrite cell_dd_set_ne.
Qed.

Lemma binv_skip X0 sym rest b :
  binv self X0 (sym :: rest) b → goto self X0 sym = ∅ → binv self X0 rest b.
Proof.
  intros Hb Hempty. split; try apply Hb.
  intros i X s Hi Hs Hne.
  destruct (bi_edges self _ _ _ Hb _ _ _ Hi Hs Hne) as [[Hq|[-> Hin]]|?];
    [left; by left| |by right].
  apply elem_of_cons in Hin as [->|Hin]; [done|]. left. by right.
Qed.

Lemma items_symbol_binv X0 i0 sym rest b :
  binv self X0 (sym :: rest) b →
  b_states b !! i0 = Some X0 →
  binv self X0 rest (items_symbol self X0 i0 b sym) ∧
  b_states (items_symbol self X0 i0 b sym) !! i0 = Some X0.
Proof.
  intros Hb Hi0. unfold items_symbol.
  case_decide as Hempty; [split; [by eapply binv_skip|done]|].
  assert (state_ok self (goto self X0 sym)) as Hok.
  { apply goto_state_ok; [|done]. by eapply (bi_states self _ _ _ Hb). }
  destruct (b_mapping b !! goto self X0 sym) as [j|] eqn:Hm.
  - apply (bi_mapping self _ _ _ Hb) in Hm.
    pose proof (binv_add_edge _ _ _ _ _ _ Hb Hi0 Hempty Hm) as Hb'.
    case_decide; (split; [exact Hb'|done]).
  - pose proof (binv_add_state _ _ _ _ Hb Hok Hm) as Hb1.
    set (b1 := mkBuilder _ _ _ _ _ _) in Hb1.
    assert (b_states b1 !! i0 = Some X0) as Hi0'
      by (by apply lookup_app_l_Some).
    assert (b_states b1 !! S (b_count b) = Some (goto self X0 sym)) as Hj.
    { apply (bi_mapping self _ _ _ Hb1). simpl. apply lookup_insert_eq. }
    pose proof (binv_add_edge _ _ _ _ _ _ Hb1 Hi0' Hempty Hj) as Hb'.
    case_decide; (split; [exact Hb'|done]).
Qed.

Lemma items_fold_binv X0 i0 syms b :
  binv self X0 syms b →
  b_states b !! i0 = Some X0 →
  binv self X0 [] (foldl (items_symbol self X0 i0) b syms).
Proof.
  revert b. induction syms as [|sym syms IH]; intros b Hb Hi0; [done|].
  simpl. destruct (items_symbol_binv _ _ _ _ _ Hb Hi0). by apply IH.
Qed.

(** Outside the symbol loop the choice of [X0] does not matter. *)
Lemma binv_idle X0 X1 b : binv self X0 [] b → binv self X1 [] b.
Proof.
  intros Hb. split; try apply Hb.
  intros i X s Hi Hs Hne.
  destruct (bi_edges self _ _ _ Hb _ _ _ Hi Hs Hne) as [[Hq|[_ Hin]]|?];
    [left; by left| |by right].
  by apply not_elem_of_nil in Hin.
Qed.

Lemma items_dequeue_binv b r :
  binv self ∅ [] b → items_dequeue self b = Some r →
  ∃ b', r = Ok b' ∧ binv self ∅ [] b'.
Proof.
  intros Hb. unfold items_dequeue.
  destruct (b_queue b) as [|X queue] eqn:Hq; [done|]. intros [= <-].
  assert (X ∈ b_states b) as HX
    by (apply (bi_queue self _ _ _ Hb); rewrite Hq; apply list_elem_of_here).
  apply list_elem_of_lookup in HX as [i0 Hi0].
  pose proof Hi0 as Hm. apply (bi_mapping self _ _ _ Hb) in Hm. rewrite Hm.
  eexists. split; [done|].
  apply (binv_idle X), items_fold_binv; [|done].
  split; simpl; try apply Hb.
  - intros Y HY. apply (bi_queue self _ _ _ Hb). rewrite Hq.
    by apply list_elem_of_further.
  - intros i Y s Hi Hs Hne.
    destruct (bi_edges self _ _ _ Hb _ _ _ Hi Hs Hne) as [[Hin|[_ Hin]]|?];
      [| by apply not_elem_of_nil in Hin | by right].
    rewrite Hq in Hin. apply elem_of_cons in Hin as [->|Hin].
    + left. by right.
    + left. by left.
Qed.

Lemma items_loop_binv fuel b r :
  binv self ∅ [] b → items_loop self fuel b = Some r →
  ∃ b', r = Ok b' ∧ binv self ∅ [] b' ∧ b_queue b' = [].
Proof.
  revert b. induction fuel as [|fuel IH]; intros b Hb; simpl.
  - destruct (items_dequeue self b) as [r'|] eqn:Hd.
    + destruct (items_dequeue_binv _ _ Hb Hd) as (b' & -> & _). done.
    + intros [= <-]. exists b. split_and!; [done..|].
      unfold items_dequeue in Hd. by destruct (b_queue b).
  - destruct (items_dequeue self b) as [r'|] eqn:Hd.
    + destruct (items_dequeue_binv _ _ Hb Hd) as (b' & -> & Hb').
      by apply IH.
    + intros [= <-]. exists b. split_and!; [done..|].
      unfold items_dequeue in Hd. by destruct (b_queue b).
Qed.

(** The builder [items] starts from, on an object fresh from [__init__]. *)
Lemma initial_binv it :
  initial_item self = Ok it →
  binv self ∅ [] (mkBuilder [closure self {[it]}] 0 {[closure self {[it]} := 0]}
                       [closure self {[it]}] ∅ ∅).
Proof.
  intros Hit.
  assert (item_lhs it = start_symbol self ∧ item_dot it = 0 ∧
          item_in_grammar self it) as (Hl & Hd & Hp).
  { unfold initial_item in Hit.
    destruct (grammar_get _ _) as [[|p ps]|] eqn:Hg; try done.
    injection Hit as <-. split_and!; [done..|].
    split; [|simpl; lia]. exists (p :: ps). split.
    - by apply grammar_get_elem.
    - apply list_elem_of_here. }
  assert (state_ok self (closure self {[it]})) as Hok.
  { apply closure_state_ok.
    - set_solver.
    - intros ? ->%elem_of_singleton. done.
    - intros ? ->%elem_of_singleton. done. }
  split; simpl.
  - done.
  - intros X i. rewrite lookup_singleton_Some, list_lookup_singleton_Some.
    naive_solver.
  - intros X ->%list_elem_of_singleton. apply list_elem_of_here.
  - intros i X [_ <-]%list_lookup_singleton_Some. done.
  - eexists. split; [done|].
    intros x [->%elem_of_singleton|(it' & _ & Hex)]%closure_elem; [done|].
    by apply expand_production in Hex as [_ ?].
  - intros i t a. by rewrite cell_empty.
  - intros i t j. by rewrite cell_empty.
  - intros i X s [_ <-]%list_lookup_singleton_Some _ _.
    left. left. apply list_elem_of_here.
Qed.

End BuilderFacts.

(** ** The first loop of [items] comes to an end *)

Section Termination.
Variable self : LRParser.

Lemma elem_of_all_items it : it ∈ all_items self ↔ item_in_grammar self it.
Proof.
  unfold all_items, item_in_grammar, item_lhs, item_rhs, item_dot.
  destruct it as [[lhs rhs] d]. cbn [fst snd].
  rewrite list_elem_of_In, in_flat_map. split.
  - intros ([k prods] & Hk & Hin). apply in_flat_map in Hin as (p & Hp & Hin).
    apply list_elem_of_In, list_elem_of_fmap in Hin as (d' & [= -> -> ->] & Hd).
    apply elem_of_seq in Hd. split; [|lia].
    exists prods. by rewrite !list_elem_of_In.
  - intros [(prods & Hk & Hp) Hd]. exists (lhs, prods).
    split; [by apply list_elem_of_In|].
    apply in_flat_map. exists rhs. split; [by apply list_elem_of_In|].
    apply list_elem_of_In, list_elem_of_fmap. exists d. split; [done|].
    apply elem_of_seq. lia.
Qed.

Lemma filter_sublists {A} (Q : A → Prop) `{!∀ x, Decision (Q x)} (l : list A) :
  filter Q l ∈ sublists l.
Proof.
  induction l as [|x l IH]; simpl; [apply list_elem_of_here|].
  rewrite filter_cons. apply elem_of_app. case_decide.
  - left. apply list_elem_of_fmap. by exists (filter Q l).
  - by right.
Qed.

(** Distinct sets of items of the grammar are at most [state_bound]. *)
Lemma states_bound (sts : list (gset item)) :
  NoDup sts → (∀ X, X ∈ sts → state_ok self X) →
  length sts ≤ state_bound self.
Proof.
  intros Hnd Hok. unfold state_bound.
  rewrite <- (length_fmap (λ X : gset item, filter (λ it, it ∈ X) (all_items self))).
  apply submseteq_length, NoDup_submseteq.
  - apply NoDup_fmap_2_strong; [|done].
    intros X Y HX HY Heq. apply set_eq. intros it.
    assert (∀ Z, Z ∈ sts → it ∈ Z ↔
              it ∈ filter (λ it, it ∈ Z) (all_items self)) as Hfoot.
    { intros Z HZ. rewrite list_elem_of_filter. split; [|by intros [? _]].
      intros Hit. split; [done|]. apply elem_of_all_items.
      by apply (so_items self Z (Hok Z HZ)). }
    by rewrite (Hfoot X HX), (Hfoot Y HY), Heq.
  - intros l (X & -> & _)%list_elem_of_fmap. apply filter_sublists.
Qed.

Lemma binv_states_bound X0 rest b :
  binv self X0 rest b → length (b_states b) ≤ state_bound self.
Proof.
  intros Hb. apply states_bound.
  - apply NoDup_alt. intros i j X Hi Hj.
    apply (bi_mapping self _ _ _ Hb) in Hi, Hj. congruence.
  - intros X [i Hi]%list_elem_of_lookup. by eapply (bi_states self _ _ _ Hb).
Qed.

(** The queue and the list of states grow together. *)
Lemma items_symbol_growth X i b sym :
  length (b_queue (items_symbol self X i b sym)) + length (b_states b) =
  length (b_queue b) + length (b_states (items_symbol self X i b sym)).
Proof.
  unfold items_symbol. case_decide; [done|].
  destruct (b_mapping b !! goto self X sym); case_decide; simpl;
    rewrite ?length_app; simpl; lia.
Qed.

Lemma items_fold_growth X i syms b :
  length (b_queue (foldl (items_symbol self X i) b syms)) + length (b_states b) =
  length (b_queue b) + length (b_states (foldl (items_symbol self X i) b syms)).
Proof.
  revert b. induction syms as [|sym syms IH]; intros b; simpl; [done|].
  pose proof (IH (items_symbol self X i b sym)).
  pose proof (items_symbol_growth X i b sym). lia.
Qed.

Lemma items_dequeue_growth b b' :
  items_dequeue self b = Some (Ok b') →
  S (length (b_queue b') + length (b_states b)) =
  length (b_queue b) + length (b_states b').
Proof.
  unfold items_dequeue. destruct (b_queue b) as [|X queue]; [done|].
  destruct (b_mapping b !! X) as [i|]; [|done]. intros [= <-].
  pose proof (items_fold_growth X i (terminals self ++ non_terminals self)
                (mkBuilder (b_states b) (b_count b) (b_mapping b) queue
                           (b_action b) (b_goto b))) as Hg.
  simpl in *. lia.
Qed.

(** With [state_bound] passes for the states still to be found and one for
    each queued state, the loop ends with an empty queue or an
    exception. *)
Lemma items_loop_returns fuel b :
  binv self ∅ [] b →
  length (b_queue b) + state_bound self ≤ fuel + length (b_states b) →
  items_loop self fuel b ≠ None.
Proof.
  revert b. induction fuel as [|fuel IH]; intros b Hb Hfuel; simpl.
  - destruct (items_dequeue self b) as [r|] eqn:Hd; [|done].
    destruct (items_dequeue_binv self _ _ Hb Hd) as (b' & -> & Hb').
    exfalso. apply items_dequeue_growth in Hd.
    pose proof (binv_states_bound _ _ _ Hb').
    pose proof (binv_states_bound _ _ _ Hb). lia.
  - destruct (items_dequeue self b) as [r|] eqn:Hd; [|done].
    destruct (items_dequeue_binv self _ _ Hb Hd) as (b' & -> & Hb').
    apply IH; [done|]. apply items_dequeue_growth in Hd. lia.
Qed.

End Termination.

(** [items] comes to an end: the first loop needs no more passes than
    there are sets of items of the grammar. *)
Lemma items_returns g ts nts start order fuel depth :
  state_bound (init g ts nts start) ≤ fuel →
  items (init g ts nts start) order fuel depth ≠ None.
Proof.
  intros Hfuel. unfold items.
  destruct (initial_item (init g ts nts start)) as [it|] eqn:Hit; [|done].
  pose proof (initial_binv _ it Hit) as Hb0.
  change (states (init g ts nts start) ++ [closure (init g ts nts start) {[it]}])
    with [closure (init g ts nts start) {[it]}].
  change (state_count (init g ts nts start)) with 0.
  change (action_table (init g ts nts start)) with (∅ : table action).
  change (goto_table (init g ts nts start)) with (∅ : table nat).
  pose proof (items_loop_returns _ fuel _ Hb0) as Hloop.
  destruct (items_loop _ fuel _) as [[b|e]|]; [done|done|].
  exfalso. apply Hloop; [|done]. simpl. lia.
Qed.

(** ** The second loop of [items]: reduce and accept cells *)

Section ReduceFacts.
Variable self : LRParser.
Variable depth : nat.

Lemma cell_foldl_dd_set (tbl : table action) i ts v k s :
  cell (foldl (λ tbl t, dd_set tbl i t v) tbl ts) k s =
  if decide (i = k ∧ s ∈ ts) then Some v else cell tbl k s.
Proof.
  revert tbl. induction ts as [|t ts IH]; intros tbl; simpl.
  - rewrite decide_False; [done|]. intros [_ []%not_elem_of_nil].
  - rewrite IH, cell_dd_set. repeat case_decide; try done.
    + destruct_and?. exfalso. set_solver.
    + destruct_and?. exfalso. set_solver.
    + destruct_and?. exfalso. set_solver.
Qed.

Lemma items_complete_cell i tbl it tbl' k s :
  items_complete self depth i tbl it = Ok tbl' →
  (i = k ∧ item_targets self depth it s →
   cell tbl' k s = Some (item_action self it)) ∧
  (¬ (i = k ∧ item_targets self depth it s) → cell tbl' k s = cell tbl k s).
Proof.
  intros Hc. destruct it as [[lhs rhs] d].
  unfold items_complete, item_targets, item_action, item_lhs, item_rhs,
    item_dot in *.
  simpl in *. destruct (decide (d = length rhs)) as [Hd|Hd].
  - destruct (decide (lhs = start_symbol self)) as [Hl|Hl].
    + injection Hc as <-. rewrite cell_dd_set.
      case_decide; naive_solver.
    + destruct (get_production_index self lhs rhs); simpl in Hc; [|done].
      destruct (follow self depth lhs) as [fs|]; simpl in Hc; [|done].
      injection Hc as <-. rewrite cell_foldl_dd_set.
      case_decide; set_solver.
  - injection Hc as <-. naive_solver.
Qed.

Lemma items_complete_cell_hit i tbl it tbl' s :
  items_complete self depth i tbl it = Ok tbl' →
  item_targets self depth it s → cell tbl' i s = Some (item_action self it).
Proof. intros Hc Ht. by apply (items_complete_cell _ _ _ _ i s Hc). Qed.

Lemma items_complete_cell_miss i tbl it tbl' k s :
  items_complete self depth i tbl it = Ok tbl' →
  ¬ (i = k ∧ item_targets self depth it s) → cell tbl' k s = cell tbl k s.
Proof. intros Hc Ht. by apply (items_complete_cell _ _ _ _ k s Hc). Qed.

(** The pass over one state: the last item that targets a cell decides
    it. *)
Lemma items_state_cell_last i before it after tbl tbl' s :
  rfold (items_complete self depth i) tbl (before ++ it :: after) = Ok tbl' →
  item_targets self depth it s →
  (∀ it', it' ∈ after → ¬ item_targets self depth it' s) →
  cell tbl' i s = Some (item_action self it).
Proof.
  revert tbl. induction before as [|x before IH]; intros tbl; simpl.
  - destruct (items_complete self depth i tbl it) as [tbl1|] eqn:H1; [|done].
    simpl. intros Hfold Hit Hafter.
    assert (cell tbl1 i s = Some (item_action self it)) as Hc.
    { by eapply items_complete_cell_hit. }
    clear H1. revert tbl1 Hfold Hc.
    induction after as [|y after IHa]; intros tbl1; simpl.
    + by intros [= <-].
    + destruct (items_complete self depth i tbl1 y) as [tbl2|] eqn:H2; [|done].
      simpl. intros Hfold Hc. eapply IHa; [| exact Hfold |].
      * intros it' Hin. apply Hafter. by apply list_elem_of_further.
      * rewrite (items_complete_cell_miss _ _ _ _ _ _ H2); [done|].
        intros [_ Hy]. apply (Hafter y); [apply list_elem_of_here|done].
  - destruct (items_complete self depth i tbl x) as [tbl1|]; [|done].
    simpl. apply IH.
Qed.

Lemma items_state_cell_other i l tbl tbl' k s :
  rfold (items_complete self depth i) tbl l = Ok tbl' →
  i ≠ k ∨ (∀ it, it ∈ l → ¬ item_targets self depth it s) →
  cell tbl' k s = cell tbl k s.
Proof.
  revert tbl. induction l as [|x l IH]; intros tbl; simpl.
  - by intros [= <-].
  - destruct (items_complete self depth i tbl x) as [tbl1|] eqn:H1; [|done].
    simpl. intros Hfold Hno. rewrite (IH _ Hfold).
    + apply (items_complete_cell_miss _ _ _ _ _ _ H1).
      intros [-> Hx]. destruct Hno as [?|Hno]; [done|].
      apply (Hno x); [apply list_elem_of_here|done].
    + destruct Hno as [?|Hno]; [by left|right].
      intros it Hin. apply Hno. by apply list_elem_of_further.
Qed.

Lemma items_state_cell_inv i l tbl tbl' k s a :
  rfold (items_complete self depth i) tbl l = Ok tbl' →
  cell tbl' k s = Some a →
  cell tbl k s = Some a ∨
  (i = k ∧
   ∃ it, it ∈ l ∧ item_targets self depth it s ∧ a = item_action self it).
Proof.
  revert tbl. induction l as [|x l IH]; intros tbl; simpl.
  - intros [= <-]. by left.
  - destruct (items_complete self depth i tbl x) as [tbl1|] eqn:H1; [|done].
    simpl. intros Hfold Ha.
    destruct (IH _ Hfold Ha) as [Hc|(-> & it & Hin & Ht & ->)].
    + destruct (decide (i = k ∧ item_targets self depth x s)) as [[-> Hx]|Hd].
      * rewrite (items_complete_cell_hit _ _ _ _ _ H1 Hx) in Hc.
        injection Hc as <-. right. split; [done|].
        exists x. split; [apply list_elem_of_here|done].
      * rewrite (items_complete_cell_miss _ _ _ _ _ _ H1 Hd) in Hc. by left.
    + right. split; [done|]. exists it.
      split; [by apply list_elem_of_further|done].
Qed.

Variable order : gset item → list item.

Lemma reduce_from_cons n X sts tbl :
  reduce_from self depth order n (X :: sts) tbl =
  tbl1 ← rfold (items_complete self depth n) tbl (order X);
  reduce_from self depth order (S n) sts tbl1.
Proof.
  unfold reduce_from. simpl. rewrite Nat.add_0_r.
  destruct (rfold _ tbl (order X)) as [tbl1|]; simpl; [|done].
  f_equal. apply imap_ext. intros j Y _. simpl. f_equal. lia.
Qed.

Lemma items_reduce_from sts tbl :
  items_reduce self order depth sts tbl = reduce_from self depth order 0 sts tbl.
Proof. done. Qed.

Lemma reduce_from_cell_low n sts tbl tbl' k s :
  reduce_from self depth order n sts tbl = Ok tbl' → k < n →
  cell tbl' k s = cell tbl k s.
Proof.
  revert n tbl. induction sts as [|X sts IH]; intros n tbl.
  - by intros [= <-].
  - rewrite reduce_from_cons.
    destruct (rfold _ tbl (order X)) as [tbl1|] eqn:H1; simpl; [|done].
    intros Hr Hk. rewrite (IH _ _ Hr) by lia.
    eapply items_state_cell_other; [done|]. left. lia.
Qed.

(** The cells of row [n + i] after the pass are those the pass over
    state [i] alone leaves. *)
Lemma reduce_from_row n sts tbl tbl' i X :
  reduce_from self depth order n sts tbl = Ok tbl' → sts !! i = Some X →
  ∃ tbl0 tbl1,
    rfold (items_complete self depth (n + i)) tbl0 (order X) = Ok tbl1 ∧
    (∀ s, cell tbl0 (n + i) s = cell tbl (n + i) s) ∧
    (∀ s, cell tbl' (n + i) s = cell tbl1 (n + i) s).
Proof.
  revert n tbl i. induction sts as [|Y sts IH]; intros n tbl i; [done|].
  rewrite reduce_from_cons.
  destruct (rfold _ tbl (order Y)) as [tbl1|] eqn:H1; simpl; [|done].
  intros Hr. destruct i as [|i]; simpl.
  - intros [= ->]. exists tbl, tbl1. rewrite Nat.add_0_r.
    split_and!; [done..|]. intros s.
    eapply reduce_from_cell_low; [done|lia].
  - intros Hi. destruct (IH _ _ _ Hr Hi) as (tbl0 & tbl2 & Hf & H0 & H2).
    replace (n + S i) with (S n + i) by lia.
    exists tbl0, tbl2. split_and!; [done| |done].
    intros s. rewrite H0.
    eapply items_state_cell_other; [done|]. left. lia.
Qed.

Lemma reduce_from_cell_high n sts tbl tbl' k s :
  reduce_from self depth order n sts tbl = Ok tbl' → n + length sts ≤ k →
  cell tbl' k s = cell tbl k s.
Proof.
  revert n tbl. induction sts as [|X sts IH]; intros n tbl.
  - by intros [= <-].
  - rewrite reduce_from_cons.
    destruct (rfold _ tbl (order X)) as [tbl1|] eqn:H1; simpl; [|done].
    intros Hr Hk. rewrite (IH _ _ Hr) by lia.
    eapply items_state_cell_other; [done|]. left. lia.
Qed.

(** Last write wins, for the whole second loop. *)
Lemma items_reduce_last sts tbl tbl' i X before it after s :
  items_reduce self order depth sts tbl = Ok tbl' →
  sts !! i = Some X →
  order X = before ++ it :: after →
  item_targets self depth it s →
  (∀ it', it' ∈ after → ¬ item_targets self depth it' s) →
  cell tbl' i s = Some (item_action self it).
Proof.
  rewrite items_reduce_from. intros Hr Hi Ho Ht Hafter.
  destruct (reduce_from_row _ _ _ _ _ _ Hr Hi) as (tbl0 & tbl1 & Hf & _ & H1).
  simpl in *. rewrite H1. rewrite Ho in Hf.
  by eapply items_state_cell_last.
Qed.

Lemma items_reduce_untouched sts tbl tbl' i s :
  items_reduce self order depth sts tbl = Ok tbl' →
  (∀ X it, sts !! i = Some X → it ∈ order X → ¬ item_targets self depth it s) →
  cell tbl' i s = cell tbl i s.
Proof.
  rewrite items_reduce_from. intros Hr Hno.
  destruct (sts !! i) as [X|] eqn:Hi.
  - destruct (reduce_from_row _ _ _ _ _ _ Hr Hi) as (tbl0 & tbl1 & Hf & H0 & H1).
    simpl in *. rewrite H1, <- H0.
    eapply items_state_cell_other; [done|]. right. eauto.
  - apply lookup_ge_None in Hi.
    eapply reduce_from_cell_high; [done|]. simpl. lia.
Qed.

Lemma items_reduce_inv sts tbl tbl' i s a :
  items_reduce self order depth sts tbl = Ok tbl' →
  cell tbl' i s = Some a →
  cell tbl i s = Some a ∨
  ∃ X it, sts !! i = Some X ∧ it ∈ order X ∧ item_targets self depth it s ∧
          a = item_action self it.
Proof.
  rewrite items_reduce_from. intros Hr Ha.
  destruct (sts !! i) as [X|] eqn:Hi.
  - destruct (reduce_from_row _ _ _ _ _ _ Hr Hi) as (tbl0 & tbl1 & Hf & H0 & H1).
    simpl in *. rewrite H1 in Ha.
    destruct (items_state_cell_inv _ _ _ _ _ _ _ Hf Ha) as [Hc|(_ & it & ? & ? & ?)].
    + left. by rewrite <- H0.
    + right. exists X, it. done.
  - left. apply lookup_ge_None in Hi.
    erewrite <- reduce_from_cell_high; [done..|]. simpl. lia.
Qed.

End ReduceFacts.

(** ** The object [items] returns *)

(** [closure] and [goto] read [grammar] and [non_terminals] only. *)
Lemma closure_ext (s1 s2 : LRParser) X :
  grammar s1 = grammar s2 → non_terminals s1 = non_terminals s2 →
  closure s1 X = closure s2 X.
Proof.
  intros Hg Hn.
  assert (∀ it, expand s1 it = expand s2 it) as Hex
    by (intros; unfold expand; by rewrite Hg, Hn).
  assert (∀ C, new_items s1 C = new_items s2 C) as Hnew.
  { intros C. apply set_eq. intros x. rewrite !elem_of_new_items.
    by setoid_rewrite Hex. }
  unfold closure, production_count. rewrite Hg.
  generalize (S (sum_list (length <$> (grammar s2).*2))). intros fuel.
  revert X. induction fuel as [|fuel IH]; intros X; simpl; [done|].
  rewrite Hnew. case_decide; [done|]. apply IH.
Qed.

Lemma goto_ext (s1 s2 : LRParser) X sym :
  grammar s1 = grammar s2 → non_terminals s1 = non_terminals s2 →
  goto s1 X sym = goto s2 X sym.
Proof. intros. unfold goto. by apply closure_ext. Qed.

Lemma iteration_order_elem order X it :
  iteration_order order → it ∈ order X ↔ it ∈ X.
Proof. intros Ho. rewrite (Ho X). apply elem_of_elements. Qed.

Lemma iteration_order_elements : iteration_order elements.
Proof. intros X. done. Qed.

Section Built.
Variables (g : list (symbol * list production)) (ts nts : list symbol).
Variable start : symbol.
Let self := init g ts nts start.
Variable order : gset item → list item.
Variables (fuel depth : nat) (P : LRParser).
Hypothesis Hitems : items self order fuel depth = Some (Ok P).

Lemma items_builder :
  ∃ b, binv self ∅ [] b ∧ b_queue b = [] ∧
       items_reduce self order depth (b_states b) (b_action b)
         = Ok (action_table P) ∧
       P = mkLRParser g (ts ++ ["$"]) nts start (action_table P)
                      (b_goto b) (b_states b) (b_count b).
Proof.
  unfold items in Hitems.
  destruct (initial_item self) as [it|] eqn:Hit; [|done].
  pose proof (initial_binv self it Hit) as Hb0.
  change (states self ++ [closure self {[it]}]) with [closure self {[it]}]
    in Hitems.
  change (state_count self) with 0 in Hitems.
  change (action_table self) with (∅ : table action) in Hitems.
  change (goto_table self) with (∅ : table nat) in Hitems.
  destruct (items_loop self fuel _) as [r|] eqn:Hloop; [|done].
  destruct (items_loop_binv self _ _ _ Hb0 Hloop) as (b & -> & Hb & Hq).
  exists b. destruct (items_reduce self order depth _ _) as [tbl|] eqn:Hr;
    simpl in Hitems; [|done].
  injection Hitems as <-. done.
Qed.

Lemma built_grammar : grammar P = g.
Proof. destruct items_builder as (b & _ & _ & _ & ->). done. Qed.

Lemma built_terminals : terminals P = ts ++ ["$"].
Proof. destruct items_builder as (b & _ & _ & _ & ->). done. Qed.

Lemma built_non_terminals : non_terminals P = nts.
Proof. destruct items_builder as (b & _ & _ & _ & ->). done. Qed.

Lemma built_start_symbol : start_symbol P = start.
Proof. destruct items_builder as (b & _ & _ & _ & ->). done. Qed.

Lemma built_goto X sym : goto P X sym = goto self X sym.
Proof.
  apply goto_ext; [by rewrite built_grammar|by rewrite built_non_terminals].
Qed.

Lemma built_states i X : states P !! i = Some X → state_ok self X.
Proof.
  destruct items_builder as (b & Hb & _ & _ & ->). simpl.
  apply (bi_states _ _ _ _ Hb).
Qed.

Lemma built_initial :
  ∃ X, states P !! 0 = Some X ∧ ∀ it, it ∈ X → item_dot it = 0.
Proof.
  destruct items_builder as (b & Hb & _ & _ & ->). simpl.
  apply (bi_initial _ _ _ _ Hb).
Qed.

(** Every action cell is a shift along an edge of the automaton, or what
    the second loop wrote for an item of the state. *)
Lemma built_action i t a :
  cell (action_table P) i t = Some a →
  (∃ j X, a = shift j ∧ t ∈ terminals self ∧ states P !! i = Some X ∧
          goto self X t ≠ ∅ ∧ states P !! j = Some (goto self X t)) ∨
  (∃ X it, states P !! i = Some X ∧ it ∈ order X ∧
           item_targets self depth it t ∧ a = item_action self it).
Proof.
  destruct items_builder as (b & Hb & _ & Hr & HP). intros Ha.
  rewrite HP. simpl.
  destruct (items_reduce_inv _ _ _ _ _ _ _ _ _ Hr Ha) as [Hc|?]; [left|by right].
  apply (bi_action _ _ _ _ Hb _ _ _ Hc).
Qed.

Lemma built_shift i t j :
  cell (action_table P) i t = Some (shift j) →
  ∃ X, t ∈ terminals self ∧ states P !! i = Some X ∧
       goto self X t ≠ ∅ ∧ states P !! j = Some (goto self X t).
Proof.
  intros [(j' & X & [= <-] & ?)|(X & it & _ & _ & _ & Ha)]%built_action.
  - by exists X.
  - unfold item_action in Ha. by case_decide.
Qed.

Lemma built_reduce i t lhs rhs :
  cell (action_table P) i t = Some (reduce lhs rhs) →
  ∃ X, states P !! i = Some X ∧ (lhs, rhs, length rhs) ∈ order X ∧
       lhs ≠ start_symbol self.
Proof.
  intros [(j' & X & [=] & ?)|(X & it & HX & Hit & Ht & Ha)]%built_action.
  exists X. destruct it as [[l r] d]. destruct Ht as [Hd _].
  unfold item_action, item_lhs, item_rhs, item_dot in *. simpl in *.
  case_decide; [done|]. by simplify_eq.
Qed.

Lemma built_goto_cell i t j :
  cell (goto_table P) i t = Some j →
  ∃ X, t ∉ terminals self ∧ states P !! i = Some X ∧
       goto self X t ≠ ∅ ∧ states P !! j = Some (goto self X t).
Proof.
  destruct items_builder as (b & Hb & _ & _ & ->). simpl.
  apply (bi_goto _ _ _ _ Hb).
Qed.

(** Every non-empty [goto] on a non-terminal has its cell in the goto
    table. *)
Lemma built_goto_edge i X sym :
  states P !! i = Some X → sym ∈ non_terminals self →
  sym ∉ terminals self → goto self X sym ≠ ∅ →
  ∃ j, states P !! j = Some (goto self X sym) ∧
       cell (goto_table P) i sym = Some j.
Proof.
  destruct items_builder as (b & Hb & Hq & _ & ->). simpl.
  intros Hi Hs Ht Hne.
  assert (sym ∈ terminals self ++ non_terminals self) as Hin
    by (apply elem_of_app; by right).
  destruct (bi_edges _ _ _ _ Hb _ _ _ Hi Hin Hne)
    as [[Hin'|[_ Hin']]|(j & Hj & Hc)]; clear Hin; try rename Hin' into Hin.
  - rewrite Hq in Hin. by apply not_elem_of_nil in Hin.
  - by apply not_elem_of_nil in Hin.
  - rewrite decide_False in Hc by done. eauto.
Qed.

End Built.

(** ** The parse loop: what a pass does and what it leaves alone *)

Lemma rows_extended_refl {V} (t : table V) : rows_extended t t.
Proof. intros k. by left. Qed.

Lemma rows_extended_trans {V} (t1 t2 t3 : table V) :
  rows_extended t1 t2 → rows_extended t2 t3 → rows_extended t1 t3.
Proof.
  intros H12 H23 k. destruct (H12 k) as [E1|[E1 E1']], (H23 k) as [E2|[E2 E2']].
  - left. congruence.
  - right. split; congruence.
  - right. split; congruence.
  - congruence.
Qed.

Lemma rows_extended_dd_get {V} (t : table V) k : rows_extended t (dd_get t k).2.
Proof.
  intros k'. unfold dd_get. destruct (t !! k) eqn:Hk; simpl; [by left|].
  destruct (decide (k = k')) as [<-|Hne].
  - right. by rewrite lookup_insert_eq.
  - left. by rewrite lookup_insert_ne.
Qed.

Lemma rows_extended_cell {V} (t t' : table V) k s :
  rows_extended t t' → cell t' k s = cell t k s.
Proof.
  intros H. unfold cell. destruct (H k) as [->|[-> ->]]; [done|]. simpl.
  apply lookup_empty.
Qed.

Lemma same_object_refl P : same_object P P.
Proof. split; try done; apply rows_extended_refl. Qed.

Lemma same_object_trans P1 P2 P3 :
  same_object P1 P2 → same_object P2 P3 → same_object P1 P3.
Proof.
  intros [] []. split; try congruence; by eapply rows_extended_trans.
Qed.

Lemma same_object_action_cell P P' k s :
  same_object P P' → cell (action_table P') k s = cell (action_table P) k s.
Proof. intros []. by apply rows_extended_cell. Qed.

Lemma same_object_goto_cell P P' k s :
  same_object P P' → cell (goto_table P') k s = cell (goto_table P) k s.
Proof. intros []. by apply rows_extended_cell. Qed.

Lemma pop_n_drop n stack :
  pop_n n stack =
  if decide (n ≤ length stack) then Ok (drop n stack) else Raise IndexError.
Proof.
  revert stack. induction n as [|n IH]; intros stack.
  - case_decide; [done|lia].
  - destruct stack as [|e stack].
    + case_decide; [simpl in *; lia|done].
    + simpl pop_n. rewrite IH. simpl. repeat case_decide; try done; lia.
Qed.

Lemma parse_step_spec input_string self state rest index current_symbol :
  input_string !! index = Some current_symbol →
  same_object self (parse_step input_string self (St state :: rest) index).1 ∧
  (parse_step input_string self (St state :: rest) index).2 =
    pass_outcome self (St state :: rest) index state current_symbol.
Proof.
  intros Hin. unfold parse_step, pass_outcome. rewrite Hin.
  pose proof (dd_get_row (action_table self) state current_symbol) as Hrow.
  pose proof (rows_extended_dd_get (action_table self) state) as Hext.
  destruct (dd_get (action_table self) state) as [row tbl]. simpl in Hrow, Hext.
  rewrite Hrow.
  assert (same_object self (with_action_table self tbl)) as Hs1
    by (split; try done; apply rows_extended_refl).
  destruct (cell (action_table self) state current_symbol) as [[dest|lhs rhs|]|];
    cbn -[Nat.mul length drop]; try done.
  rewrite pop_n_drop. case_decide as Hlen; [|done].
  destruct (drop (2 * length rhs) (St state :: rest)) as [|[exposed|x] below];
    cbn -[Nat.mul length drop]; try done.
  pose proof (dd_get_row (goto_table self) exposed lhs) as Hgrow.
  pose proof (rows_extended_dd_get (goto_table self) exposed) as Hgext.
  destruct (dd_get (goto_table self) exposed) as [grow gtbl].
  simpl in Hgrow, Hgext. rewrite Hgrow.
  assert (same_object self (with_goto_table (with_action_table self tbl) gtbl))
    by (split; try done; apply rows_extended_refl).
  by destruct (cell (goto_table self) exposed lhs).
Qed.

(** Whatever the stack, a pass leaves the object as it was, up to
    [same_object]. *)
Lemma parse_step_frame input_string self stack index :
  same_object self (parse_step input_string self stack index).1.
Proof.
  destruct stack as [|[state|x] rest].
  - apply same_object_refl.
  - destruct (input_string !! index) as [sym|] eqn:Hin.
    + by destruct (parse_step_spec input_string self state rest index sym Hin).
    + unfold parse_step. rewrite Hin. apply same_object_refl.
  - unfold parse_step. destruct (input_string !! index); apply same_object_refl.
Qed.

Lemma parse_loop_frame fuel input_string self stack index :
  same_object self (parse_loop fuel input_string self stack index).1.
Proof.
  revert self stack index. induction fuel as [|fuel IH]; intros self stack index.
  - apply same_object_refl.
  - simpl. pose proof (parse_step_frame input_string self stack index) as Hs.
    destruct (parse_step input_string self stack index) as [self' [stack' index'| |]];
      try done.
    eapply same_object_trans; [exact Hs|apply IH].
Qed.

(** Unfolding the loop at its last pass. *)
Lemma parse_loop_S fuel input_string self stack index self' stack' index' :
  parse_loop fuel input_string self stack index = (self', Running stack' index') →
  parse_loop (S fuel) input_string self stack index =
  parse_step input_string self' stack' index'.
Proof.
  revert self stack index. induction fuel as [|fuel IH]; intros self stack index.
  - simpl. intros [= -> -> ->].
    by destruct (parse_step _ _ _ _) as [? [| |]].
  - intros Hl. change (parse_loop (S (S fuel)) input_string self stack index)
      with (match parse_step input_string self stack index with
            | (s1, Running st1 i1) => parse_loop (S fuel) input_string s1 st1 i1
            | r => r
            end).
    simpl in Hl.
    destruct (parse_step input_string self stack index) as [s1 [st1 i1| |]];
      try done.
    by apply IH.
Qed.

(** An outcome other than [Running] is final: more fuel does not change
    it. *)
Lemma parse_loop_final fuel extra input_string self stack index r :
  parse_loop fuel input_string self stack index = r →
  (∀ stack' index', r.2 ≠ Running stack' index') →
  parse_loop (fuel + extra) input_string self stack index = r.
Proof.
  revert self stack index. induction fuel as [|fuel IH]; intros self stack index.
  - simpl. intros <- Hr. by destruct (Hr stack index).
  - simpl.
    destruct (parse_step input_string self stack index) as [s1 [st1 i1| |]];
      try done.
    apply IH.
Qed.

Lemma state_top_drop n stack :
  state_top stack → 2 * n < length stack → state_top (drop (2 * n) stack).
Proof.
  intros Hst. revert n. induction Hst as [state|state x stack Hst IH]; intros n.
  - intros Hn. simpl in Hn. assert (n = 0) as -> by lia. constructor.
  - destruct n as [|n]; [intros _; by constructor|].
    replace (2 * S n) with (S (S (2 * n))) by lia. simpl.
    intros Hn. apply IH. lia.
Qed.

Lemma state_top_odd stack : state_top stack → ∃ n, length stack = S (2 * n).
Proof.
  induction 1 as [|state x stack _ [n Hn]]; [by exists 0|].
  exists (S n). simpl. lia.
Qed.

Lemma parse_step_state_top input_string self stack index self' stack' index' :
  state_top stack →
  parse_step input_string self stack index = (self', Running stack' index') →
  state_top stack'.
Proof.
  intros Hst Hstep. destruct Hst as [state|state x stack Hst].
  - destruct (input_string !! index) as [sym|] eqn:Hin;
      [|unfold parse_step in Hstep; by rewrite Hin in Hstep].
    destruct (parse_step_spec input_string self state [] index sym Hin) as [_ Ho].
    rewrite Hstep in Ho. simpl in Ho. unfold pass_outcome in Ho.
    destruct (cell (action_table self) state sym) as [[dest|lhs rhs|]|];
      try done.
    + injection Ho as -> ->. repeat constructor.
    + case_decide as Hlen; [|done]. simpl in Hlen.
      assert (length rhs = 0) as Hz by lia. rewrite Hz in Ho. simpl in Ho.
      destruct (cell (goto_table self) state lhs); [|done].
      injection Ho as -> ->. repeat constructor.
  - destruct (input_string !! index) as [sym|] eqn:Hin;
      [|unfold parse_step in Hstep; by rewrite Hin in Hstep].
    destruct (parse_step_spec input_string self state (Sym x :: stack) index sym Hin)
      as [_ Ho].
    rewrite Hstep in Ho. simpl in Ho. unfold pass_outcome in Ho.
    assert (state_top (St state :: Sym x :: stack)) as Hall by by constructor.
    destruct (cell (action_table self) state sym) as [[dest|lhs rhs|]|];
      try done.
    + injection Ho as -> ->. by constructor.
    + case_decide as Hlen; [|done].
      destruct (state_top_odd _ Hall) as [n Hn].
      assert (state_top (drop (2 * length rhs) (St state :: Sym x :: stack))) as Hd
        by (apply state_top_drop; [done|lia]).
      destruct (drop (2 * length rhs) (St state :: Sym x :: stack))
        as [|[exposed|y] below]; try done.
      destruct (cell (goto_table self) exposed lhs); [|done].
      injection Ho as -> ->. by constructor.
Qed.

Lemma parse_loop_state_top fuel input_string self stack index self' stack' index' :
  state_top stack →
  parse_loop fuel input_string self stack index = (self', Running stack' index') →
  state_top stack'.
Proof.
  revert self stack index.
  induction fuel as [|fuel IH]; intros self stack index Hst; simpl.
  - by intros [= -> -> ->].
  - destruct (parse_step input_string self stack index) as [s1 [st1 i1| |]] eqn:Hs;
      try done.
    apply IH. by eapply parse_step_state_top.
Qed.

Lemma parse_stack_alternates fuel self input self' stack index :
  parse fuel self input = (self', Running stack index) → state_top stack.
Proof. apply parse_loop_state_top. constructor. Qed.


(** ** No shift under the end marker *)

Section Marker.
Variables (g : list (symbol * list production)) (ts nts : list symbol).
Variable start : symbol.
Let self := init g ts nts start.
Variable order : gset item → list item.
Variables (fuel depth : nat) (P : LRParser).
Hypothesis Hitems : items self order fuel depth = Some (Ok P).
Hypothesis Hmarker : ∀ k prods p, (k, prods) ∈ g → p ∈ prods → "$" ∉ p.

Lemma goto_nonempty_next X sym :
  goto self X sym ≠ ∅ → ∃ it, it ∈ X ∧ next_symbol it = Some sym.
Proof.
  intros Hne.
  destruct (set_choose_or_empty
              (filter (λ it, next_symbol it = Some sym) X)) as [[it Hit]|He].
  - apply elem_of_filter in Hit as [? ?]. eauto.
  - exfalso. apply Hne. unfold goto. apply leibniz_equiv in He. rewrite He.
    rewrite set_map_empty. apply closure_empty.
Qed.

Lemma built_shift_symbol i t j :
  cell (action_table P) i t = Some (shift j) → t ≠ "$".
Proof.
  intros Hc.
  destruct (built_shift _ _ _ _ _ _ _ _ Hitems _ _ _ Hc) as (X & _ & HX & Hne & _).
  apply goto_nonempty_next in Hne as (it & Hit & Hnext).
  pose proof (built_states _ _ _ _ _ _ _ _ Hitems _ _ HX) as Hok.
  destruct (so_items _ _ Hok _ Hit) as [(prods & Hk & Hp) _].
  intros ->. apply (Hmarker _ _ _ Hk Hp).
  unfold next_symbol in Hnext. by eapply list_elem_of_lookup_2.
Qed.

Lemma parse_step_cursor input_string P1 stack index P2 stack' index' :
  same_object P P1 → cursor_ok input_string index →
  parse_step input_string P1 stack index = (P2, Running stack' index') →
  cursor_ok input_string index'.
Proof.
  intros Hsame Hcur Hstep. destruct stack as [|[state|x] rest].
  - done.
  - destruct (input_string !! index) as [sym|] eqn:Hin;
      [|unfold parse_step in Hstep; by rewrite Hin in Hstep].
    destruct (parse_step_spec input_string P1 state rest index sym Hin) as [_ Ho].
    rewrite Hstep in Ho. simpl in Ho. unfold pass_outcome in Ho.
    rewrite (same_object_action_cell _ _ _ _ Hsame) in Ho.
    destruct (cell (action_table P) state sym) as [[dest|lhs rhs|]|] eqn:Hc;
      try done.
    + injection Ho as -> ->. intros k Hk.
      destruct (decide (k = index)) as [Hk'|]; [subst k|apply Hcur; lia].
      intros Heq. assert (sym = "$") as -> by congruence.
      by eapply built_shift_symbol.
    + case_decide; [|done].
      destruct (drop _ _) as [|[exposed|y] below]; try done.
      destruct (cell (goto_table P1) exposed lhs); [|done].
      by injection Ho as -> ->.
  - unfold parse_step in Hstep. by destruct (input_string !! index).
Qed.

Lemma parse_loop_cursor n input_string P1 stack index P2 stack' index' :
  same_object P P1 → cursor_ok input_string index →
  parse_loop n input_string P1 stack index = (P2, Running stack' index') →
  cursor_ok input_string index'.
Proof.
  revert P1 stack index. induction n as [|n IH]; intros P1 stack index Hs Hc.
  - simpl. by intros [= -> -> ->].
  - simpl.
    destruct (parse_step input_string P1 stack index) as [P1' [st1 i1| |]] eqn:Hst;
      try done.
    apply IH.
    + eapply same_object_trans; [done|].
      pose proof (parse_step_frame input_string P1 stack index) as Hf.
      by rewrite Hst in Hf.
    + by eapply parse_step_cursor.
Qed.

Lemma cursor_ok_bound input index :
  cursor_ok (input ++ ["$"]) index → index < length (input ++ ["$"]).
Proof.
  intros Hc. rewrite length_app. simpl.
  destruct (decide (index ≤ length input)) as [|Hgt]; [lia|]. exfalso.
  apply (Hc (length input)); [lia|].
  by apply list_lookup_middle.
Qed.

End Marker.

(** ** The stack follows a path of the automaton *)

Section Safety.
Variables (g : list (symbol * list production)) (ts nts : list symbol).
Variable start : symbol.
Let self := init g ts nts start.
Variable order : gset item → list item.
Variables (fuel depth : nat) (P : LRParser).
Hypothesis Hitems : items self order fuel depth = Some (Ok P).
Hypothesis Horder : iteration_order order.
Hypothesis Hdisjoint : ∀ x, x ∈ ts ++ ["$"] → x ∉ nts.
Hypothesis Hmarker : ∀ k prods p, (k, prods) ∈ g → p ∈ prods → "$" ∉ p.

(** An item with [d] symbols before its dot was started [d] states
    down the stack. *)
Lemma stack_trace d j rest X lhs rhs :
  stack_ok g ts nts start P (St j :: rest) → states P !! j = Some X →
  (lhs, rhs, d) ∈ X →
  ∃ i below X0,
    drop (2 * d) (St j :: rest) = St i :: below ∧
    stack_ok g ts nts start P (St i :: below) ∧ states P !! i = Some X0 ∧
    (lhs, rhs, 0) ∈ X0.
Proof.
  revert j rest X. induction d as [|d IH]; intros j rest X Hst HX Hit.
  - exists j, rest, X. done.
  - inversion Hst as [|i Xi sym j' rest' Hst' Hi Hj]; subst.
    + destruct (built_initial _ _ _ _ _ _ _ _ Hitems) as (X0 & H0 & Hdots).
      assert (X0 = X) as -> by congruence.
      by apply Hdots in Hit.
    + assert (X = goto self Xi sym) as -> by (unfold self; congruence).
      apply goto_kernel_item in Hit as [Hit _].
      destruct (IH _ _ _ Hst' Hi Hit) as (i0 & below & X0 & Hd & ? & ? & ?).
      exists i0, below, X0. split_and!; try done.
      by replace (2 * S d) with (S (S (2 * d))) by lia.
Qed.

(** A reduce finds the stack deep enough and the goto cell in place. *)
Lemma reduce_exposed j rest X lhs rhs :
  stack_ok g ts nts start P (St j :: rest) → states P !! j = Some X →
  (lhs, rhs, length rhs) ∈ X → lhs ≠ start →
  ∃ i below dest,
    2 * length rhs ≤ length (St j :: rest) ∧
    drop (2 * length rhs) (St j :: rest) = St i :: below ∧
    cell (goto_table P) i lhs = Some dest ∧
    stack_ok g ts nts start P (St dest :: Sym lhs :: St i :: below).
Proof.
  intros Hst HX Hit Hlhs.
  destruct (stack_trace _ _ _ _ _ _ Hst HX Hit)
    as (i & below & X0 & Hd & Hst0 & Hi & Hit0).
  pose proof (built_states _ _ _ _ _ _ _ _ Hitems _ _ Hi) as Hok.
  destruct (so_derived _ _ Hok _ Hit0) as [Hl|(it' & Hit' & Hex)]; [done..|].
  apply elem_of_expand in Hex as (nxt & prods & p & Hnext & Hnt & _ & _ & Heq).
  injection Heq as <- _.
  assert (goto self X0 lhs ≠ ∅) as Hne.
  { pose proof (goto_advance self _ _ _ Hit' Hnext). set_solver. }
  destruct (built_goto_edge _ _ _ _ _ _ _ _ Hitems _ _ _ Hi Hnt) as (dest & Hdest & Hc);
    [|done|].
  { intros Hin. by apply (Hdisjoint lhs). }
  exists i, below, dest. split_and!; try done.
  - destruct (decide (2 * length rhs ≤ length (St j :: rest))) as [|Hgt]; [done|].
    rewrite drop_ge in Hd by lia. done.
  - by econstructor.
Qed.

Lemma stack_ok_top stack :
  stack_ok g ts nts start P stack → ∃ state rest, stack = St state :: rest.
Proof. destruct 1; eauto. Qed.

(** One pass from a good configuration: it goes on in a good
    configuration, returns [True], or raises the syntax error of an
    empty cell. *)
Lemma parse_step_safe input P1 stack index :
  config_ok g ts nts start P (input ++ ["$"]) P1 stack index →
  ∃ state rest sym,
    stack = St state :: rest ∧ (input ++ ["$"]) !! index = Some sym ∧
    match (parse_step (input ++ ["$"]) P1 stack index).2 with
    | Running stack' index' =>
        is_Some (cell (action_table P1) state sym) ∧
        config_ok g ts nts start P (input ++ ["$"])
                  (parse_step (input ++ ["$"]) P1 stack index).1 stack' index'
    | Returned value =>
        value = true ∧ cell (action_table P1) state sym = Some accept
    | Raised e =>
        e = SyntaxError index sym ∧ cell (action_table P1) state sym = None
    end.
Proof.
  intros [Hsame Hst Hcur].
  destruct (stack_ok_top _ Hst) as (state & rest & ->).
  pose proof (cursor_ok_bound _ _ Hcur) as Hlt.
  apply lookup_lt_is_Some in Hlt as [sym Hin].
  exists state, rest, sym. split_and!; [done..|].
  destruct (parse_step_spec _ P1 state rest index sym Hin) as [Hframe Ho].
  destruct (parse_step (input ++ ["$"]) P1 (St state :: rest) index)
    as [P2 o] eqn:Hstep.
  simpl in Hframe, Ho. simpl.
  assert (same_object P P2) as Hsame'
    by (by eapply same_object_trans).
  destruct o as [stack' index'|value|e].
  - assert (cursor_ok (input ++ ["$"]) index') as Hcur'.
    { eapply (parse_step_cursor g ts nts start order fuel depth P Hitems Hmarker).
      - exact Hsame.
      - exact Hcur.
      - exact Hstep. }
    unfold pass_outcome in Ho.
    rewrite (same_object_action_cell _ _ _ _ Hsame) in Ho.
    rewrite (same_object_action_cell _ _ _ _ Hsame).
    destruct (cell (action_table P) state sym) as [[dest|lhs rhs|]|] eqn:Hc;
      try done.
    + split; [done|]. injection Ho as -> ->. split; [done| |done].
      destruct (built_shift _ _ _ _ _ _ _ _ Hitems _ _ _ Hc) as (X & _ & HX & _ & Hd).
      by econstructor.
    + split; [done|].
      destruct (built_reduce _ _ _ _ _ _ _ _ Hitems _ _ _ _ Hc) as (X & HX & Hit & Hl).
      apply (iteration_order_elem _ _ _ Horder) in Hit.
      destruct (reduce_exposed _ _ _ _ _ Hst HX Hit Hl)
        as (i & below & dest & Hlen & Hd & Hg & Hst').
      rewrite decide_True in Ho by done. rewrite Hd in Ho.
      rewrite (same_object_goto_cell _ _ _ _ Hsame) in Ho. rewrite Hg in Ho.
      injection Ho as -> ->. done.
  - unfold pass_outcome in Ho.
    destruct (cell (action_table P1) state sym) as [[dest|lhs rhs|]|] eqn:Hc;
      try done.
    + case_decide; [|done].
      destruct (drop _ _) as [|[exposed|y] below]; try done.
      by destruct (cell (goto_table P1) exposed lhs).
    + by injection Ho as <-.
  - unfold pass_outcome in Ho.
    destruct (cell (action_table P1) state sym) as [[dest|lhs rhs|]|] eqn:Hc;
      try done.
    + exfalso. rewrite (same_object_action_cell _ _ _ _ Hsame) in Hc.
      destruct (built_reduce _ _ _ _ _ _ _ _ Hitems _ _ _ _ Hc) as (X & HX & Hit & Hl).
      apply (iteration_order_elem _ _ _ Horder) in Hit.
      destruct (reduce_exposed _ _ _ _ _ Hst HX Hit Hl)
        as (i & below & dest & Hlen & Hd & Hg & Hst').
      rewrite decide_True in Ho by done. rewrite Hd in Ho.
      rewrite (same_object_goto_cell _ _ _ _ Hsame) in Ho. by rewrite Hg in Ho.
    + by injection Ho as <-.
Qed.

Lemma parse_loop_safe n input P1 stack index P2 stack' index' :
  config_ok g ts nts start P (input ++ ["$"]) P1 stack index →
  parse_loop n (input ++ ["$"]) P1 stack index = (P2, Running stack' index') →
  config_ok g ts nts start P (input ++ ["$"]) P2 stack' index'.
Proof.
  revert P1 stack index. induction n as [|n IH]; intros P1 stack index Hc.
  - simpl. by intros [= -> -> ->].
  - simpl. destruct (parse_step_safe _ _ _ _ Hc) as (state & rest & sym & _ & _ & Hm).
    destruct (parse_step (input ++ ["$"]) P1 stack index) as [P1' [st1 i1| |]];
      try done.
    simpl in Hm. apply IH. by destruct Hm.
Qed.

Lemma initial_config_ok input : config_ok g ts nts start P (input ++ ["$"]) P [St 0] 0.
Proof.
  split; [apply same_object_refl|constructor|]. intros k Hk. lia.
Qed.

End Safety.

(** ** FIRST and FOLLOW on ranked grammars *)

Section Ranked.
Variable self : LRParser.

Lemma grammar_get_is_Some g k prods :
  (k, prods) ∈ g → is_Some (grammar_get g k).
Proof.
  induction g as [|[k' ps] g IH]; [by intros ?%not_elem_of_nil|].
  intros Hin. simpl. case_decide as Hk; [by eexists|].
  apply IH. apply elem_of_cons in Hin as [[= -> ->]|?]; done.
Qed.

Lemma first_returns dom rank :
  first_ranked self dom rank →
  ∀ depth non_terminal,
    non_terminal ∈ dom →
    is_Some (grammar_get (grammar self) non_terminal) →
    rank non_terminal < depth →
    ∃ s, first self depth non_terminal = Ok s ∧
         ∀ t, t ∈ s → t ∈ terminals self.
Proof.
  intros Hrank depth.
  induction depth as [|depth IH]; intros nt Hdom [productions Hg] Hlt; [lia|].
  simpl. rewrite Hg.
  assert (Forall (λ production,
                    match production with
                    | [] => False
                    | sym :: _ =>
                        sym ∈ terminals self ∨
                        (sym ∈ dom ∧
                         is_Some (grammar_get (grammar self) sym) ∧
                         rank sym < rank nt)
                    end) productions) as Hps.
  { unfold first_ranked in Hrank. rewrite Forall_forall in Hrank.
    apply (Hrank (nt, productions)); [|done]. by apply grammar_get_elem. }
  clear Hg.
  assert (∀ t, t ∈ (∅ : gset symbol) → t ∈ terminals self) as Hacc
    by set_solver.
  revert Hacc. generalize (∅ : gset symbol).
  induction Hps as [|p ps Hp Hps IHps]; intros acc Hacc; simpl.
  - by exists acc.
  - destruct p as [|sym rest]; [done|].
    destruct (decide (sym ∈ terminals self)) as [Ht|Ht]; simpl.
    + apply IHps. intros t [?| ->%elem_of_singleton]%elem_of_union; auto.
    + destruct Hp as [?|(Hd & Hkey & Hr)]; [done|].
      destruct (IH sym Hd Hkey) as (s & -> & Hs); [lia|]. simpl.
      apply IHps. intros t [?|?]%elem_of_union; auto.
Qed.

Lemma follow_scan_returns dom frank rank bound depth nt lhs :
  first_ranked self dom frank → bound ≤ depth →
  is_Some (grammar_get (grammar self) nt) →
  (rank lhs < rank nt →
   ∃ s, follow self depth lhs = Ok s ∧ ∀ t, t ∈ s → t ∈ terminals self) →
  ∀ suffix acc,
    follow_ranked_in self dom frank rank bound lhs suffix →
    (∀ t, t ∈ acc → t ∈ terminals self) →
    ∃ s, follow_scan self (first self depth) (follow self depth) nt lhs acc
           suffix = Ok s ∧
         ∀ t, t ∈ s → t ∈ terminals self.
Proof.
  intros Hfr Hb Hnt Hrec suffix.
  induction suffix as [|sym rest IH]; intros acc Hsuf Hacc; simpl.
  - by exists acc.
  - destruct Hsuf as [Hhere Hrest].
    destruct (decide (sym = nt)) as [->|Hne]; simpl; [|by apply IH].
    specialize (Hhere Hnt). destruct rest as [|nxt rest'].
    + destruct (Hrec Hhere) as (s & -> & Hs). simpl.
      exists (acc ∪ s). split; [done|].
      intros t [?|?]%elem_of_union; auto.
    + destruct (decide (nxt ∈ terminals self)) as [Ht|Ht]; simpl.
      * apply IH; [done|].
        intros t [?| ->%elem_of_singleton]%elem_of_union; auto.
      * destruct Hhere as [?|(Hd & Hkey & Hr)]; [done|].
        destruct (first_returns _ _ Hfr depth nxt Hd Hkey) as (s & -> & Hs);
          [lia|].
        simpl. apply IH; [done|].
        intros t [?|?]%elem_of_union; auto.
Qed.

Lemma follow_returns dom frank rank bound :
  first_ranked self dom frank → follow_ranked self dom frank rank bound →
  "$" ∈ terminals self →
  ∀ depth non_terminal,
    is_Some (grammar_get (grammar self) non_terminal) →
    rank non_terminal + bound < depth →
    ∃ s, follow self depth non_terminal = Ok s ∧
         ∀ t, t ∈ s → t ∈ terminals self.
Proof.
  intros Hfr Hfo Hend depth.
  induction depth as [|depth IH]; intros nt Hnt Hlt; [lia|].
  simpl.
  assert (∀ t, t ∈ (if decide (nt = start_symbol self)
                    then {["$"]} else ∅ : gset symbol) → t ∈ terminals self)
    as Hacc by (case_decide; set_solver).
  revert Hacc.
  generalize (if decide (nt = start_symbol self)
              then {["$"]} else ∅ : gset symbol).
  unfold follow_ranked in Hfo. rewrite Forall_forall in Hfo.
  assert (∀ e, e ∈ grammar self → e ∈ grammar self) as Hsub by done.
  revert Hsub. generalize (grammar self) at 1 3. intros entries.
  induction entries as [|[lhs productions] entries IHg]; intros Hsub acc Hacc;
    simpl.
  - by exists acc.
  - assert ((lhs, productions) ∈ grammar self) as Hentry
      by (apply Hsub, list_elem_of_here).
    pose proof (Hfo _ Hentry) as Hprods. simpl in Hprods.
    assert (is_Some (grammar_get (grammar self) lhs)) as Hlhs
      by (by eapply grammar_get_is_Some).
    clear Hentry.
    assert (∃ s, rfold (follow_scan self (first self depth) (follow self depth)
                                    nt lhs) acc productions = Ok s ∧
                 ∀ t, t ∈ s → t ∈ terminals self) as (s & -> & Hs).
    { clear IHg Hsub. revert acc Hacc.
      induction Hprods as [|p ps Hp _ IHp]; intros acc Hacc; simpl.
      - by exists acc.
      - destruct (follow_scan_returns dom frank rank bound depth nt lhs Hfr)
          with (suffix := p) (acc := acc) as (s & -> & Hs); try done; [lia| |].
        + intros Hr. apply IH; [exact Hlhs|lia].
        + simpl. by apply IHp. }
    simpl. apply IHg; [|done].
    intros e He. apply Hsub. by apply list_elem_of_further.
Qed.

End Ranked.

(** The last element of a list with a decidable property. *)
Lemma list_last_such {A} (Q : A → Prop) `{!∀ x, Decision (Q x)} (l : list A) :
  (∃ x, x ∈ l ∧ Q x) →
  ∃ before y after,
    l = before ++ y :: after ∧ Q y ∧ ∀ z, z ∈ after → ¬ Q z.
Proof.
  induction l as [|a l IH]; intros (x & Hin & Hx);
    [by apply not_elem_of_nil in Hin|].
  destruct (decide (Exists Q l)) as [Hex|Hno].
  - apply Exists_exists in Hex.
    destruct (IH Hex) as (before & y & after & -> & Hy & Hafter).
    exists (a :: before), y, after. done.
  - rewrite Exists_exists in Hno.
    apply elem_of_cons in Hin as [->|Hin]; [|exfalso; eauto].
    exists [], a, l. split_and!; [done..|]. intros z Hz Hqz. eauto.
Qed.

(** ** The tables do not depend on the iteration order without conflicts *)

Section OrderIndependence.
Variable self : LRParser.
Variable depth : nat.

Lemma elem_of_item_target_set it s :
  s ∈ item_target_set self depth it ↔ item_targets self depth it s.
Proof.
  unfold item_target_set, item_targets.
  destruct (decide (item_dot it = length (item_rhs it))) as [Hd|Hd];
    [|set_solver].
  destruct (decide (item_lhs it = start_symbol self)); [set_solver|].
  destruct (follow self depth (item_lhs it)); set_solver.
Qed.

Lemma conflict_free_action sts X it1 it2 s :
  conflict_free self depth sts → X ∈ sts → it1 ∈ X → it2 ∈ X →
  item_targets self depth it1 s → item_targets self depth it2 s →
  item_action self it1 = item_action self it2.
Proof.
  intros Hcf HX H1 H2 Ht1 Ht2. unfold conflict_free in Hcf.
  rewrite Forall_forall in Hcf. specialize (Hcf X HX).
  rewrite Forall_forall in Hcf. specialize (Hcf it1).
  rewrite elem_of_elements in Hcf. specialize (Hcf H1).
  rewrite Forall_forall in Hcf. specialize (Hcf it2).
  rewrite elem_of_elements in Hcf. specialize (Hcf H2).
  destruct Hcf as [Hdisj|?]; [|done].
  apply elem_of_item_target_set in Ht1, Ht2. set_solver.
Qed.

Lemma items_complete_fine i tbl it :
  (∃ tbl', items_complete self depth i tbl it = Ok tbl') ↔ item_fine self depth it.
Proof.
  unfold item_fine, items_complete. destruct it as [[lhs rhs] d].
  destruct (decide (d = length rhs)); [|naive_solver].
  destruct (decide (lhs = start_symbol self)); [naive_solver|].
  destruct (get_production_index self lhs rhs); simpl; [|naive_solver].
  destruct (follow self depth lhs); simpl; naive_solver.
Qed.

Lemma rfold_items_fine i tbl l :
  (∃ tbl', rfold (items_complete self depth i) tbl l = Ok tbl') ↔
  Forall (item_fine self depth) l.
Proof.
  revert tbl. induction l as [|it l IH]; intros tbl; simpl.
  - split; [constructor|eauto].
  - rewrite Forall_cons, <- (items_complete_fine i tbl it).
    destruct (items_complete self depth i tbl it) as [tbl1|e]; simpl.
    + rewrite IH. naive_solver.
    + naive_solver.
Qed.

Lemma reduce_from_fine order n sts tbl :
  (∃ tbl', reduce_from self depth order n sts tbl = Ok tbl') ↔
  Forall (λ X, Forall (item_fine self depth) (order X)) sts.
Proof.
  revert n tbl. induction sts as [|X sts IH]; intros n tbl.
  - split; [constructor|]. intros _. by exists tbl.
  - rewrite reduce_from_cons, Forall_cons, <- (rfold_items_fine n tbl).
    destruct (rfold _ tbl (order X)) as [tbl1|e]; simpl.
    + rewrite IH. naive_solver.
    + naive_solver.
Qed.

Variables order1 order2 : gset item → list item.
Hypothesis Horder1 : iteration_order order1.
Hypothesis Horder2 : iteration_order order2.

Lemma items_reduce_order sts tbl tbl1 :
  conflict_free self depth sts →
  items_reduce self order1 depth sts tbl = Ok tbl1 →
  ∃ tbl2, items_reduce self order2 depth sts tbl = Ok tbl2 ∧
          ∀ i s, cell tbl2 i s = cell tbl1 i s.
Proof.
  intros Hcf H1.
  assert (∃ tbl2, items_reduce self order2 depth sts tbl = Ok tbl2)
    as [tbl2 H2].
  { rewrite items_reduce_from in *. apply reduce_from_fine.
    assert (Forall (λ X, Forall (item_fine self depth) (order1 X)) sts) as Hf
      by (apply (reduce_from_fine order1 0 sts tbl); eauto).
    eapply Forall_impl; [exact Hf|]. intros X HX. simpl in HX.
    rewrite Forall_forall in HX |- *. intros it Hit. apply HX.
    apply (iteration_order_elem _ _ _ Horder1).
    by apply (iteration_order_elem _ _ _ Horder2) in Hit. }
  exists tbl2. split; [done|]. intros i s.
  destruct (sts !! i) as [X|] eqn:Hi.
  - destruct (decide (Exists (λ it, item_targets self depth it s) (elements X)))
      as [Hex|Hno].
    + apply Exists_exists in Hex as (it & Hit & Ht).
      apply elem_of_elements in Hit.
      destruct (list_last_such (λ x, item_targets self depth x s) (order1 X))
        as (b1 & l1 & a1 & Ho1 & Hl1 & Ha1).
      { exists it. split; [|done]. by apply iteration_order_elem. }
      destruct (list_last_such (λ x, item_targets self depth x s) (order2 X))
        as (b2 & l2 & a2 & Ho2 & Hl2 & Ha2).
      { exists it. split; [|done]. by apply iteration_order_elem. }
      rewrite (items_reduce_last _ _ _ _ _ _ _ _ _ _ _ _ H1 Hi Ho1 Hl1 Ha1).
      rewrite (items_reduce_last _ _ _ _ _ _ _ _ _ _ _ _ H2 Hi Ho2 Hl2 Ha2).
      f_equal. eapply (conflict_free_action sts X); try done.
      * by eapply list_elem_of_lookup_2.
      * apply (iteration_order_elem order2 X l2 Horder2). rewrite Ho2.
        apply elem_of_app. right. apply list_elem_of_here.
      * apply (iteration_order_elem order1 X l1 Horder1). rewrite Ho1.
        apply elem_of_app. right. apply list_elem_of_here.
    + rewrite Exists_exists in Hno.
      rewrite (items_reduce_untouched _ _ _ _ _ _ _ _ H1),
              (items_reduce_untouched _ _ _ _ _ _ _ _ H2); [done| |].
      * intros X' it HX' Hit Ht. assert (X' = X) as -> by congruence.
        apply Hno. exists it. split; [|done].
        apply elem_of_elements. by apply (iteration_order_elem order2 X it).
      * intros X' it HX' Hit Ht. assert (X' = X) as -> by congruence.
        apply Hno. exists it. split; [|done].
        apply elem_of_elements. by apply (iteration_order_elem order1 X it).
  - rewrite (items_reduce_untouched _ _ _ _ _ _ _ _ H1),
            (items_reduce_untouched _ _ _ _ _ _ _ _ H2); [done| |];
      intros X' it HX'; congruence.
Qed.

Lemma items_order fuel P1 :
  items self order1 fuel depth = Some (Ok P1) →
  conflict_free self depth (states P1) →
  ∃ P2, items self order2 fuel depth = Some (Ok P2) ∧
        states P2 = states P1 ∧
        (∀ i s, cell (action_table P2) i s = cell (action_table P1) i s) ∧
        (∀ i s, cell (goto_table P2) i s = cell (goto_table P1) i s).
Proof.
  unfold items. destruct (initial_item self) as [it|]; [|done].
  destruct (items_loop self fuel _) as [[b|]|]; try done.
  destruct (items_reduce self order1 depth _ _) as [tbl1|] eqn:H1; [|done].
  simpl. intros [= <-] Hcf. simpl in Hcf.
  destruct (items_reduce_order _ _ _ Hcf H1) as (tbl2 & -> & Hcells).
  simpl. eexists. split; [done|]. simpl. done.
Qed.

End OrderIndependence.

Lemma same_cells_step P Q P' Q' :
  same_cells P Q → same_object P P' → same_object Q Q' → same_cells P' Q'.
Proof.
  intros [Ha Hg] HP HQ. split; intros i s.
  - by rewrite (same_object_action_cell _ _ _ _ HP),
               (same_object_action_cell _ _ _ _ HQ).
  - by rewrite (same_object_goto_cell _ _ _ _ HP),
               (same_object_goto_cell _ _ _ _ HQ).
Qed.

Lemma parse_step_same_cells input_string P Q stack index :
  same_cells P Q →
  (parse_step input_string P stack index).2
  = (parse_step input_string Q stack index).2.
Proof.
  intros [Ha Hg]. destruct stack as [|[state|x] rest]; [done| |].
  - destruct (input_string !! index) as [sym|] eqn:Hin.
    + destruct (parse_step_spec input_string P state rest index sym Hin) as [_ ->].
      destruct (parse_step_spec input_string Q state rest index sym Hin) as [_ ->].
      unfold pass_outcome. rewrite Ha.
      destruct (cell (action_table P) state sym) as [[dest|lhs rhs|]|]; try done.
      case_decide; [|done].
      destruct (drop _ _) as [|[exposed|y] below]; try done.
      by rewrite Hg.
    + unfold parse_step. by rewrite Hin.
  - unfold parse_step. by destruct (input_string !! index).
Qed.

Lemma parse_loop_same_cells n input_string P Q stack index :
  same_cells P Q →
  (parse_loop n input_string P stack index).2
  = (parse_loop n input_string Q stack index).2.
Proof.
  revert P Q stack index. induction n as [|n IH]; intros P Q stack index Hc.
  - done.
  - simpl. pose proof (parse_step_same_cells input_string P Q stack index Hc) as Ho.
    pose proof (parse_step_frame input_string P stack index) as HP.
    pose proof (parse_step_frame input_string Q stack index) as HQ.
    destruct (parse_step input_string P stack index) as [P' oP],
             (parse_step input_string Q stack index) as [Q' oQ].
    simpl in *. subst oQ. destruct oP as [st1 i1| |]; try done.
    apply IH. by eapply same_cells_step.
Qed.

(** * The claims *)

Lemma built_items self order fuel depth :
  builds self order fuel depth = true →
  items self order fuel depth = Some (Ok (built self order fuel depth)).
Proof.
  unfold builds, built. by destruct (items self order fuel depth) as [[P|e]|].
Qed.

Lemma example_items :
  items example_parser elements 100 1000 = Some (Ok example_built).
Proof. apply built_items. vm_compute. reflexivity. Qed.

Lemma elem_of_rhs_symbols g k prods p x :
  (k, prods) ∈ g → p ∈ prods → x ∈ p → x ∈ rhs_symbols g.
Proof.
  intros Hk Hp Hx. unfold rhs_symbols.
  apply list_elem_of_join. exists p. split; [done|].
  apply list_elem_of_join. exists prods. split; [done|].
  apply list_elem_of_fmap. by exists (k, prods).
Qed.

(** C5. [closure] is idempotent: closing a closed set of items returns it
    unchanged, for every object and every item set. *)
Theorem closure_idempotent (self : LRParser) (X : gset item) :
  closure self (closure self X) = closure self X.
Proof. apply closure_closure. Qed.

(** C4. [goto(X, sym)] is empty when no item of [X] has its dot right
    before [sym], and what it returns is always closed under [closure]. *)
Theorem goto_empty_or_closed (self : LRParser) (X : gset item) (sym : symbol) :
  ((∀ it, it ∈ X → next_symbol it ≠ Some sym) → goto self X sym = ∅) ∧
  closure self (goto self X sym) = goto self X sym.
Proof.
  split; [|apply closure_closure].
  intros Hnone. unfold goto.
  assert (filter (λ it, next_symbol it = Some sym) X = ∅) as ->.
  { apply set_eq. intros it. rewrite elem_of_filter. split; [|set_solver].
    intros [Hn Hit]. by destruct (Hnone it Hit). }
  rewrite set_map_empty. apply closure_empty.
Qed.

Lemma goto_empty_or_closed_witness :
  goto example_parser {[ ("S'", ["S"], 0) ]} "+" = ∅ ∧
  closure example_parser (goto example_parser {[ ("S'", ["S"], 0) ]} "+")
  = goto example_parser {[ ("S'", ["S"], 0) ]} "+".
Proof.
  destruct (goto_empty_or_closed example_parser {[ ("S'", ["S"], 0) ]} "+")
    as [Hempty Hclosed].
  split; [|exact Hclosed].
  apply Hempty. intros it Hit. apply elem_of_singleton in Hit. subst it.
  vm_decide.
Defined.

(** C8. One pass of the driver loop: a shift pushes the input symbol and
    then the destination state and moves the cursor by one; a reduce pops
    twice as many slots as the right-hand side is long, pushes the
    left-hand side and then the goto-table entry of the state it uncovered,
    and leaves the cursor; an accept makes [parse] return [True]. *)
Theorem parse_pass_actions (input_string : list symbol) (self : LRParser)
    (state : nat) (rest : list entry) (index : nat) (current_symbol : symbol) :
  input_string !! index = Some current_symbol →
  let stack := St state :: rest in
  let next := parse_step input_string self stack index in
  (∀ dest,
     cell (action_table self) state current_symbol = Some (shift dest) →
     next.2 = Running (St dest :: Sym current_symbol :: stack) (S index)) ∧
  (∀ lhs rhs popped exposed below goto_state,
     cell (action_table self) state current_symbol = Some (reduce lhs rhs) →
     stack = popped ++ St exposed :: below →
     length popped = 2 * length rhs →
     cell (goto_table self) exposed lhs = Some goto_state →
     next.2 = Running (St goto_state :: Sym lhs :: St exposed :: below) index) ∧
  (cell (action_table self) state current_symbol = Some accept →
     next.2 = Returned true ∧
     ∀ fuel, (parse_loop (S fuel) input_string self stack index).2
             = Returned true).
Proof.
  intros Hin. cbv zeta.
  destruct (parse_step_spec input_string self state rest index current_symbol Hin)
    as [_ Ho].
  unfold pass_outcome in Ho. split_and!.
  - intros dest Hc. by rewrite Hc in Ho.
  - intros lhs rhs popped exposed below goto_state Hc Hstack Hlen Hg.
    rewrite Hc in Ho. rewrite Hstack in Ho |- *.
    rewrite decide_True in Ho by (rewrite length_app; lia).
    rewrite drop_app_length' in Ho by lia. by rewrite Hg in Ho.
  - intros Hc. rewrite Hc in Ho. split; [done|]. intros fuel.
    cbn [parse_loop].
    destruct (parse_step input_string self (St state :: rest) index)
      as [self' o].
    simpl in Ho. by subst o.
Qed.

Lemma parse_pass_actions_witness :
  (parse_step ["id"; "$"] example_built [St 0] 0).2
  = Running [St 2; Sym "id"; St 0] 1.
Proof.
  destruct (parse_pass_actions ["id"; "$"] example_built 0 [] 0 "id" eq_refl)
    as [Hshift _].
  apply Hshift. vm_decide.
Defined.

(** C7 as the code has it: [parse] leaves the grammar, the symbol lists,
    the states and every cell of both tables as they were; the one thing
    it can add to a table is an empty row for a state that had none (the
    tables are [defaultdict]s and [parse] reads them by subscript). *)
Theorem parse_frame (fuel : nat) (self : LRParser) (input : list symbol) :
  same_object self (parse fuel self input).1.
Proof. apply parse_loop_frame. Qed.

(** C7, counterexample: on that grammar, parsing the empty input adds the
    key 0 to [action_table]. *)
Lemma parse_adds_action_row :
  items unproductive_parser elements 10 10 = Some (Ok unproductive_built) ∧
  action_table unproductive_built !! 0 = None ∧
  action_table (parse 1 unproductive_built []).1 !! 0 = Some ∅ ∧
  action_table (parse 1 unproductive_built []).1 ≠ action_table unproductive_built.
Proof.
  assert (action_table unproductive_built !! 0 = None) as H0 by vm_decide.
  assert (action_table (parse 1 unproductive_built []).1 !! 0 = Some ∅) as H1
    by vm_decide.
  split_and!; [apply built_items; vm_compute; reflexivity|done|done|].
  intros Heq. rewrite Heq, H0 in H1. discriminate H1.
Qed.

(** C10. When no right-hand side of the grammar contains ['$'], no cell
    under ['$'] holds a shift, and in every run of [parse] the cursor stays
    within [input_string]: it never passes the end marker appended to the
    input. *)
Theorem no_shift_under_end_marker (g : list (symbol * list production))
    (ts nts : list symbol) (start : symbol) (order : gset item → list item)
    (fuel depth : nat) (P : LRParser) :
  items (init g ts nts start) order fuel depth = Some (Ok P) →
  "$" ∉ rhs_symbols g →
  (∀ i j, cell (action_table P) i "$" ≠ Some (shift j)) ∧
  (∀ n input P' stack index,
     parse n P input = (P', Running stack index) →
     index ≤ length input ∧ is_Some ((input ++ ["$"]) !! index)).
Proof.
  intros Hitems Hno.
  assert (∀ k prods p, (k, prods) ∈ g → p ∈ prods → "$" ∉ p) as Hmarker.
  { intros k prods p Hk Hp Hin. apply Hno. by eapply elem_of_rhs_symbols. }
  split.
  - intros i j Hc.
    by apply (built_shift_symbol _ _ _ _ _ _ _ _ Hitems Hmarker _ _ _ Hc).
  - intros n input P' stack index Hrun.
    assert (cursor_ok (input ++ ["$"]) index) as Hcur.
    { eapply (parse_loop_cursor _ _ _ _ _ _ _ _ Hitems Hmarker);
        [apply same_object_refl| |exact Hrun].
      intros k Hk. lia. }
    apply cursor_ok_bound in Hcur as Hlt. split.
    + rewrite length_app in Hlt. simpl in Hlt. lia.
    + by apply lookup_lt_is_Some.
Qed.

Lemma no_shift_under_end_marker_witness :
  (∀ i j, cell (action_table example_built) i "$" ≠ Some (shift j)) ∧
  (∀ n input P' stack index,
     parse n example_built input = (P', Running stack index) →
     index ≤ length input ∧ is_Some ((input ++ ["$"]) !! index)).
Proof.
  apply (no_shift_under_end_marker example_grammar ["+"; "*"; "("; ")"; "id"]
           ["S"; "E"; "T"; "F"] "S'" elements 100 1000 example_built).
  - apply built_items. vm_compute. reflexivity.
  - vm_decide.
Defined.

(** C6 as the code has it: for a state [i] and a symbol [s] with
    [goto(states[i], s)] empty, the goto table has no entry at [(i, s)] and
    the action table has no shift there; an action found there is the
    accept or reduce that the second loop of [items] wrote for a complete
    item of the state. *)
Theorem no_edge_no_shift (g : list (symbol * list production))
    (ts nts : list symbol) (start : symbol) (order : gset item → list item)
    (fuel depth : nat) (P : LRParser) (i : nat) (X : gset item) (s : symbol) :
  items (init g ts nts start) order fuel depth = Some (Ok P) →
  states P !! i = Some X →
  goto P X s = ∅ →
  cell (goto_table P) i s = None ∧
  (∀ j, cell (action_table P) i s ≠ Some (shift j)) ∧
  (∀ a, cell (action_table P) i s = Some a →
        ∃ it, it ∈ order X ∧ item_dot it = length (item_rhs it) ∧
              a = if decide (item_lhs it = start) then accept
                  else reduce (item_lhs it) (item_rhs it)).
Proof.
  intros Hitems HX Hempty.
  rewrite (built_goto _ _ _ _ _ _ _ _ Hitems) in Hempty.
  assert (∀ j, cell (action_table P) i s ≠ Some (shift j)) as Hshift.
  { intros j Hc.
    destruct (built_shift _ _ _ _ _ _ _ _ Hitems _ _ _ Hc) as (X' & _ & HX' & Hne & _).
    assert (X' = X) as -> by congruence. done. }
  split_and!; [|done|].
  - destruct (cell (goto_table P) i s) as [j|] eqn:Hc; [|done].
    destruct (built_goto_cell _ _ _ _ _ _ _ _ Hitems _ _ _ Hc)
      as (X' & _ & HX' & Hne & _).
    assert (X' = X) as -> by congruence. done.
  - intros a Hc.
    destruct (built_action _ _ _ _ _ _ _ _ Hitems _ _ _ Hc)
      as [(j & _ & -> & _)|(X' & it & HX' & Hit & [Hd _] & ->)].
    + by destruct (Hshift j).
    + assert (X' = X) as -> by congruence. by exists it.
Qed.

Lemma no_edge_no_shift_witness :
  cell (goto_table example_built) 2 "+" = None ∧
  (∀ j, cell (action_table example_built) 2 "+" ≠ Some (shift j)) ∧
  (∀ a, cell (action_table example_built) 2 "+" = Some a →
        ∃ it, it ∈ elements ({[ ("F", ["id"], 1) ]} : gset item) ∧
              item_dot it = length (item_rhs it) ∧
              a = if decide (item_lhs it = "S'") then accept
                  else reduce (item_lhs it) (item_rhs it)).
Proof.
  apply (no_edge_no_shift example_grammar ["+"; "*"; "("; ")"; "id"]
           ["S"; "E"; "T"; "F"] "S'" elements 100 1000 example_built 2
           {[ ("F", ["id"], 1) ]} "+").
  - apply built_items. vm_compute. reflexivity.
  - vm_decide.
  - vm_decide.
Defined.

(** C6, counterexample: in the example grammar state 2 is [{F → id .}];
    it has no edge on ['+'], yet the action table holds a reduce there. *)
Lemma reduce_cell_without_edge :
  items example_parser elements 100 1000 = Some (Ok example_built) ∧
  states example_built !! 2 = Some {[ ("F", ["id"], 1) ]} ∧
  goto example_built {[ ("F", ["id"], 1) ]} "+" = ∅ ∧
  cell (action_table example_built) 2 "+" = Some (reduce "F" ["id"]).
Proof.
  split_and!; [apply built_items; vm_compute; reflexivity|..]; vm_decide.
Qed.

(** A run that raises does so with the syntax error of an empty cell. *)
Lemma parse_loop_raised g ts nts start order fuel depth P :
  items (init g ts nts start) order fuel depth = Some (Ok P) →
  iteration_order order →
  (∀ x, x ∈ ts ++ ["$"] → x ∉ nts) →
  (∀ k prods p, (k, prods) ∈ g → p ∈ prods → "$" ∉ p) →
  ∀ n input P1 stack index P2 e,
    config_ok g ts nts start P (input ++ ["$"]) P1 stack index →
    parse_loop n (input ++ ["$"]) P1 stack index = (P2, Raised e) →
    ∃ i sym state,
      e = SyntaxError i sym ∧ (input ++ ["$"]) !! i = Some sym ∧
      cell (action_table P) state sym = None.
Proof.
  intros Hitems Horder Hdisj Hmarker n input.
  induction n as [|n IH]; intros P1 stack index P2 e Hc; [done|].
  simpl.
  destruct (parse_step_safe _ _ _ _ _ _ _ _ Hitems Horder Hdisj Hmarker _ _ _ _ Hc)
    as (state & rest & sym & _ & Hin & Hm).
  destruct (parse_step (input ++ ["$"]) P1 stack index) as [P1' [st1 i1| |]];
    simpl in Hm; try done.
  - destruct Hm as [_ Hc']. by apply IH.
  - intros [= <- <-]. destruct Hm as [-> Hcell].
    exists index, sym, state. split_and!; [done..|].
    by rewrite <- (same_object_action_cell _ _ _ _ (co_object _ _ _ _ _ _ _ _ _ Hc)).
Qed.

(** C3 as the code has it.  For tables built by [items] from a grammar
    whose terminals and non-terminals are disjoint and whose right-hand
    sides do not contain ['$']: at every pass of the loop an exception is
    raised exactly when the action table has no entry for the state on top
    of the stack and the current symbol; it is the syntax error carrying
    the cursor position and that symbol; it ends the call (more passes do
    not change the outcome); and no call raises anything else. *)
Theorem parse_raises_syntax_error_only (g : list (symbol * list production))
    (ts nts : list symbol) (start : symbol) (order : gset item → list item)
    (fuel depth : nat) (P : LRParser) :
  iteration_order order →
  items (init g ts nts start) order fuel depth = Some (Ok P) →
  Forall (λ x, x ∉ nts) (ts ++ ["$"]) →
  "$" ∉ rhs_symbols g →
  (∀ n input P1 stack index,
     parse n P input = (P1, Running stack index) →
     ∃ state rest sym,
       stack = St state :: rest ∧ (input ++ ["$"]) !! index = Some sym ∧
       (cell (action_table P1) state sym = None ↔
        ∃ e, (parse (S n) P input).2 = Raised e) ∧
       (∀ e, (parse (S n) P input).2 = Raised e →
             e = SyntaxError index sym ∧
             ∀ m, (parse (S n + m) P input).2 = Raised e)) ∧
  (∀ n input e,
     (parse n P input).2 = Raised e →
     ∃ i sym, e = SyntaxError i sym ∧ (input ++ ["$"]) !! i = Some sym).
Proof.
  intros Horder Hitems Hdisj Hno.
  assert (∀ k prods p, (k, prods) ∈ g → p ∈ prods → "$" ∉ p) as Hmarker.
  { intros k prods p Hk Hp Hin. apply Hno. by eapply elem_of_rhs_symbols. }
  rewrite Forall_forall in Hdisj.
  split.
  - intros n input P1 stack index Hrun.
    assert (config_ok g ts nts start P (input ++ ["$"]) P1 stack index) as Hc.
    { eapply (parse_loop_safe _ _ _ _ _ _ _ _ Hitems Horder Hdisj Hmarker);
        [apply initial_config_ok|exact Hrun]. }
    destruct (parse_step_safe _ _ _ _ _ _ _ _ Hitems Horder Hdisj Hmarker _ _ _ _ Hc)
      as (state & rest & sym & -> & Hin & Hm).
    exists state, rest, sym. split_and!; [done..| |].
    + unfold parse. rewrite (parse_loop_S _ _ _ _ _ _ _ _ Hrun).
      destruct (parse_step (input ++ ["$"]) P1 (St state :: rest) index)
        as [P1' [st1 i1| |]]; simpl in Hm |- *.
      * destruct Hm as [[a Ha] _]. rewrite Ha. split; [done|]. by intros [e ?].
      * destruct Hm as [_ Ha]. rewrite Ha. split; [done|]. by intros [e ?].
      * destruct Hm as [_ Ha]. split; [eauto|done].
    + intros e He. unfold parse in He |- *.
      pose proof (parse_loop_S _ _ _ _ _ _ _ _ Hrun) as HS. rewrite HS in He.
      destruct (parse_step (input ++ ["$"]) P1 (St state :: rest) index)
        as [P1' o] eqn:Hstep; simpl in Hm, He. subst o.
      destruct Hm as [-> _]. split; [done|]. intros m.
      erewrite parse_loop_final; [|exact HS|]; [done|].
      by intros ? ?.
  - intros n input e He.
    destruct (parse n P input) as [P2 o] eqn:Hrun. simpl in He. subst o.
    destruct (parse_loop_raised _ _ _ _ _ _ _ _ Hitems Horder Hdisj Hmarker
                n input P [St 0] 0 P2 e) as (i & sym & state & ? & ? & _);
      [apply initial_config_ok|exact Hrun|eauto].
Qed.

Lemma parse_raises_syntax_error_only_witness :
  (∀ n input P1 stack index,
     parse n example_built input = (P1, Running stack index) →
     ∃ state rest sym,
       stack = St state :: rest ∧ (input ++ ["$"]) !! index = Some sym ∧
       (cell (action_table P1) state sym = None ↔
        ∃ e, (parse (S n) example_built input).2 = Raised e) ∧
       (∀ e, (parse (S n) example_built input).2 = Raised e →
             e = SyntaxError index sym ∧
             ∀ m, (parse (S n + m) example_built input).2 = Raised e)) ∧
  (∀ n input e,
     (parse n example_built input).2 = Raised e →
     ∃ i sym, e = SyntaxError i sym ∧ (input ++ ["$"]) !! i = Some sym).
Proof.
  apply (parse_raises_syntax_error_only example_grammar
           ["+"; "*"; "("; ")"; "id"] ["S"; "E"; "T"; "F"] "S'" elements
           100 1000 example_built).
  - intros X. reflexivity.
  - apply built_items. vm_compute. reflexivity.
  - vm_decide.
  - vm_decide.
Defined.

(** C3, counterexample: on that grammar the end marker is shifted, the
    cursor leaves [input_string], and [parse(['a'])] ends with an
    [IndexError] although no lookup in the action table failed. *)
Lemma parse_raises_index_error :
  items marked_parser elements 10 10 = Some (Ok marked_built) ∧
  (parse 3 marked_built ["a"]).2
  = Running [St 3; Sym "$"; St 2; Sym "S"; St 0] 2 ∧
  (parse 4 marked_built ["a"]).2 = Raised IndexError.
Proof.
  split_and!; [apply built_items; vm_compute; reflexivity|..]; vm_decide.
Qed.

(** The other condition of the theorem is needed as well: when ['A'] is
    also listed as a terminal, its edge out of state 0 goes to the action
    table, and the reduce by [A → a] finds no goto entry. *)
Lemma parse_raises_key_error :
  items overlapping_parser elements 10 10 = Some (Ok overlapping_built) ∧
  cell (action_table overlapping_built) 1 "$" = Some (reduce "A" ["a"]) ∧
  cell (goto_table overlapping_built) 0 "A" = None ∧
  (parse 2 overlapping_built ["a"]).2 = Raised KeyError.
Proof.
  split_and!; [apply built_items; vm_compute; reflexivity|..]; vm_decide.
Qed.


(** C2 as the code has it.  For a complete item [(lhs, rhs, len(rhs))] of
    state [i], the second loop of [items] writes [accept] at [(i, '$')]
    when [lhs] is the start symbol, and [reduce(lhs, rhs)] at [(i, t)] for
    every [t] in [FOLLOW(lhs)] otherwise ([item_targets], [item_action]).
    The cell ends up holding the action of the last item, in the order in
    which the state is iterated, that writes to it: whatever was there
    before, a shift included, is overwritten without an error.  So the
    cell holds the item's own action when every item of the state that
    writes to the cell writes the same action. *)
Theorem last_complete_item_wins (g : list (symbol * list production))
    (ts nts : list symbol) (start : symbol) (order : gset item → list item)
    (fuel depth : nat) (P : LRParser) (i : nat) (X : gset item) (it : item)
    (t : symbol) :
  iteration_order order →
  items (init g ts nts start) order fuel depth = Some (Ok P) →
  states P !! i = Some X →
  it ∈ X →
  item_targets (init g ts nts start) depth it t →
  (∃ before last after,
     order X = before ++ last :: after ∧
     item_targets (init g ts nts start) depth last t ∧
     (∀ it', it' ∈ after → ¬ item_targets (init g ts nts start) depth it' t) ∧
     cell (action_table P) i t = Some (item_action (init g ts nts start) last)) ∧
  ((∀ it', it' ∈ X → item_targets (init g ts nts start) depth it' t →
           item_action (init g ts nts start) it'
           = item_action (init g ts nts start) it) →
   cell (action_table P) i t = Some (item_action (init g ts nts start) it)).
Proof.
  intros Horder Hitems HX Hit Ht.
  destruct (items_builder _ _ _ _ _ _ _ _ Hitems) as (b & _ & _ & Hr & HP).
  assert (b_states b !! i = Some X) as HX' by (rewrite HP in HX; exact HX).
  assert (it ∈ order X) as Hin by (by apply iteration_order_elem).
  destruct (list_last_such (λ x, item_targets (init g ts nts start) depth x t)
              (order X))
    as (before & last & after & Ho & Hlast & Hafter); [by exists it|].
  pose proof (items_reduce_last _ _ _ _ _ _ _ _ _ _ _ _ Hr HX' Ho Hlast Hafter)
    as Hcell.
  split.
  - exists before, last, after. done.
  - intros Hsame. rewrite Hcell. f_equal. apply Hsame; [|done].
    apply (iteration_order_elem order X last Horder).
    rewrite Ho. apply elem_of_app. right. apply list_elem_of_here.
Qed.

Lemma last_complete_item_wins_witness :
  (∃ before last after,
     elements ({[ ("F", ["id"], 1) ]} : gset item) = before ++ last :: after ∧
     item_targets example_parser 1000 last "+" ∧
     (∀ it', it' ∈ after → ¬ item_targets example_parser 1000 it' "+") ∧
     cell (action_table example_built) 2 "+"
     = Some (item_action example_parser last)) ∧
  ((∀ it', it' ∈ ({[ ("F", ["id"], 1) ]} : gset item) →
           item_targets example_parser 1000 it' "+" →
           item_action example_parser it'
           = item_action example_parser ("F", ["id"], 1)) →
   cell (action_table example_built) 2 "+"
   = Some (item_action example_parser ("F", ["id"], 1))).
Proof.
  apply (last_complete_item_wins example_grammar ["+"; "*"; "("; ")"; "id"]
           ["S"; "E"; "T"; "F"] "S'" elements 100 1000 example_built 2
           {[ ("F", ["id"], 1) ]} ("F", ["id"], 1) "+").
  - intros X. reflexivity.
  - apply built_items. vm_compute. reflexivity.
  - vm_decide.
  - vm_decide.
  - vm_decide.
Defined.

(** C2, counterexample: state 1 holds the complete items [A → a .] and
    [B → a .]; ['$'] is in [FOLLOW] of both, so the claim asks cell
    [(1, '$')] to be [reduce(A, a)] and [reduce(B, a)] at once.  It holds
    one of them: the second in the order the state is iterated. *)
Lemma reduce_overwritten_by_reduce :
  items ambiguous_parser elements 10 10 = Some (Ok ambiguous_built) ∧
  states ambiguous_built !! 1 = Some {[ ("A", ["a"], 1); ("B", ["a"], 1) ]} ∧
  elements ({[ ("A", ["a"], 1); ("B", ["a"], 1) ]} : gset item)
  = [ ("A", ["a"], 1); ("B", ["a"], 1) ] ∧
  follow ambiguous_parser 10 "A" = Ok {[ "$" ]} ∧
  follow ambiguous_parser 10 "B" = Ok {[ "$" ]} ∧
  cell (action_table ambiguous_built) 1 "$" = Some (reduce "B" ["a"]) ∧
  cell (action_table ambiguous_built) 1 "$" ≠ Some (reduce "A" ["a"]).
Proof.
  split_and!; [apply built_items; vm_compute; reflexivity|..]; vm_decide.
Qed.

Lemma first_unfold self depth non_terminal :
  first self (S depth) non_terminal =
  match grammar_get (grammar self) non_terminal with
  | None => Raise KeyError
  | Some productions =>
      rfold (λ first_set production,
               match production with
               | [] => Raise IndexError
               | sym :: _ =>
                   if decide (sym ∈ terminals self)
                   then Ok (first_set ∪ {[sym]})
                   else s ← first self depth sym; Ok (first_set ∪ s)
               end)
            ∅ productions
  end.
Proof. reflexivity. Qed.

(** In the example grammar [E → E + T] makes [first('E')] call itself at
    once: whatever depth the interpreter allows is used up. *)
Lemma first_left_recursion_raises depth :
  first example_parser depth "E" = Raise RecursionError.
Proof.
  induction depth as [|depth IH]; [done|].
  rewrite first_unfold.
  assert (grammar_get (grammar example_parser) "E"
          = Some [["E"; "+"; "T"]; ["T"]]) as -> by vm_decide.
  cbn [rfold]. rewrite decide_False by vm_decide. by rewrite IH.
Qed.

(** C1, counterexample: there is no guard against re-entering a
    non-terminal, and for the left-recursive [E] of the example grammar
    [first] returns no set at any recursion depth. *)
Lemma first_left_recursion_overflows :
  ¬ ∃ depth s, first example_parser depth "E" = Ok s.
Proof.
  intros (depth & s & Hs). by rewrite first_left_recursion_raises in Hs.
Qed.

(** C1 as the code has it.  [first] and [follow] return a set of terminals
    when their recursion is well founded: when the non-terminals can be
    ranked so that, on the non-terminals [dom] whose FIRST is needed, the
    leading non-terminal of every production is below its left-hand side
    ([first_ranked]), and a non-terminal that ends a production is above
    that production's left-hand side ([follow_ranked]).  Any depth above
    the rank is enough. *)
Theorem first_follow_return_ranked (g : list (symbol * list production))
    (ts nts : list symbol) (start : symbol) (dom : list symbol)
    (frank rank : symbol → nat) (bound : nat) (non_terminal : symbol) :
  first_ranked (init g ts nts start) dom frank →
  follow_ranked (init g ts nts start) dom frank rank bound →
  is_Some (grammar_get g non_terminal) →
  (non_terminal ∈ dom →
   ∀ depth, frank non_terminal < depth →
     ∃ s, first (init g ts nts start) depth non_terminal = Ok s ∧
          ∀ t, t ∈ s → t ∈ ts ++ ["$"]) ∧
  (∀ depth, rank non_terminal + bound < depth →
     ∃ s, follow (init g ts nts start) depth non_terminal = Ok s ∧
          ∀ t, t ∈ s → t ∈ ts ++ ["$"]).
Proof.
  intros Hfirst Hfollow Hkey. split.
  - intros Hdom depth Hd.
    by apply (first_returns (init g ts nts start) dom frank Hfirst).
  - intros depth Hd.
    apply (follow_returns (init g ts nts start) dom frank rank bound);
      [done..| |done|done].
    simpl. apply elem_of_app. right. apply list_elem_of_here.
Qed.

Lemma first_follow_return_ranked_witness :
  (∃ s, first example_parser 5 "F" = Ok s ∧
        ∀ t, t ∈ s → t ∈ ["+"; "*"; "("; ")"; "id"] ++ ["$"]) ∧
  (∃ s, follow example_parser 10 "F" = Ok s ∧
        ∀ t, t ∈ s → t ∈ ["+"; "*"; "("; ")"; "id"] ++ ["$"]).
Proof.
  destruct (first_follow_return_ranked example_grammar
              ["+"; "*"; "("; ")"; "id"] ["S"; "E"; "T"; "F"] "S'"
              ["F"] (λ _, 0) example_follow_rank 1 "F")
    as [Hfirst Hfollow].
  - vm_decide.
  - vm_decide.
  - vm_decide.
  - split.
    + apply Hfirst; [vm_decide|lia].
    + apply Hfollow. vm_compute. lia.
Defined.

(** C9.  For the example grammar of [__main__], whatever the order in
    which the interpreter iterates over the item sets, [items] returns, and
    [parse(['id', '*', 'id', '+', 'id'])] then reaches the accept action at
    its fifteenth pass and returns [True]. *)
Theorem example_parse_accepts (order : gset item → list item) :
  iteration_order order →
  ∃ P,
    items example_parser order 100 1000 = Some (Ok P) ∧
    (parse 14 P ["id"; "*"; "id"; "+"; "id"]).2
    = Running [St 3; Sym "S"; St 0] 5 ∧
    cell (action_table P) 3 "$" = Some accept ∧
    ∀ extra,
      (parse (15 + extra) P ["id"; "*"; "id"; "+"; "id"]).2 = Returned true.
Proof.
  intros Horder.
  destruct (items_order example_parser 1000 elements order
              iteration_order_elements Horder 100 example_built example_items)
    as (P & HP & _ & Ha & Hg); [vm_decide|].
  pose proof (conj Ha Hg : same_cells example_built P) as Hcells.
  exists P. split_and!; [exact HP| | |].
  - unfold parse. rewrite <- (parse_loop_same_cells _ _ _ _ _ _ Hcells).
    vm_decide.
  - rewrite Ha. vm_decide.
  - intros extra. unfold parse.
    rewrite <- (parse_loop_same_cells _ _ _ _ _ _ Hcells).
    assert ((parse_loop 15 (["id"; "*"; "id"; "+"; "id"] ++ ["$"])
                        example_built [St 0] 0).2 = Returned true) as H15
      by vm_decide.
    destruct (parse_loop 15 _ example_built [St 0] 0) as [P' o] eqn:Hrun.
    simpl in H15. subst o.
    by erewrite parse_loop_final; [|exact Hrun|].
Qed.

Lemma example_parse_accepts_witness :
  ∃ P,
    items example_parser elements 100 1000 = Some (Ok P) ∧
    (parse 14 P ["id"; "*"; "id"; "+"; "id"]).2
    = Running [St 3; Sym "S"; St 0] 5 ∧
    cell (action_table P) 3 "$" = Some accept ∧
    ∀ extra,
      (parse (15 + extra) P ["id"; "*"; "id"; "+"; "id"]).2 = Returned true.
Proof.
  apply (example_parse_accepts elements). intros X. reflexivity.
Defined.

(** * Further properties *)

(** ** Closure and goto as operations on item sets *)

Lemma closure_loop_least self fuel C Y :
  C ⊆ Y → (∀ it, it ∈ Y → expand self it ⊆ Y) →
  closure_loop self fuel C ⊆ Y.
Proof.
  revert C. induction fuel as [|fuel IH]; intros C HC HY; simpl; [done|].
  case_decide; [done|]. apply IH; [|done].
  apply union_least; [done|]. intros x Hx.
  apply elem_of_new_items in Hx as (_ & it & Hit & Hx).
  by apply (HY it); [apply HC|].
Qed.

Lemma closure_least self X Y :
  X ⊆ Y → (∀ it, it ∈ Y → expand self it ⊆ Y) → closure self X ⊆ Y.
Proof. apply closure_loop_least. Qed.

Lemma closure_mono self X Y : X ⊆ Y → closure self X ⊆ closure self Y.
Proof.
  intros HXY. apply closure_least.
  - etrans; [done|]. apply closure_extensive.
  - apply closure_closed.
Qed.

Lemma closure_union_eq self X Y :
  closure self (X ∪ Y) = closure self X ∪ closure self Y.
Proof.
  apply set_eq. intros x. split.
  - revert x. apply closure_least.
    + pose proof (closure_extensive self X). pose proof (closure_extensive self Y).
      set_solver.
    + intros it [Hit|Hit]%elem_of_union x Hx.
      * apply elem_of_union_l. by apply (closure_closed self X it).
      * apply elem_of_union_r. by apply (closure_closed self Y it).
  - intros [Hx|Hx]%elem_of_union; revert x Hx; apply closure_mono; set_solver.
Qed.

(** X1. [closure(X)] is the least set of items that contains [X] and is
    closed under the expansion of the loop: it contains [X], with every
    item it contains it holds the items [(N, p, 0)] the loop adds for it,
    and every set with these two properties includes it. *)
Theorem closure_least_closed (self : LRParser) (X : gset item) :
  X ⊆ closure self X ∧
  (∀ it, it ∈ closure self X → expand self it ⊆ closure self X) ∧
  (∀ Y, X ⊆ Y → (∀ it, it ∈ Y → expand self it ⊆ Y) →
        closure self X ⊆ Y).
Proof.
  split_and!.
  - apply closure_extensive.
  - apply closure_closed.
  - apply closure_least.
Qed.

(** X2. [closure] works item by item: the closure of a union is the union
    of the closures, and a larger set has a larger closure. *)
Theorem closure_union (self : LRParser) (X Y : gset item) :
  closure self (X ∪ Y) = closure self X ∪ closure self Y ∧
  (X ⊆ Y → closure self X ⊆ closure self Y).
Proof. split; [apply closure_union_eq|apply closure_mono]. Qed.

(** X3. What [closure] adds to its argument are items with the dot at
    position 0, of a production listed in the grammar under a declared
    non-terminal that stands right after the dot of an item of the
    result. *)
Theorem closure_added_items (self : LRParser) (X : gset item) (x : item) :
  x ∈ closure self X → x ∉ X →
  item_dot x = 0 ∧ item_lhs x ∈ non_terminals self ∧
  (∃ prods, grammar_get (grammar self) (item_lhs x) = Some prods ∧
            item_rhs x ∈ prods) ∧
  ∃ it, it ∈ closure self X ∧ next_symbol it = Some (item_lhs x).
Proof.
  intros Hx HX. apply closure_elem in Hx as [Hx|(it & Hit & Hx)]; [done|].
  apply elem_of_expand in Hx as (nxt & prods & p & Hnext & Hnt & Hg & Hp & ->).
  split_and!; [done|done|by exists prods|by exists it].
Qed.

Lemma closure_added_items_witness :
  item_dot ("F", ["id"], 0) = 0 ∧
  item_lhs ("F", ["id"], 0) ∈ non_terminals example_parser ∧
  (∃ prods,
     grammar_get (grammar example_parser) (item_lhs ("F", ["id"], 0))
     = Some prods ∧
     item_rhs ("F", ["id"], 0) ∈ prods) ∧
  ∃ it, it ∈ closure example_parser {[ ("S'", ["S"], 0) ]} ∧
        next_symbol it = Some (item_lhs ("F", ["id"], 0)).
Proof.
  apply (closure_added_items example_parser {[ ("S'", ["S"], 0) ]} ("F", ["id"], 0)).
  - vm_decide.
  - vm_decide.
Defined.

(** X4. The items of [goto(X, sym)] whose dot is not at the front are
    exactly the items of [X] that had [sym] right after the dot, with the
    dot moved over it. *)
Theorem goto_advanced_items (self : LRParser) (X : gset item) (sym : symbol)
    (lhs : symbol) (rhs : production) (d : nat) :
  (lhs, rhs, S d) ∈ goto self X sym ↔ (lhs, rhs, d) ∈ X ∧ rhs !! d = Some sym.
Proof.
  split.
  - apply goto_kernel_item.
  - intros [Hit Hd]. by apply (goto_advance self X sym (lhs, rhs, d)).
Qed.

Lemma goto_union_eq self X Y sym :
  goto self (X ∪ Y) sym = goto self X sym ∪ goto self Y sym.
Proof.
  unfold goto. rewrite <- closure_union_eq. f_equal.
  apply set_eq. intros x. rewrite elem_of_union, !elem_of_goto_kernel. set_solver.
Qed.

(** X5. [goto] works item by item: on a union it is the union of the two
    [goto]s, and a larger set of items has a larger [goto]. *)
Theorem goto_union (self : LRParser) (X Y : gset item) (sym : symbol) :
  goto self (X ∪ Y) sym = goto self X sym ∪ goto self Y sym ∧
  (X ⊆ Y → goto self X sym ⊆ goto self Y sym).
Proof.
  split; [apply goto_union_eq|]. intros HXY.
  replace Y with (X ∪ Y) by set_solver. rewrite goto_union_eq. set_solver.
Qed.

(** ** The states are numbered in the order they are found *)

Section Numbering.
Variable self : LRParser.
Variable X0 : gset item.

Lemma numbered_add_edge b i0 sym j :
  numbered self X0 b → sym ∈ terminals self ++ non_terminals self →
  numbered self X0
    (if decide (sym ∈ terminals self) then
       mkBuilder (b_states b) (b_count b) (b_mapping b) (b_queue b)
                 (dd_set (b_action b) i0 sym (shift j)) (b_goto b)
     else
       mkBuilder (b_states b) (b_count b) (b_mapping b) (b_queue b)
                 (b_action b) (dd_set (b_goto b) i0 sym j)).
Proof.
  intros [Hi Hl Hk] Hsym. case_decide as Ht; split; simpl; try done.
  intros i t j'. rewrite cell_dd_set. case_decide as Heq.
  - destruct Heq as [_ <-]. intros _.
    apply elem_of_app in Hsym as [?|?]; done.
  - apply Hk.
Qed.

Lemma items_symbol_numbered X i0 b sym :
  numbered self X0 b → b_states b !! i0 = Some X →
  sym ∈ terminals self ++ non_terminals self →
  numbered self X0 (items_symbol self X i0 b sym) ∧
  b_states (items_symbol self X i0 b sym) !! i0 = Some X.
Proof.
  intros Hn Hi0 Hsym. unfold items_symbol. case_decide as Hempty; [done|].
  destruct (b_mapping b !! goto self X sym) as [j|] eqn:Hm.
  - pose proof (numbered_add_edge b i0 sym j Hn Hsym) as Hn'.
    case_decide; (split; [exact Hn'|done]).
  - pose (b1 := mkBuilder (b_states b ++ [goto self X sym]) (S (b_count b))
                          (<[goto self X sym := S (b_count b)]> (b_mapping b))
                          (b_queue b ++ [goto self X sym])
                          (b_action b) (b_goto b)).
    assert (numbered self X0 b1) as Hn1.
    { destruct Hn as [Hi Hl Hk]. split; simpl; [by apply lookup_app_l_Some| |done].
      intros j Y HY. apply lookup_app_Some in HY as [HY|[Hlen HY]].
      - destruct (Hl _ _ HY) as (i & Z & s & ? & ? & ? & ?).
        exists i, Z, s. split_and!; try done. by apply lookup_app_l_Some.
      - apply list_lookup_singleton_Some in HY as [_ <-].
        exists i0, X, sym. split_and!; try done.
        + apply lookup_lt_Some in Hi0. lia.
        + by apply lookup_app_l_Some. }
    pose proof (numbered_add_edge b1 i0 sym (S (b_count b)) Hn1 Hsym) as Hn'.
    assert (b_states b1 !! i0 = Some X) by (by apply lookup_app_l_Some).
    case_decide; (split; [exact Hn'|done]).
Qed.

Lemma items_fold_numbered X i0 syms b :
  numbered self X0 b → b_states b !! i0 = Some X →
  (∀ sym, sym ∈ syms → sym ∈ terminals self ++ non_terminals self) →
  numbered self X0 (foldl (items_symbol self X i0) b syms).
Proof.
  revert b. induction syms as [|sym syms IH]; intros b Hn Hi0 Hsyms; [done|].
  simpl. destruct (items_symbol_numbered X i0 b sym Hn Hi0) as [Hn' Hi0'].
  { apply Hsyms, list_elem_of_here. }
  apply IH; [done..|]. intros s Hs. by apply Hsyms, list_elem_of_further.
Qed.

Lemma items_dequeue_numbered b b' :
  binv self ∅ [] b → numbered self X0 b →
  items_dequeue self b = Some (Ok b') → numbered self X0 b'.
Proof.
  intros Hb Hn. unfold items_dequeue.
  destruct (b_queue b) as [|X queue] eqn:Hq; [done|].
  destruct (b_mapping b !! X) as [i0|] eqn:Hm; [|done]. intros [= <-].
  apply (bi_mapping self _ _ _ Hb) in Hm.
  apply items_fold_numbered.
  - destruct Hn. by split.
  - exact Hm.
  - by intros sym Hs.
Qed.

Lemma items_loop_numbered fuel b b' :
  binv self ∅ [] b → numbered self X0 b →
  items_loop self fuel b = Some (Ok b') → numbered self X0 b'.
Proof.
  revert b. induction fuel as [|fuel IH]; intros b Hb Hn; simpl.
  - destruct (items_dequeue self b) as [[b1|e]|] eqn:Hd; try done.
    by intros [= <-].
  - destruct (items_dequeue self b) as [[b1|e]|] eqn:Hd; try done.
    + destruct (items_dequeue_binv self _ _ Hb Hd) as (b2 & [= <-] & Hb').
      apply IH; [done|]. exact (items_dequeue_numbered b b1 Hb Hn Hd).
    + by intros [= <-].
Qed.

End Numbering.

(** More fuel than the loop uses changes nothing. *)
Lemma items_loop_more self fuel extra b r :
  items_loop self fuel b = Some r → items_loop self (fuel + extra) b = Some r.
Proof.
  revert b. induction fuel as [|fuel IH]; intros b; simpl.
  - destruct (items_dequeue self b) as [[b1|e]|] eqn:Hd; try done;
      destruct extra; simpl; by rewrite Hd.
  - destruct (items_dequeue self b) as [[b1|e]|]; try done. apply IH.
Qed.

Lemma items_more self order fuel extra depth r :
  items self order fuel depth = Some r →
  items self order (fuel + extra) depth = Some r.
Proof.
  unfold items. destruct (initial_item self) as [it|e]; [|done].
  destruct (items_loop self fuel _) as [r'|] eqn:Hl; [|done].
  by rewrite (items_loop_more _ _ extra _ _ Hl).
Qed.

Section BuiltMore.
Variables (g : list (symbol * list production)) (ts nts : list symbol).
Variable start : symbol.
Variable order : gset item → list item.
Variables (fuel depth : nat) (P : LRParser).
Hypothesis Hitems : items (init g ts nts start) order fuel depth = Some (Ok P).

Lemma items_builder_numbered :
  ∃ p rest b,
    grammar_get g start = Some (p :: rest) ∧
    binv (init g ts nts start) ∅ [] b ∧ b_queue b = [] ∧
    numbered (init g ts nts start)
             (closure (init g ts nts start) {[ (start, p, 0) ]}) b ∧
    items_reduce (init g ts nts start) order depth (b_states b) (b_action b)
      = Ok (action_table P) ∧
    P = mkLRParser g (ts ++ ["$"]) nts start (action_table P)
                   (b_goto b) (b_states b) (b_count b).
Proof.
  unfold items in Hitems. unfold initial_item in Hitems.
  cbn [grammar start_symbol init] in Hitems.
  destruct (grammar_get g start) as [[|p rest]|] eqn:Hg; try done.
  exists p, rest.
  assert (initial_item (init g ts nts start) = Ok (start, p, 0)) as Hit.
  { unfold initial_item. cbn [grammar start_symbol init]. by rewrite Hg. }
  pose proof (initial_binv _ _ Hit) as Hb0.
  change (states (init g ts nts start) ++ ?l) with l in Hitems.
  change (state_count (init g ts nts start)) with 0 in Hitems.
  change (action_table (init g ts nts start)) with (∅ : table action) in Hitems.
  change (goto_table (init g ts nts start)) with (∅ : table nat) in Hitems.
  destruct (items_loop _ fuel _) as [[b|e]|] eqn:Hloop; try done.
  destruct (items_loop_binv _ _ _ _ Hb0 Hloop) as (b' & [= <-] & Hb & Hq).
  assert (numbered (init g ts nts start)
            (closure (init g ts nts start) {[ (start, p, 0) ]}) b) as Hn.
  { eapply items_loop_numbered; [exact Hb0| |exact Hloop].
    split; simpl; [done|done|]. intros i t j. by rewrite cell_empty. }
  exists b. destruct (items_reduce _ order depth _ _) as [tbl|] eqn:Hr;
    simpl in Hitems; [|done].
  injection Hitems as <-. done.
Qed.

Lemma built_initial_state :
  ∃ p rest,
    grammar_get g start = Some (p :: rest) ∧
    states P !! 0 = Some (closure (init g ts nts start) {[ (start, p, 0) ]}).
Proof.
  destruct items_builder_numbered as (p & rest & b & Hg & _ & _ & Hn & _ & ->).
  exists p, rest. split; [done|]. apply (nb_initial _ _ _ Hn).
Qed.

Lemma built_nodup : NoDup (states P).
Proof.
  destruct items_builder_numbered as (p & rest & b & _ & Hb & _ & _ & _ & ->).
  simpl. apply NoDup_alt. intros i j X Hi Hj.
  apply (bi_mapping _ _ _ _ Hb) in Hi, Hj. congruence.
Qed.

Lemma built_closed_under_goto i X sym :
  states P !! i = Some X → sym ∈ (ts ++ ["$"]) ++ nts →
  goto (init g ts nts start) X sym ≠ ∅ →
  ∃ j, states P !! j = Some (goto (init g ts nts start) X sym) ∧
       if decide (sym ∈ ts ++ ["$"])
       then ∃ b, items_reduce (init g ts nts start) order depth (states P) b
                  = Ok (action_table P) ∧ cell b i sym = Some (shift j)
       else cell (goto_table P) i sym = Some j.
Proof.
  destruct items_builder_numbered as (p & rest & b & _ & Hb & Hq & _ & Hr & ->).
  simpl. intros Hi Hs Hne.
  destruct (bi_edges _ _ _ _ Hb _ _ _ Hi Hs Hne)
    as [[Hin|[_ Hin]]|(j & Hj & Hc)].
  - rewrite Hq in Hin. by apply not_elem_of_nil in Hin.
  - by apply not_elem_of_nil in Hin.
  - exists j. split; [done|]. cbn [terminals init] in Hc.
    case_decide; [|done]. by exists (b_action b).
Qed.

End BuiltMore.

(** ** The canonical collection *)

Lemma length_sublists {A} (l : list A) : length (sublists l) = 2 ^ length l.
Proof.
  induction l as [|x l IH]; simpl; [done|].
  rewrite length_app, length_fmap, IH. lia.
Qed.

(** X6. The [while states_queue] loop of [items] comes to an end: after
    at most [2 ^ n] passes, [n] the number of items of the grammar, the
    queue is empty (or an exception has been raised), and more passes
    change nothing. *)
Theorem items_terminates (g : list (symbol * list production))
    (ts nts : list symbol) (start : symbol) (order : gset item → list item)
    (fuel depth : nat) :
  2 ^ length (all_items (init g ts nts start)) ≤ fuel →
  ∃ r, items (init g ts nts start) order fuel depth = Some r ∧
       ∀ extra, items (init g ts nts start) order (fuel + extra) depth = Some r.
Proof.
  intros Hfuel. rewrite <- length_sublists in Hfuel.
  pose proof (items_returns g ts nts start order fuel depth Hfuel) as Hr.
  destruct (items _ order fuel depth) as [r|] eqn:Hi; [|done].
  exists r. split; [done|]. intros extra. by apply items_more.
Qed.

Lemma items_terminates_witness :
  ∃ r, items marked_parser elements 32 10 = Some r ∧
       ∀ extra, items marked_parser elements (32 + extra) 10 = Some r.
Proof.
  apply (items_terminates [ ("S'", [["S"; "$"]]); ("S", [["a"]]) ] ["a"] ["S"] "S'").
  vm_compute. lia.
Defined.

Section Canonical.
Variables (g : list (symbol * list production)) (ts nts : list symbol).
Variable start : symbol.
Variable order : gset item → list item.
Variables (fuel depth : nat) (P : LRParser).
Hypothesis Hitems : items (init g ts nts start) order fuel depth = Some (Ok P).

Lemma built_canonical p rest X :
  grammar_get g start = Some (p :: rest) →
  X ∈ states P ↔
  canonical (init g ts nts start)
            (closure (init g ts nts start) {[ (start, p, 0) ]}) X.
Proof.
  intros Hg.
  destruct (items_builder_numbered _ _ _ _ _ _ _ _ Hitems)
    as (p' & rest' & b & Hg' & Hb & Hq & Hn & Hr & HP).
  assert (p' = p) as -> by congruence.
  assert (states P = b_states b) as Hst by (by rewrite HP).
  split.
  - intros [j Hj]%list_elem_of_lookup. rewrite Hst in Hj.
    revert X Hj. induction (lt_wf j) as [j _ IH]. intros X Hj.
    destruct j as [|j].
    + rewrite (nb_initial _ _ _ Hn) in Hj. injection Hj as <-. constructor.
    + destruct (nb_later _ _ _ Hn _ _ Hj) as (i & Y & sym & Hij & Hi & Hsym & ->).
      constructor; [apply (IH i); [lia|done]|done|].
      apply (so_nonempty _ _ (bi_states _ _ _ _ Hb _ _ Hj)).
  - induction 1 as [|Y sym HY IH Hsym Hne].
    + apply list_elem_of_lookup. exists 0. rewrite Hst.
      apply (nb_initial _ _ _ Hn).
    + apply list_elem_of_lookup in IH as [i Hi].
      destruct (built_closed_under_goto _ _ _ _ _ _ _ _ Hitems _ _ _ Hi Hsym Hne)
        as (j & Hj & _).
      apply list_elem_of_lookup. by exists j.
Qed.

End Canonical.

(** X7. After [items] the list [states] is the canonical collection:
    state 0 is the closure of the item of the first production of the
    start symbol, no item set is listed twice, [state_count] is the last
    index, the listed sets are exactly those reached from state 0 by
    non-empty [goto]s on the declared symbols, and each state but the
    first is the [goto] of a state listed before it. *)
Theorem states_canonical_collection (g : list (symbol * list production))
    (ts nts : list symbol) (start : symbol) (order : gset item → list item)
    (fuel depth : nat) (P : LRParser) :
  items (init g ts nts start) order fuel depth = Some (Ok P) →
  ∃ p rest,
    grammar_get g start = Some (p :: rest) ∧
    states P !! 0 = Some (closure P {[ (start, p, 0) ]}) ∧
    NoDup (states P) ∧
    length (states P) = S (state_count P) ∧
    (∀ X, X ∈ states P ↔ canonical P (closure P {[ (start, p, 0) ]}) X) ∧
    (∀ j X, states P !! S j = Some X →
            ∃ i Y sym, i ≤ j ∧ states P !! i = Some Y ∧ X = goto P Y sym).
Proof.
  intros Hitems.
  destruct (items_builder_numbered _ _ _ _ _ _ _ _ Hitems)
    as (p & rest & b & Hg & Hb & Hq & Hn & Hr & HP).
  assert (∀ X, closure P X = closure (init g ts nts start) X) as Hcl.
  { intros X. apply closure_ext; by rewrite HP. }
  assert (∀ X sym, goto P X sym = goto (init g ts nts start) X sym) as Hgo.
  { intros X sym. apply goto_ext; by rewrite HP. }
  assert (∀ X0 X, canonical P X0 X ↔ canonical (init g ts nts start) X0 X) as Hca.
  { intros X0 X. split; induction 1 as [|Y sym HY IH Hsym Hne]; try constructor.
    - rewrite Hgo. constructor; [done| |by rewrite <- Hgo].
      by rewrite HP in Hsym.
    - rewrite <- Hgo. constructor; [done| |by rewrite Hgo].
      by rewrite HP. }
  exists p, rest. split_and!.
  - done.
  - rewrite Hcl, HP. apply (nb_initial _ _ _ Hn).
  - by eapply built_nodup.
  - rewrite HP. simpl. symmetry. apply (bi_count _ _ _ _ Hb).
  - intros X. rewrite Hcl, Hca. by eapply built_canonical.
  - intros j X Hj. rewrite HP in Hj. simpl in Hj.
    destruct (nb_later _ _ _ Hn _ _ Hj) as (i & Y & sym & Hij & Hi & _ & ->).
    exists i, Y, sym. rewrite Hgo. split_and!; [done| |done].
    by rewrite HP.
Qed.

Lemma states_canonical_collection_witness :
  ∃ p rest,
    grammar_get example_grammar "S'" = Some (p :: rest) ∧
    states example_built !! 0 = Some (closure example_built {[ ("S'", p, 0) ]}) ∧
    NoDup (states example_built) ∧
    length (states example_built) = S (state_count example_built) ∧
    (∀ X, X ∈ states example_built ↔
          canonical example_built (closure example_built {[ ("S'", p, 0) ]}) X) ∧
    (∀ j X, states example_built !! S j = Some X →
            ∃ i Y sym, i ≤ j ∧ states example_built !! i = Some Y ∧
                       X = goto example_built Y sym).
Proof.
  apply (states_canonical_collection example_grammar ["+"; "*"; "("; ")"; "id"]
           ["S"; "E"; "T"; "F"] "S'" elements 100 1000).
  apply example_items.
Defined.

(** ** FIRST and FOLLOW as sets *)

(** A loop that only adds to its accumulator returns the accumulator and
    what each pass contributes. *)
Lemma rfold_contributions {A} (body : gset symbol → A → result (gset symbol))
    (contrib : A → symbol → Prop) (l : list A) :
  (∀ a acc s, a ∈ l → body acc a = Ok s →
              ∀ x, x ∈ s ↔ x ∈ acc ∨ contrib a x) →
  ∀ acc s, rfold body acc l = Ok s →
           ∀ x, x ∈ s ↔ x ∈ acc ∨ ∃ a, a ∈ l ∧ contrib a x.
Proof.
  induction l as [|a l IH]; intros Hbody acc s; simpl.
  - intros [= <-] x. split; [by left|]. intros [?|(a & Ha & _)]; [done|].
    by apply not_elem_of_nil in Ha.
  - destruct (body acc a) as [acc'|e] eqn:Ha; [|done]. simpl. intros Hr x.
    rewrite (IH (λ a' acc0 s0 Hin, Hbody a' acc0 s0 (list_elem_of_further _ _ _ Hin))
                _ _ Hr x).
    rewrite (Hbody a acc acc' (list_elem_of_here _ _) Ha x).
    split.
    + intros [[?|?]|(a' & Ha' & ?)]; [by left|right; exists a|right; exists a'];
        split; try done; [apply list_elem_of_here|by apply list_elem_of_further].
    + intros [?|(a' & [->|Ha']%elem_of_cons & ?)]; [by left; left|by left; right|].
      right. by exists a'.
Qed.

Section Sets.
Variable self : LRParser.

Lemma leads_terminals N x : leads self N x → x ∈ terminals self.
Proof. induction 1; done. Qed.

Lemma first_leads depth : ∀ N s,
  first self depth N = Ok s → ∀ x, x ∈ s ↔ leads self N x.
Proof.
  induction depth as [|depth IH]; intros N s; [done|].
  rewrite first_unfold.
  destruct (grammar_get (grammar self) N) as [prods|] eqn:Hg; [|done].
  intros Hr x.
  pose proof (λ H, rfold_contributions _
             (λ p x, ∃ sym rest, p = sym :: rest ∧
                     ((sym ∈ terminals self ∧ x = sym) ∨
                      (sym ∉ terminals self ∧ leads self sym x)))
             prods H ∅ s Hr x) as Hc.
  rewrite Hc; clear Hc; last first.
  { intros [|sym rest] acc s' _; [done|]. case_decide as Ht.
    - intros [= <-] y. rewrite elem_of_union, elem_of_singleton. naive_solver.
    - destruct (first self depth sym) as [s1|] eqn:Hf; [|done].
      simpl. intros [= <-] y. rewrite elem_of_union, (IH _ _ Hf y). naive_solver. }
  split.
  - intros [Hx|(p & Hp & sym & rest & -> & [[Ht ->]|[Ht Hl]])].
    + by apply elem_of_empty in Hx.
    + by eapply leads_terminal.
    + by eapply leads_through.
  - intros Hl. right. inversion Hl as [N' prods' x' rest Hg' Hp Ht|
                                         N' prods' sym rest x' Hg' Hp Ht Hl']; subst;
      assert (prods' = prods) as -> by congruence.
    + exists (x :: rest). split; [done|]. exists x, rest. naive_solver.
    + exists (sym :: rest). split; [done|]. exists sym, rest. naive_solver.
Qed.

Lemma follow_unfold depth N :
  follow self (S depth) N =
  rfold (λ follow_set '(lhs, productions),
           rfold (follow_scan self (first self depth) (follow self depth) N lhs)
                 follow_set productions)
        (if decide (N = start_symbol self) then {["$"]} else ∅) (grammar self).
Proof. reflexivity. Qed.

(** What the symbols [after] an occurrence of a non-terminal in a
    production of [lhs] add to its FOLLOW set. *)
Lemma follow_scan_follows depth N lhs :
  (∀ s, follow self depth lhs = Ok s → ∀ x, x ∈ s ↔ follows self lhs x) →
  ∀ (suf : list symbol) acc s,
    follow_scan self (first self depth) (follow self depth) N lhs acc suf
      = Ok s →
    ∀ x, x ∈ s ↔
         x ∈ acc ∨
         ∃ before after, suf = before ++ N :: after ∧
           match after with
           | nxt :: _ => (nxt ∈ terminals self ∧ x = nxt) ∨
                         (nxt ∉ terminals self ∧ leads self nxt x)
           | [] => follows self lhs x
           end.
Proof.
  intros IHf. induction suf as [|sym rest IH]; intros acc s; simpl.
  - intros [= <-] x. split; [by left|]. intros [?|(u & v & Heq & _)]; [done|].
    by destruct u.
  - set (tail := λ (after : list symbol) x,
           match after with
           | nxt :: _ => (nxt ∈ terminals self ∧ x = nxt) ∨
                         (nxt ∉ terminals self ∧ leads self nxt x)
           | [] => follows self lhs x
           end).
    assert (∀ acc', (if decide (sym = N) then
                match rest with
                | nxt :: _ =>
                    if decide (nxt ∈ terminals self)
                    then Ok (acc ∪ {[nxt]})
                    else s ← first self depth nxt; Ok (acc ∪ s)
                | [] => s ← follow self depth lhs; Ok (acc ∪ s)
                end
              else Ok acc) = Ok acc' →
            ∀ x, x ∈ acc' ↔ x ∈ acc ∨ (sym = N ∧ tail rest x)) as Hhead.
    { intros acc'. case_decide as Hsym; [|intros [= <-] x; naive_solver].
      destruct rest as [|nxt rest'].
      - destruct (follow self depth lhs) as [s1|] eqn:Hf; [|done].
        simpl. intros [= <-] x. rewrite elem_of_union, (IHf _ eq_refl x). naive_solver.
      - case_decide as Ht.
        + intros [= <-] x. rewrite elem_of_union, elem_of_singleton.
          unfold tail. naive_solver.
        + destruct (first self depth nxt) as [s1|] eqn:Hf; [|done].
          simpl. intros [= <-] x.
          rewrite elem_of_union, (first_leads _ _ _ Hf x). unfold tail.
          naive_solver. }
    match goal with |- (?m ≫= _) = _ → _ => destruct m as [acc'|e] eqn:Hacc end;
      [|done].
    simpl. intros Hr x. rewrite (IH _ _ Hr x), (Hhead _ eq_refl x).
    fold (tail). split.
    + intros [[?|[-> Ht]]|(u & v & -> & Ht)]; [by left| |].
      * right. by exists [], rest.
      * right. by exists (sym :: u), v.
    + intros [?|(u & v & Heq & Ht)]; [by left; left|].
      destruct u as [|y u]; simpl in Heq; injection Heq as -> ->.
      * left. by right.
      * right. by exists u, v.
Qed.

Lemma follow_follows depth : ∀ N s,
  follow self depth N = Ok s → ∀ x, x ∈ s ↔ follows self N x.
Proof.
  induction depth as [|depth IH]; intros N s; [done|].
  rewrite follow_unfold. intros Hr x.
  pose proof (λ H, rfold_contributions _
             (λ (e : symbol * list production) x,
                ∃ p before after, p ∈ e.2 ∧ p = before ++ N :: after ∧
                  match after with
                  | nxt :: _ => (nxt ∈ terminals self ∧ x = nxt) ∨
                                (nxt ∉ terminals self ∧ leads self nxt x)
                  | [] => follows self e.1 x
                  end)
             (grammar self) H _ s Hr x) as Hc.
  rewrite Hc; clear Hc; last first.
  { intros [lhs prods] acc s' _ Hr' y. simpl.
    pose proof (λ H, rfold_contributions _
               (λ p x, ∃ before after, p = before ++ N :: after ∧
                  match after with
                  | nxt :: _ => (nxt ∈ terminals self ∧ x = nxt) ∨
                                (nxt ∉ terminals self ∧ leads self nxt x)
                  | [] => follows self lhs x
                  end)
               prods H acc s' Hr' y) as Hc.
    rewrite Hc; clear Hc; [naive_solver|].
    intros p acc1 s1 _. apply follow_scan_follows. apply IH. }
  split.
  - intros [Hx|([lhs prods] & He & p & u & v & Hp & -> & Ht)].
    + case_decide as Hs; [|by apply elem_of_empty in Hx].
      apply elem_of_singleton in Hx as ->. subst N. constructor.
    + simpl in *. destruct v as [|nxt v].
      * by eapply follows_end.
      * destruct Ht as [[Ht ->]|[Ht Hl]].
        -- by eapply follows_terminal.
        -- by eapply follows_first.
  - intros Hf. inversion Hf as [Hs|N' lhs prods u nxt v He Hp Ht|
                                 N' lhs prods u nxt v x' He Hp Ht Hl|
                                 N' lhs prods u x' He Hp Hf']; subst.
    + left. rewrite decide_True by done. by apply elem_of_singleton.
    + right. exists (lhs, prods). split; [done|].
      exists (u ++ N :: x :: v), u, (x :: v). naive_solver.
    + right. exists (lhs, prods). split; [done|].
      exists (u ++ N :: nxt :: v), u, (nxt :: v). naive_solver.
    + right. exists (lhs, prods). split; [done|].
      exists (u ++ [N]), u, []. naive_solver.
Qed.

Lemma follows_terminals N x :
  follows self N x → x ∈ terminals self ∨ x = "$".
Proof.
  induction 1; [by right|by left| |done]. left. by eapply leads_terminals.
Qed.

End Sets.

(** ** What the tables hold *)

(** X15. When [first(N)] returns, its result is the set of terminals that
    begin a chain of leading symbols from [N]; all its members are
    terminals, and the result does not depend on the recursion depth
    available. *)
Theorem first_leading_terminals (self : LRParser) (depth : nat)
    (non_terminal : symbol) (s : gset symbol) :
  first self depth non_terminal = Ok s →
  (∀ x, x ∈ s ↔ leads self non_terminal x) ∧
  (∀ x, x ∈ s → x ∈ terminals self) ∧
  (∀ depth' s', first self depth' non_terminal = Ok s' → s' = s).
Proof.
  intros Hf. split_and!.
  - by apply first_leads with depth.
  - intros x Hx. apply (leads_terminals self non_terminal).
    by apply (first_leads self depth non_terminal s).
  - intros depth' s' Hf'. apply set_eq. intros x.
    by rewrite (first_leads _ _ _ _ Hf x), (first_leads _ _ _ _ Hf' x).
Qed.

Lemma first_leading_terminals_witness :
  (∀ x, x ∈ ({[ "("; "id" ]} : gset symbol) ↔ leads example_parser "F" x) ∧
  (∀ x, x ∈ ({[ "("; "id" ]} : gset symbol) → x ∈ terminals example_parser) ∧
  (∀ depth' s', first example_parser depth' "F" = Ok s' → s' = {[ "("; "id" ]}).
Proof.
  apply (first_leading_terminals example_parser 5 "F"). vm_decide.
Defined.

(** X16. When [follow(N)] returns, its result is the set described by the
    four cases of the loop: ['$'] for the start symbol, a terminal right
    after an occurrence of [N], the FIRST set of a non-terminal right after
    one, and the FOLLOW set of the left-hand side of a production that [N]
    ends.  Its members are terminals or ['$'], and the result does not
    depend on the recursion depth available. *)
Theorem follow_following_terminals (self : LRParser) (depth : nat)
    (non_terminal : symbol) (s : gset symbol) :
  follow self depth non_terminal = Ok s →
  (∀ x, x ∈ s ↔ follows self non_terminal x) ∧
  (∀ x, x ∈ s → x ∈ terminals self ∨ x = "$") ∧
  (non_terminal = start_symbol self → "$" ∈ s) ∧
  (∀ depth' s', follow self depth' non_terminal = Ok s' → s' = s).
Proof.
  intros Hf. split_and!.
  - by apply follow_follows with depth.
  - intros x Hx. apply (follows_terminals self non_terminal).
    by apply (follow_follows self depth non_terminal s).
  - intros ->. apply (follow_follows self depth _ s Hf). constructor.
  - intros depth' s' Hf'. apply set_eq. intros x.
    by rewrite (follow_follows _ _ _ _ Hf x), (follow_follows _ _ _ _ Hf' x).
Qed.

Lemma follow_following_terminals_witness :
  (∀ x, x ∈ ({[ "+"; "*"; ")"; "$" ]} : gset symbol) ↔
        follows example_parser "F" x) ∧
  (∀ x, x ∈ ({[ "+"; "*"; ")"; "$" ]} : gset symbol) →
        x ∈ terminals example_parser ∨ x = "$") ∧
  ("F" = start_symbol example_parser →
   "$" ∈ ({[ "+"; "*"; ")"; "$" ]} : gset symbol)) ∧
  (∀ depth' s', follow example_parser depth' "F" = Ok s' →
                s' = {[ "+"; "*"; ")"; "$" ]}).
Proof.
  apply (follow_following_terminals example_parser 10 "F"). vm_decide.
Defined.

Section Keys.
Variables (g : list (symbol * list production)) (ts nts : list symbol).
Variable start : symbol.
Variable order : gset item → list item.
Variables (fuel depth : nat) (P : LRParser).
Hypothesis Hitems : items (init g ts nts start) order fuel depth = Some (Ok P).

Lemma item_targets_terminal it t :
  item_targets (init g ts nts start) depth it t → t ∈ ts ++ ["$"].
Proof.
  intros [_ Ht]. case_decide.
  - subst t. apply elem_of_app. right. apply list_elem_of_here.
  - destruct (follow _ depth (item_lhs it)) as [fs|] eqn:Hf; [|done].
    apply (follow_follows _ _ _ _ Hf) in Ht.
    apply follows_terminals in Ht as [Ht| ->]; [done|].
    apply elem_of_app. right. apply list_elem_of_here.
Qed.

Lemma built_action_key i t a :
  cell (action_table P) i t = Some a →
  is_Some (states P !! i) ∧ t ∈ ts ++ ["$"].
Proof.
  intros [(j & X & _ & Ht & Hi & _)|(X & it & Hi & _ & Ht & _)]%
    (built_action _ _ _ _ _ _ _ _ Hitems).
  - done.
  - split; [done|]. by eapply item_targets_terminal.
Qed.

Lemma built_goto_key i t j :
  cell (goto_table P) i t = Some j → t ∈ nts.
Proof.
  destruct (items_builder_numbered _ _ _ _ _ _ _ _ Hitems)
    as (p & rest & b & _ & _ & _ & Hn & _ & ->).
  simpl. apply (nb_goto_keys _ _ _ Hn).
Qed.

End Keys.

(** X12. The tables after [items] are keyed by what they should be: action
    rows and goto rows are numbers of listed states, action columns are
    terminals, goto columns are declared non-terminals that are not
    terminals, and every state number stored in a cell is the number of a
    listed state. *)
Theorem table_keys (g : list (symbol * list production))
    (ts nts : list symbol) (start : symbol) (order : gset item → list item)
    (fuel depth : nat) (P : LRParser) :
  items (init g ts nts start) order fuel depth = Some (Ok P) →
  (∀ i t a, cell (action_table P) i t = Some a →
            i < length (states P) ∧ t ∈ terminals P ∧
            ∀ j, a = shift j → j < length (states P)) ∧
  (∀ i t j, cell (goto_table P) i t = Some j →
            i < length (states P) ∧ j < length (states P) ∧
            t ∈ non_terminals P ∧ t ∉ terminals P).
Proof.
  intros Hitems.
  rewrite (built_terminals _ _ _ _ _ _ _ _ Hitems).
  rewrite (built_non_terminals _ _ _ _ _ _ _ _ Hitems).
  split.
  - intros i t a Ha.
    destruct (built_action_key _ _ _ _ _ _ _ _ Hitems _ _ _ Ha) as [Hi Ht].
    split_and!; [by apply lookup_lt_is_Some|done|]. intros j ->.
    destruct (built_shift _ _ _ _ _ _ _ _ Hitems _ _ _ Ha) as (X & _ & _ & _ & Hj).
    by apply lookup_lt_Some in Hj.
  - intros i t j Hc.
    destruct (built_goto_cell _ _ _ _ _ _ _ _ Hitems _ _ _ Hc)
      as (X & Ht & Hi & _ & Hj).
    split_and!; [by apply lookup_lt_Some in Hi|by apply lookup_lt_Some in Hj| |done].
    by eapply built_goto_key.
Qed.

Lemma table_keys_witness :
  (∀ i t a, cell (action_table example_built) i t = Some a →
            i < length (states example_built) ∧ t ∈ terminals example_built ∧
            ∀ j, a = shift j → j < length (states example_built)) ∧
  (∀ i t j, cell (goto_table example_built) i t = Some j →
            i < length (states example_built) ∧ j < length (states example_built) ∧
            t ∈ non_terminals example_built ∧ t ∉ terminals example_built).
Proof.
  apply (table_keys example_grammar ["+"; "*"; "("; ")"; "id"]
           ["S"; "E"; "T"; "F"] "S'" elements 100 1000).
  apply example_items.
Defined.

(** X9. The goto table after [items]: the cell [(i, A)] holds [j] exactly
    when [A] is a declared non-terminal that is not also a terminal,
    [goto(states[i], A)] is not empty and is state [j]. *)
Theorem goto_table_cells (g : list (symbol * list production))
    (ts nts : list symbol) (start : symbol) (order : gset item → list item)
    (fuel depth : nat) (P : LRParser) (i j : nat) (A : symbol) :
  items (init g ts nts start) order fuel depth = Some (Ok P) →
  cell (goto_table P) i A = Some j ↔
  A ∈ non_terminals P ∧ A ∉ terminals P ∧
  ∃ X, states P !! i = Some X ∧ goto P X A ≠ ∅ ∧
       states P !! j = Some (goto P X A).
Proof.
  intros Hitems.
  rewrite (built_terminals _ _ _ _ _ _ _ _ Hitems).
  rewrite (built_non_terminals _ _ _ _ _ _ _ _ Hitems).
  setoid_rewrite (built_goto _ _ _ _ _ _ _ _ Hitems).
  split.
  - intros Hc.
    destruct (built_goto_cell _ _ _ _ _ _ _ _ Hitems _ _ _ Hc)
      as (X & Ht & Hi & Hne & Hj).
    split_and!; [by eapply built_goto_key|done|by exists X].
  - intros (HA & Ht & X & Hi & Hne & Hj).
    destruct (built_goto_edge _ _ _ _ _ _ _ _ Hitems _ _ _ Hi HA Ht Hne)
      as (j' & Hj' & Hc).
    replace j with j'; [done|].
    eapply NoDup_lookup; [|exact Hj'|exact Hj].
    by eapply built_nodup.
Qed.

Lemma goto_table_cells_witness :
  cell (goto_table example_built) 0 "E" = Some 4 ↔
  "E" ∈ non_terminals example_built ∧ "E" ∉ terminals example_built ∧
  ∃ X, states example_built !! 0 = Some X ∧ goto example_built X "E" ≠ ∅ ∧
       states example_built !! 4 = Some (goto example_built X "E").
Proof.
  apply (goto_table_cells example_grammar ["+"; "*"; "("; ")"; "id"]
           ["S"; "E"; "T"; "F"] "S'" elements 100 1000).
  apply example_items.
Defined.

(** X10. Shifts after [items]: when [goto(states[i], t)] is not empty for
    a terminal [t], it is a state [j] of the list; the cell [(i, t)] holds
    [('shift', j)] when no complete item of the state writes under [t],
    and never holds a shift when one does (the second loop overwrites
    it). *)
Theorem shift_cells (g : list (symbol * list production))
    (ts nts : list symbol) (start : symbol) (order : gset item → list item)
    (fuel depth : nat) (P : LRParser) (i : nat) (X : gset item) (t : symbol) :
  iteration_order order →
  items (init g ts nts start) order fuel depth = Some (Ok P) →
  states P !! i = Some X →
  t ∈ terminals P →
  goto P X t ≠ ∅ →
  (∃ j, states P !! j = Some (goto P X t) ∧
        ((∀ it, it ∈ X → ¬ item_targets (init g ts nts start) depth it t) →
         cell (action_table P) i t = Some (shift j))) ∧
  ((∃ it, it ∈ X ∧ item_targets (init g ts nts start) depth it t) →
   ∀ j, cell (action_table P) i t ≠ Some (shift j)).
Proof.
  intros Horder Hitems Hi Ht Hne.
  rewrite (built_terminals _ _ _ _ _ _ _ _ Hitems) in Ht.
  rewrite (built_goto _ _ _ _ _ _ _ _ Hitems) in *.
  split.
  - destruct (built_closed_under_goto _ _ _ _ _ _ _ _ Hitems i X t Hi)
      as (j & Hj & Hc); [apply elem_of_app; by left|done|].
    rewrite decide_True in Hc by done. destruct Hc as (tbl & Hr & Hc).
    exists j. split; [done|]. intros Hno.
    rewrite <- Hc. eapply items_reduce_untouched; [exact Hr|].
    intros Y it HY Hit. assert (Y = X) as -> by congruence.
    apply Hno. by apply (iteration_order_elem order).
  - intros (it & Hit & Htg) j Hc.
    destruct (list_last_such (λ it', item_targets (init g ts nts start) depth it' t)
                (order X)) as (before & last & after & Ho & Hl & Hafter).
    { exists it. split; [|done]. by apply (iteration_order_elem order). }
    destruct (items_builder _ _ _ _ _ _ _ _ Hitems) as (b & _ & _ & Hr & HP).
    assert (states P = b_states b) as Hst by (by rewrite HP).
    rewrite Hst in Hi.
    rewrite (items_reduce_last _ _ _ _ _ _ _ _ _ _ _ _ Hr Hi Ho Hl Hafter) in Hc.
    unfold item_action in Hc. by case_decide.
Qed.

Lemma shift_cells_witness :
  (∃ j, states example_built !! j
        = Some (goto example_built
                     (closure example_parser {[ ("S'", ["S"], 0) ]}) "id") ∧
        ((∀ it, it ∈ closure example_parser {[ ("S'", ["S"], 0) ]} →
                ¬ item_targets example_parser 1000 it "id") →
         cell (action_table example_built) 0 "id" = Some (shift j))) ∧
  ((∃ it, it ∈ closure example_parser {[ ("S'", ["S"], 0) ]} ∧
          item_targets example_parser 1000 it "id") →
   ∀ j, cell (action_table example_built) 0 "id" ≠ Some (shift j)).
Proof.
  apply (shift_cells example_grammar ["+"; "*"; "("; ")"; "id"]
           ["S"; "E"; "T"; "F"] "S'" elements 100 1000).
  - apply iteration_order_elements.
  - apply example_items.
  - vm_decide.
  - vm_decide.
  - vm_decide.
Defined.

(** ** Failures of the construction; iteration order; production index *)

Lemma rfold_recursion_only {A B} (body : B → A → result B) (l : list A) acc :
  (∀ a acc', a ∈ l → recursion_only (body acc' a)) →
  recursion_only (rfold body acc l).
Proof.
  revert acc. induction l as [|a l IH]; intros acc Hbody; simpl; [by intros e|].
  pose proof (Hbody a acc (list_elem_of_here _ _)) as Ha.
  destruct (body acc a) as [acc'|e'] eqn:Hb; simpl.
  - apply IH. intros a' acc'' Hin. apply Hbody. by apply list_elem_of_further.
  - exact Ha.
Qed.

Section Closed.
Variable self : LRParser.
Hypothesis Hclosed : grammar_closed self.

Lemma closed_production k prods p :
  (k, prods) ∈ grammar self → p ∈ prods →
  p ≠ [] ∧
  ∀ x, x ∈ p → x ∈ terminals self ∨ is_Some (grammar_get (grammar self) x).
Proof.
  intros Hk Hp. unfold grammar_closed in Hclosed.
  rewrite Forall_forall in Hclosed. specialize (Hclosed _ Hk). simpl in Hclosed.
  rewrite Forall_forall in Hclosed. destruct (Hclosed _ Hp) as [Hne Hall].
  split; [done|]. by rewrite Forall_forall in Hall.
Qed.

Lemma first_recursion_only depth : ∀ N,
  is_Some (grammar_get (grammar self) N) → recursion_only (first self depth N).
Proof.
  induction depth as [|depth IH]; intros N [prods Hg]; [by intros e [= <-]|].
  rewrite first_unfold, Hg. apply rfold_recursion_only.
  intros p acc Hp.
  destruct (closed_production N prods p (grammar_get_elem _ _ _ Hg) Hp) as [Hne Hall].
  destruct p as [|sym rest]; [done|]. case_decide as Ht; [by intros e|].
  destruct (Hall sym (list_elem_of_here _ _)) as [?|Hkey]; [done|].
  pose proof (IH sym Hkey) as Hrec.
  destruct (first self depth sym); [by intros e|exact Hrec].
Qed.

Lemma follow_scan_recursion_only depth N lhs :
  recursion_only (follow self depth lhs) →
  ∀ (suf : list symbol) acc,
    (∀ x, x ∈ suf →
          x ∈ terminals self ∨ is_Some (grammar_get (grammar self) x)) →
    recursion_only
      (follow_scan self (first self depth) (follow self depth) N lhs acc suf).
Proof.
  intros Hlhs. induction suf as [|sym rest IH]; intros acc Hall; simpl;
    [by intros e|].
  assert (∀ x, x ∈ rest →
               x ∈ terminals self ∨ is_Some (grammar_get (grammar self) x)) as Hrest.
  { intros x Hx. by apply Hall, list_elem_of_further. }
  case_decide as Hsym; [|by apply IH].
  destruct rest as [|nxt rest'].
  - destruct (follow self depth lhs) as [s|e'] eqn:Hf; simpl; [by intros e|].
    exact Hlhs.
  - case_decide as Ht; [by apply IH|].
    destruct (Hrest nxt (list_elem_of_here _ _)) as [?|Hkey]; [done|].
    pose proof (first_recursion_only depth nxt Hkey) as Hrec.
    destruct (first self depth nxt) as [s|e'] eqn:Hf; simpl; [by apply IH|].
    exact Hrec.
Qed.

Lemma follow_recursion_only depth : ∀ N, recursion_only (follow self depth N).
Proof.
  induction depth as [|depth IH]; intros N; [by intros e [= <-]|].
  rewrite follow_unfold. apply rfold_recursion_only.
  intros [lhs prods] acc He. apply rfold_recursion_only.
  intros p acc' Hp. apply follow_scan_recursion_only; [apply IH|].
  by destruct (closed_production lhs prods p He Hp).
Qed.

Lemma items_complete_recursion_only depth i tbl it :
  item_in_grammar self it →
  recursion_only (items_complete self depth i tbl it).
Proof.
  destruct it as [[lhs rhs] d]. intros [(prods & Hk & Hp) _].
  unfold item_lhs, item_rhs in Hk, Hp. cbn [fst snd] in Hk, Hp.
  unfold items_complete. case_decide; [|by intros e].
  case_decide; [by intros e|].
  unfold get_production_index.
  destruct (grammar_get_is_Some _ _ _ Hk) as [prods' ->]. simpl.
  pose proof (follow_recursion_only depth lhs) as Hrec.
  destruct (follow self depth lhs) as [s|e']; [by intros e|].
  intros e [= <-]. by apply Hrec.
Qed.

Lemma items_reduce_recursion_only order depth sts tbl :
  iteration_order order →
  (∀ X, X ∈ sts → state_ok self X) →
  recursion_only (items_reduce self order depth sts tbl).
Proof.
  intros Horder Hok. unfold items_reduce. apply rfold_recursion_only.
  intros [i X] acc Hin. apply rfold_recursion_only.
  intros it acc' Hit. apply items_complete_recursion_only.
  apply (iteration_order_elem _ _ _ Horder) in Hit.
  apply list_elem_of_lookup in Hin as [k Hk].
  apply list_lookup_imap_Some in Hk as (Y & HY & [= -> ->]).
  apply (so_items self Y); [|done]. apply Hok. by eapply list_elem_of_lookup_2.
Qed.

End Closed.

(** X14. How [items] can fail.  A start symbol that is no key of the
    grammar gives [KeyError], one with an empty list of productions
    [IndexError].  Otherwise, when every right-hand side is non-empty and
    made of terminals and keys of the grammar, the only exception [items]
    can leave with is the [RecursionError] of [first] and [follow]. *)
Theorem items_failures (g : list (symbol * list production))
    (ts nts : list symbol) (start : symbol) (order : gset item → list item)
    (fuel depth : nat) :
  iteration_order order →
  grammar_closed (init g ts nts start) →
  (grammar_get g start = None →
   items (init g ts nts start) order fuel depth = Some (Raise KeyError)) ∧
  (grammar_get g start = Some [] →
   items (init g ts nts start) order fuel depth = Some (Raise IndexError)) ∧
  (∀ p rest e,
     grammar_get g start = Some (p :: rest) →
     items (init g ts nts start) order fuel depth = Some (Raise e) →
     e = RecursionError).
Proof.
  intros Horder Hclosed. unfold items, initial_item.
  cbn [grammar start_symbol init]. split_and!.
  - by intros ->.
  - by intros ->.
  - intros p rest e Hg. rewrite Hg.
    assert (initial_item (init g ts nts start) = Ok (start, p, 0)) as Hit.
    { unfold initial_item. cbn [grammar start_symbol init]. by rewrite Hg. }
    pose proof (initial_binv _ _ Hit) as Hb0.
    change (states (init g ts nts start) ++ ?l) with l.
    change (state_count (init g ts nts start)) with 0.
    change (action_table (init g ts nts start)) with (∅ : table action).
    change (goto_table (init g ts nts start)) with (∅ : table nat).
    destruct (items_loop _ fuel _) as [r|] eqn:Hloop; [|done].
    destruct (items_loop_binv _ _ _ _ Hb0 Hloop) as (b & -> & Hb & Hq).
    pose proof (items_reduce_recursion_only _ Hclosed order depth (b_states b)
                  (b_action b) Horder) as Hrec.
    destruct (items_reduce _ order depth _ _) as [tbl|e'] eqn:Hr; simpl; [done|].
    intros [= <-]. apply Hrec; [|done].
    intros X [i Hi]%list_elem_of_lookup. by eapply (bi_states _ _ _ _ Hb).
Qed.

Lemma items_failures_witness :
  (grammar_get example_grammar "S'" = None →
   items example_parser elements 100 2 = Some (Raise KeyError)) ∧
  (grammar_get example_grammar "S'" = Some [] →
   items example_parser elements 100 2 = Some (Raise IndexError)) ∧
  (∀ p rest e,
     grammar_get example_grammar "S'" = Some (p :: rest) →
     items example_parser elements 100 2 = Some (Raise e) →
     e = RecursionError).
Proof.
  apply (items_failures example_grammar ["+"; "*"; "("; ")"; "id"]
           ["S"; "E"; "T"; "F"] "S'" elements 100 2).
  - apply iteration_order_elements.
  - vm_decide.
Defined.

(** X13. When no two items of a state write different actions into one
    cell, the order in which Python iterates over a set of items does not
    matter: [items] returns the same states and the same cells for any two
    orders, and [parse] then behaves the same on every input. *)
Theorem tables_order_independent (g : list (symbol * list production))
    (ts nts : list symbol) (start : symbol)
    (order1 order2 : gset item → list item) (fuel depth : nat) (P1 : LRParser) :
  iteration_order order1 → iteration_order order2 →
  items (init g ts nts start) order1 fuel depth = Some (Ok P1) →
  conflict_free (init g ts nts start) depth (states P1) →
  ∃ P2,
    items (init g ts nts start) order2 fuel depth = Some (Ok P2) ∧
    states P2 = states P1 ∧
    (∀ i s, cell (action_table P2) i s = cell (action_table P1) i s) ∧
    (∀ i s, cell (goto_table P2) i s = cell (goto_table P1) i s) ∧
    (∀ n input, (parse n P2 input).2 = (parse n P1 input).2).
Proof.
  intros Ho1 Ho2 Hitems Hfree.
  destruct (items_order _ depth order1 order2 Ho1 Ho2 fuel P1 Hitems Hfree)
    as (P2 & Hitems2 & Hst & Ha & Hg).
  exists P2. split_and!; try done.
  intros n input. unfold parse. apply parse_loop_same_cells.
  split; intros i s; by rewrite ?Ha, ?Hg.
Qed.

Lemma tables_order_independent_witness :
  ∃ P2,
    items example_parser (λ X, reverse (elements X)) 100 1000 = Some (Ok P2) ∧
    states P2 = states example_built ∧
    (∀ i s, cell (action_table P2) i s = cell (action_table example_built) i s) ∧
    (∀ i s, cell (goto_table P2) i s = cell (goto_table example_built) i s) ∧
    (∀ n input, (parse n P2 input).2 = (parse n example_built input).2).
Proof.
  apply (tables_order_independent example_grammar ["+"; "*"; "("; ")"; "id"]
           ["S"; "E"; "T"; "F"] "S'" elements (λ X, reverse (elements X)) 100 1000).
  - apply iteration_order_elements.
  - intros X. apply reverse_Permutation.
  - apply example_items.
  - vm_decide.
Defined.

Lemma index_of_spec rhs ps (i : Z) :
  (index_of rhs ps i = (-1)%Z ∧ rhs ∉ ps ∨
   ∃ n : nat, index_of rhs ps i = (i + Z.of_nat n)%Z ∧ ps !! n = Some rhs ∧
              ∀ k, k < n → ps !! k ≠ Some rhs).
Proof.
  revert i. induction ps as [|p ps IH]; intros i; simpl.
  - left. split; [done|]. apply not_elem_of_nil.
  - case_decide as Hp.
    + right. exists 0. subst p. split_and!; [lia|done|lia].
    + destruct (IH (i + 1)%Z) as [[Hi Hnot]|(n & Hi & Hn & Hfirst)].
      * left. split; [done|]. rewrite elem_of_cons. naive_solver.
      * right. exists (S n). split_and!; [lia|done|].
        intros [|k] Hk; simpl; [congruence|]. apply Hfirst. lia.
Qed.

(** X17. [get_production_index(lhs, rhs)] raises [KeyError] when [lhs] is
    no key of the grammar; otherwise it returns the position of the first
    production of [lhs] equal to [rhs], or -1 when there is none. *)
Theorem get_production_index_spec (self : LRParser) (lhs : symbol)
    (rhs : production) :
  match get_production_index self lhs rhs with
  | Raise e => e = KeyError ∧ grammar_get (grammar self) lhs = None
  | Ok i =>
      ∃ productions, grammar_get (grammar self) lhs = Some productions ∧
        (i = (-1)%Z ∧ rhs ∉ productions ∨
         (0 ≤ i)%Z ∧ productions !! Z.to_nat i = Some rhs ∧
         ∀ k, k < Z.to_nat i → productions !! k ≠ Some rhs)
  end.
Proof.
  unfold get_production_index.
  destruct (grammar_get (grammar self) lhs) as [prods|]; [|done].
  exists prods. split; [done|].
  destruct (index_of_spec rhs prods 0) as [[-> Hnot]|(n & -> & Hn & Hfirst)].
  - by left.
  - right. rewrite Z.add_0_l, Nat2Z.id. split_and!; [lia|done..].
Qed.

(** ** The shape of a run *)

Lemma last_drop_cons {A} n (l : list A) x l' :
  drop n l = x :: l' → last l = last (x :: l').
Proof.
  intros Hd. rewrite <- (take_drop n l) at 1. rewrite Hd, last_app.
  destruct (last (x :: l')) eqn:Hl; [done|]. by apply last_None in Hl.
Qed.

(** What one pass keeps about the shape of the stack and the cursor,
    whatever the tables hold. *)
Lemma parse_step_shape input_string self stack index :
  state_top stack → last stack = Some (St 0) →
  match (parse_step input_string self stack index).2 with
  | Running stack' index' =>
      state_top stack' ∧ last stack' = Some (St 0) ∧
      index ≤ index' ≤ S index ∧ index' ≤ length input_string
  | Returned value => value = true
  | Raised e =>
      e ≠ RecursionError ∧
      ∀ i s, e = SyntaxError i s → i = index ∧ input_string !! i = Some s
  end.
Proof.
  intros Htop Hlast.
  assert (∃ state rest, stack = St state :: rest) as (state & rest & ->)
    by (destruct Htop; eauto).
  destruct (input_string !! index) as [sym|] eqn:Hin.
  - destruct (parse_step_spec input_string self state rest index sym Hin) as [_ ->].
    pose proof (lookup_lt_Some _ _ _ Hin) as Hlt.
    unfold pass_outcome.
    destruct (cell (action_table self) state sym) as [[dest|lhs rhs|]|]; try done.
    + split_and!; [by constructor| |lia|lia|lia].
      by rewrite !last_cons_cons.
    + case_decide as Hlen; [|done].
      destruct (drop (2 * length rhs) (St state :: rest))
        as [|[exposed|y] below] eqn:Hd; try done.
      destruct (cell (goto_table self) exposed lhs) as [goto_state|]; [|done].
      assert (2 * length rhs < length (St state :: rest)) as Hlt'.
      { destruct (decide (2 * length rhs < length (St state :: rest))); [done|].
        rewrite drop_ge in Hd by lia. done. }
      pose proof (state_top_drop _ _ Htop Hlt') as Htop'. rewrite Hd in Htop'.
      split_and!; [by constructor| |lia|lia|lia].
      rewrite !last_cons_cons, <- Hlast. symmetry. by eapply last_drop_cons.
    + split; [done|]. by intros i s [= <- <-].
  - unfold parse_step. rewrite Hin. done.
Qed.

Lemma parse_loop_shape fuel input_string self stack index :
  state_top stack → last stack = Some (St 0) → index ≤ length input_string →
  match (parse_loop fuel input_string self stack index).2 with
  | Running stack' index' =>
      state_top stack' ∧ last stack' = Some (St 0) ∧
      index' ≤ length input_string
  | Returned value => value = true
  | Raised e =>
      e ≠ RecursionError ∧
      ∀ i s, e = SyntaxError i s → input_string !! i = Some s
  end.
Proof.
  revert self stack index.
  induction fuel as [|fuel IH]; intros self stack index Htop Hlast Hidx; simpl;
    [done|].
  pose proof (parse_step_shape input_string self stack index Htop Hlast) as Hs.
  destruct (parse_step input_string self stack index) as [self' [st i|v|e]];
    simpl in *.
  - destruct Hs as (? & ? & ? & ?). by apply IH.
  - done.
  - destruct Hs as [? Hs]. split; [done|]. intros i s He.
    by destruct (Hs i s He).
Qed.


(** A pass reads the input at the cursor only. *)
Lemma parse_step_input l1 l2 self stack index :
  l1 !! index = l2 !! index →
  parse_step l1 self stack index = parse_step l2 self stack index.
Proof. intros Heq. unfold parse_step. by rewrite Heq. Qed.

Section AfterMarker.
Variables (g : list (symbol * list production)) (ts nts : list symbol).
Variable start : symbol.
Variable order : gset item → list item.
Variables (fuel depth : nat) (P : LRParser).
Hypothesis Hitems : items (init g ts nts start) order fuel depth = Some (Ok P).
Hypothesis Hmarker : ∀ k prods p, (k, prods) ∈ g → p ∈ prods → "$" ∉ p.

Lemma parse_loop_after_marker n input rest P1 stack index :
  same_object P P1 → cursor_ok (input ++ "$" :: rest) index →
  parse_loop n (input ++ "$" :: rest) P1 stack index =
  parse_loop n (input ++ ["$"]) P1 stack index.
Proof.
  revert P1 stack index. induction n as [|n IH]; intros P1 stack index Hsame Hcur;
    simpl; [done|].
  assert (index ≤ length input) as Hidx.
  { destruct (decide (index ≤ length input)); [done|]. exfalso.
    apply (Hcur (length input)); [lia|]. by rewrite list_lookup_middle. }
  rewrite (parse_step_input (input ++ "$" :: rest) (input ++ ["$"])); last first.
  { destruct (decide (index = length input)) as [->|].
    - by rewrite !list_lookup_middle.
    - rewrite !lookup_app_l by lia. done. }
  destruct (parse_step (input ++ ["$"]) P1 stack index) as [P2 [st i|v|e]] eqn:Hstep;
    try done.
  apply IH.
  - eapply same_object_trans; [exact Hsame|].
    pose proof (parse_step_frame (input ++ ["$"]) P1 stack index) as Hf.
    by rewrite Hstep in Hf.
  - eapply (parse_step_cursor g ts nts start order fuel depth P Hitems Hmarker
              (input ++ "$" :: rest) P1 stack index P2 st i Hsame Hcur).
    rewrite (parse_step_input (input ++ "$" :: rest) (input ++ ["$"])); [done|].
    destruct (decide (index = length input)) as [->|].
    + by rewrite !list_lookup_middle.
    + rewrite !lookup_app_l by lia. done.
Qed.

End AfterMarker.

(** X21. When no right-hand side contains ['$'], [parse] never reads past
    the first ['$'] of its input: whatever follows it is ignored, the run
    and its outcome being those on the input cut there. *)
Theorem parse_stops_at_end_marker (g : list (symbol * list production))
    (ts nts : list symbol) (start : symbol) (order : gset item → list item)
    (fuel depth : nat) (P : LRParser) (n : nat) (input rest : list symbol) :
  items (init g ts nts start) order fuel depth = Some (Ok P) →
  "$" ∉ rhs_symbols g →
  parse n P (input ++ "$" :: rest) = parse n P input.
Proof.
  intros Hitems Hmarker. unfold parse. rewrite <- app_assoc. simpl.
  eapply parse_loop_after_marker; [exact Hitems| |apply same_object_refl|].
  - intros k prods p Hk Hp Hin. apply Hmarker. by eapply elem_of_rhs_symbols.
  - intros k Hk. lia.
Qed.

Lemma parse_stops_at_end_marker_witness :
  parse 20 example_built (["id"] ++ "$" :: [")"; ")"]) = parse 20 example_built ["id"].
Proof.
  apply (parse_stops_at_end_marker example_grammar ["+"; "*"; "("; ")"; "id"]
           ["S"; "E"; "T"; "F"] "S'" elements 100 1000).
  - apply example_items.
  - vm_decide.
Defined.

(** ** What is on the stack derives what has been read *)

Lemma derives_app_r g u w v : derives g u w → derives g (u ++ v) (w ++ v).
Proof.
  induction 1 as [w|before lhs prods rhs after w Hk Hp _ IH]; [constructor|].
  rewrite <- app_assoc. simpl. eapply derives_step; [done..|].
  by rewrite <- !app_assoc in IH.
Qed.

Lemma derives_reduce g before lhs prods rhs w :
  (lhs, prods) ∈ g → rhs ∈ prods →
  derives g (before ++ rhs) w → derives g (before ++ [lhs]) w.
Proof.
  intros Hk Hp Hd. eapply derives_step; [done..|]. by rewrite app_nil_r.
Qed.

Section Soundness.
Variables (g : list (symbol * list production)) (ts nts : list symbol).
Variable start : symbol.
Variable order : gset item → list item.
Variables (fuel depth : nat) (P : LRParser).
Hypothesis Hitems : items (init g ts nts start) order fuel depth = Some (Ok P).
Hypothesis Horder : iteration_order order.

(** The symbols above the state where an item was started are those
    before its dot. *)
Lemma stack_trace_symbols d : ∀ j rest X lhs rhs,
  stack_ok g ts nts start P (St j :: rest) → states P !! j = Some X →
  (lhs, rhs, d) ∈ X →
  ∃ i below X0,
    drop (2 * d) (St j :: rest) = St i :: below ∧
    stack_ok g ts nts start P (St i :: below) ∧ states P !! i = Some X0 ∧
    (lhs, rhs, 0) ∈ X0 ∧
    stack_symbols (St j :: rest) = stack_symbols (St i :: below) ++ take d rhs.
Proof.
  induction d as [|d IH]; intros j rest X lhs rhs Hst HX Hit.
  - exists j, rest, X. split_and!; try done. by rewrite take_0, app_nil_r.
  - inversion Hst as [|i Xi sym j' rest' Hst' Hi Hj]; subst.
    + destruct (built_initial _ _ _ _ _ _ _ _ Hitems) as (X0 & H0 & Hdots).
      assert (X0 = X) as -> by congruence.
      by apply Hdots in Hit.
    + assert (X = goto (init g ts nts start) Xi sym) as -> by congruence.
      apply goto_kernel_item in Hit as [Hit Hsym].
      destruct (IH _ _ _ _ _ Hst' Hi Hit)
        as (i0 & below & X0 & Hd & ? & ? & ? & Hsyms).
      exists i0, below, X0. split_and!; try done.
      * by replace (2 * S d) with (S (S (2 * d))) by lia.
      * cbn [stack_symbols] in *. rewrite Hsyms, (take_S_r _ _ _ Hsym).
        by rewrite app_assoc.
Qed.

Lemma parse_step_running input_string P1 stack index P2 stack' index' :
  sound_config g ts nts start P input_string P1 stack index →
  parse_step input_string P1 stack index = (P2, Running stack' index') →
  sound_config g ts nts start P input_string P2 stack' index'.
Proof.
  intros [Hsame Hst Hder] Hstep.
  destruct (stack_ok_top _ _ _ _ _ _ Hst) as (state & rest & ->).
  destruct (input_string !! index) as [sym|] eqn:Hin; last first.
  { unfold parse_step in Hstep. by rewrite Hin in Hstep. }
  destruct (parse_step_spec _ P1 state rest index sym Hin) as [Hframe Ho].
  rewrite Hstep in Hframe, Ho. simpl in Hframe, Ho.
  assert (same_object P P2) as Hsame' by (by eapply same_object_trans).
  unfold pass_outcome in Ho.
  rewrite (same_object_action_cell _ _ _ _ Hsame) in Ho.
  destruct (cell (action_table P) state sym) as [[dest|lhs rhs|]|] eqn:Hc;
    try done.
  - injection Ho as -> ->.
    destruct (built_shift _ _ _ _ _ _ _ _ Hitems _ _ _ Hc) as (X & _ & HX & _ & Hd).
    split; [done|by econstructor|].
    cbn [stack_symbols]. rewrite (take_S_r _ _ _ Hin). by apply derives_app_r.
  - case_decide as Hlen; [|done].
    destruct (drop (2 * length rhs) (St state :: rest))
      as [|[exposed|y] below] eqn:Hd; try done.
    rewrite (same_object_goto_cell _ _ _ _ Hsame) in Ho.
    destruct (cell (goto_table P) exposed lhs) as [goto_state|] eqn:Hg; [|done].
    injection Ho as -> ->.
    destruct (built_reduce _ _ _ _ _ _ _ _ Hitems _ _ _ _ Hc) as (X & HX & Hit & Hl).
    apply (iteration_order_elem _ _ _ Horder) in Hit.
    destruct (stack_trace_symbols _ _ _ _ _ _ Hst HX Hit)
      as (i & below' & X0 & Hd' & Hst0 & Hi & Hit0 & Hsyms).
    rewrite Hd in Hd'. injection Hd' as <- <-.
    destruct (built_goto_cell _ _ _ _ _ _ _ _ Hitems _ _ _ Hg)
      as (X0' & _ & Hi' & _ & Hdest).
    assert (X0' = X0) as -> by congruence.
    split; [done|by econstructor|].
    rewrite firstn_all in Hsyms. rewrite Hsyms in Hder.
    cbn [stack_symbols] in *.
    destruct (so_items _ _ (built_states _ _ _ _ _ _ _ _ Hitems _ _ HX) _ Hit)
      as [(prods & Hk & Hp) _].
    by eapply derives_reduce.
Qed.

Lemma parse_loop_running n input_string : ∀ P1 stack index P2 stack' index',
  sound_config g ts nts start P input_string P1 stack index →
  parse_loop n input_string P1 stack index = (P2, Running stack' index') →
  sound_config g ts nts start P input_string P2 stack' index'.
Proof.
  induction n as [|n IH]; intros P1 stack index P2 stack' index' Hc; simpl.
  - by intros [= <- <- <-].
  - destruct (parse_step input_string P1 stack index) as [P1' [st i|v|e]] eqn:Hstep;
      try done.
    apply IH. by eapply parse_step_running.
Qed.

Hypothesis Hstart : start ∉ rhs_symbols g.

(** An item of the start symbol with its dot at the front is the initial
    item, and only state 0 holds it. *)
Lemma start_item_initial X rhs :
  state_ok (init g ts nts start) X → (start, rhs, 0) ∈ X →
  ∀ it', it' ∈ X → (start, rhs, 0) ∉ expand (init g ts nts start) it'.
Proof.
  intros Hok Hit it' Hit' Hex.
  apply elem_of_expand in Hex as (nxt & prods & p & Hnext & _ & _ & _ & [= <- _]).
  destruct (so_items _ _ Hok _ Hit') as [(prods' & Hk & Hp) _].
  apply Hstart. eapply elem_of_rhs_symbols; [exact Hk|exact Hp|].
  by eapply list_elem_of_lookup_2.
Qed.

Lemma start_item_bottom i below X rhs :
  stack_ok g ts nts start P (St i :: below) → states P !! i = Some X →
  (start, rhs, 0) ∈ X →
  below = [] ∧ i = 0 ∧
  ∃ rest, grammar_get g start = Some (rhs :: rest).
Proof.
  intros Hst HX Hit.
  pose proof (built_states _ _ _ _ _ _ _ _ Hitems _ _ HX) as Hok.
  inversion Hst as [|i' Xi sym j' rest' Hst' Hi Hj]; subst.
  - split_and!; [done..|].
    destruct (built_initial_state _ _ _ _ _ _ _ _ Hitems) as (p & rest & Hg & H0).
    exists rest. rewrite Hg. do 2 f_equal.
    rewrite HX in H0. injection H0 as ->.
    pose proof Hit as Hit0.
    apply closure_elem in Hit as [Hit|(it' & Hit' & Hex)].
    + apply elem_of_singleton in Hit. by injection Hit.
    + exfalso. exact (start_item_initial _ rhs Hok Hit0 it' Hit' Hex).
  - exfalso. assert (X = goto (init g ts nts start) Xi sym) as -> by congruence.
    pose proof Hit as Hit0.
    apply closure_elem in Hit as [Hit|(it' & Hit' & Hex)].
    + apply elem_of_goto_kernel in Hit as (it0 & _ & _ & Heq). by injection Heq.
    + exact (start_item_initial _ rhs Hok Hit0 it' Hit' Hex).
Qed.

(** A pass that returns read the end marker with the first production of
    the start symbol, and nothing else, on the stack. *)
Lemma parse_step_returned input_string P1 stack index value :
  sound_config g ts nts start P input_string P1 stack index →
  (parse_step input_string P1 stack index).2 = Returned value →
  input_string !! index = Some "$" ∧
  ∃ p rest, grammar_get g start = Some (p :: rest) ∧
            derives g p (take index input_string).
Proof.
  intros [Hsame Hst Hder] Hstep.
  destruct (stack_ok_top _ _ _ _ _ _ Hst) as (state & rest & ->).
  destruct (input_string !! index) as [sym|] eqn:Hin; last first.
  { unfold parse_step in Hstep. by rewrite Hin in Hstep. }
  destruct (parse_step_spec _ P1 state rest index sym Hin) as [_ Ho].
  rewrite Hstep in Ho. unfold pass_outcome in Ho.
  rewrite (same_object_action_cell _ _ _ _ Hsame) in Ho.
  destruct (cell (action_table P) state sym) as [[dest|lhs rhs|]|] eqn:Hc;
    try done.
  - case_decide; [|done].
    destruct (drop _ _) as [|[exposed|y] below]; try done.
    by destruct (cell (goto_table P1) exposed lhs).
  - destruct (built_action _ _ _ _ _ _ _ _ Hitems _ _ _ Hc)
      as [(j & X & [=] & _)|(X & it & HX & Hit & [Hdot Ht] & Ha)].
    apply (iteration_order_elem _ _ _ Horder) in Hit.
    unfold item_action in Ha. case_decide as Hl; [|done].
    subst sym. split; [done|].
    destruct it as [[lhs rhs] d]. unfold item_lhs, item_rhs, item_dot in *.
    cbn [fst snd start_symbol init] in *. subst lhs d.
    destruct (stack_trace_symbols _ _ _ _ _ _ Hst HX Hit)
      as (i & below & X0 & Hd & Hst0 & Hi & Hit0 & Hsyms).
    destruct (start_item_bottom _ _ _ _ Hst0 Hi Hit0) as (-> & -> & rest' & Hg).
    exists rhs, rest'. split; [done|].
    rewrite firstn_all in Hsyms. cbn [stack_symbols app] in Hsyms, Hder.
    by rewrite Hsyms in Hder.
Qed.

Lemma parse_loop_sound n input_string : ∀ P1 stack index,
  sound_config g ts nts start P input_string P1 stack index →
  (parse_loop n input_string P1 stack index).2 = Returned true →
  ∃ k p rest, input_string !! k = Some "$" ∧
              grammar_get g start = Some (p :: rest) ∧
              derives g p (take k input_string).
Proof.
  induction n as [|n IH]; intros P1 stack index Hc; simpl; [done|].
  destruct (parse_step input_string P1 stack index) as [P2 [st i|v|e]] eqn:Hstep;
    simpl; [|intros _|done].
  - apply IH. by eapply parse_step_running.
  - destruct (parse_step_returned input_string P1 stack index v Hc)
      as (Hin & p & rest & Hg & Hd); [by rewrite Hstep|].
    by exists index, p, rest.
Qed.

End Soundness.

(** X20. [parse] accepts only sentences of the grammar: on tables built by
    [items] for a grammar whose start symbol occurs on no right-hand side,
    if [parse] returns [True] on an input without ['$'], the input is
    derived from the first production of the start symbol. *)
Theorem parse_sound (g : list (symbol * list production))
    (ts nts : list symbol) (start : symbol) (order : gset item → list item)
    (fuel depth : nat) (P : LRParser) (n : nat) (input : list symbol) :
  iteration_order order →
  items (init g ts nts start) order fuel depth = Some (Ok P) →
  start ∉ rhs_symbols g →
  "$" ∉ input →
  (parse n P input).2 = Returned true →
  ∃ p rest, grammar_get g start = Some (p :: rest) ∧
            derives g p input ∧ derives g [start] input.
Proof.
  intros Horder Hitems Hstart Hinput Hret.
  destruct (parse_loop_sound g ts nts start order fuel depth P Hitems Horder Hstart
              n (input ++ ["$"]) P [St 0] 0) as (k & p & rest & Hk & Hg & Hd).
  { split; [apply same_object_refl|constructor|]. simpl. constructor. }
  { exact Hret. }
  assert (k = length input) as ->.
  { destruct (decide (k < length input)) as [Hlt|Hge].
    - rewrite lookup_app_l in Hk by done. exfalso. apply Hinput.
      by eapply list_elem_of_lookup_2.
    - apply lookup_lt_Some in Hk. rewrite length_app in Hk. simpl in Hk. lia. }
  rewrite take_app_length in Hd.
  exists p, rest. split_and!; [done..|].
  apply (derives_step g [] start (p :: rest) p []).
  - by apply grammar_get_elem.
  - apply list_elem_of_here.
  - by rewrite app_nil_r.
Qed.

Lemma parse_sound_witness :
  ∃ p rest, grammar_get example_grammar "S'" = Some (p :: rest) ∧
            derives example_grammar p ["id"; "*"; "id"; "+"; "id"] ∧
            derives example_grammar ["S'"] ["id"; "*"; "id"; "+"; "id"].
Proof.
  apply (parse_sound example_grammar ["+"; "*"; "("; ")"; "id"]
           ["S"; "E"; "T"; "F"] "S'" elements 100 1000 example_built 15).
  - apply iteration_order_elements.
  - apply example_items.
  - vm_decide.
  - vm_decide.
  - vm_decide.
Defined.

(** X19. In a run of [parse] on tables built by [items], the states on the
    stack follow the automaton (each one is the [goto] of the state below
    it on the symbol between them), and the grammar symbols on the stack,
    read from the bottom, derive the input read so far. *)
Theorem parse_stack_derives (g : list (symbol * list production))
    (ts nts : list symbol) (start : symbol) (order : gset item → list item)
    (fuel depth : nat) (P : LRParser) (n : nat) (input : list symbol)
    (stack : list entry) (index : nat) :
  iteration_order order →
  items (init g ts nts start) order fuel depth = Some (Ok P) →
  (parse n P input).2 = Running stack index →
  stack_ok g ts nts start P stack ∧
  derives g (stack_symbols stack) (take index (input ++ ["$"])).
Proof.
  intros Horder Hitems Hrun.
  destruct (parse n P input) as [P' o] eqn:Hparse. simpl in Hrun. subst o.
  destruct (parse_loop_running g ts nts start order fuel depth P Hitems Horder
              n (input ++ ["$"]) P [St 0] 0 P' stack index) as [_ Hst Hd].
  - split; [apply same_object_refl|constructor|]. simpl. constructor.
  - exact Hparse.
  - done.
Qed.

Lemma parse_stack_derives_witness :
  stack_ok example_grammar ["+"; "*"; "("; ")"; "id"] ["S"; "E"; "T"; "F"] "S'"
           example_built [St 9; Sym "*"; St 5; Sym "T"; St 0] ∧
  derives example_grammar (stack_symbols [St 9; Sym "*"; St 5; Sym "T"; St 0])
          (take 2 (["id"; "*"; "id"] ++ ["$"])).
Proof.
  apply (parse_stack_derives example_grammar ["+"; "*"; "("; ")"; "id"]
           ["S"; "E"; "T"; "F"] "S'" elements 100 1000 example_built 4
           ["id"; "*"; "id"]).
  - apply iteration_order_elements.
  - apply example_items.
  - vm_decide.
Defined.

(** ** What the output helpers show *)

Lemma append_cons a s t : String a s +:+ t = String a (s +:+ t).
Proof. reflexivity. Qed.

Lemma append_nil_r s : s +:+ "" = s.
Proof. induction s as [|a s IH]; [done|]. by rewrite append_cons, IH. Qed.

Lemma append_assoc s t u : (s +:+ t) +:+ u = s +:+ t +:+ u.
Proof. induction s as [|a s IH]; [done|]. by rewrite !append_cons, IH. Qed.

Lemma concat_cons x xs : String.concat "" (x :: xs) = x +:+ String.concat "" xs.
Proof.
  destruct xs as [|y ys]; simpl; [by rewrite append_nil_r|done].
Qed.

Lemma concat_app xs ys :
  String.concat "" (xs ++ ys) = String.concat "" xs +:+ String.concat "" ys.
Proof.
  induction xs as [|x xs IH]; [done|].
  rewrite <- app_comm_cons, !concat_cons, IH. by rewrite append_assoc.
Qed.

(** X22. [format_input] never fails: from the end of the list on it is the
    empty string, at a position of the list it is the symbol there followed
    by the rest, and on the list [parse] scans it ends with ['$'] as long
    as the cursor has not passed the input. *)
Theorem format_input_steps (input_string : list symbol) (index : nat) :
  (length input_string ≤ index → format_input input_string index = "") ∧
  (∀ s, input_string !! index = Some s →
        format_input input_string index
        = s +:+ format_input input_string (S index)) ∧
  (∀ input, input_string = input ++ ["$"] → index ≤ length input →
            format_input input_string index = format_input input index +:+ "$").
Proof.
  unfold format_input. split_and!.
  - intros Hlen. by rewrite drop_ge.
  - intros s Hs. by rewrite (drop_S _ _ _ Hs), concat_cons.
  - intros input -> Hidx. by rewrite drop_app_le, concat_app.
Qed.

(** X23. [format_stack] shows the initial stack as ["0"], appends the
    shifted symbol and the new state on a shift, and in every run of
    [parse] the string it gives starts with ["0"]. *)
Theorem format_stack_steps (stack : list entry) :
  format_stack [St 0] = "0" ∧
  (∀ dest s, format_stack (St dest :: Sym s :: stack)
             = format_stack stack +:+ s +:+ pretty dest) ∧
  (∀ fuel self input index,
     (parse fuel self input).2 = Running stack index →
     ∃ rest, format_stack stack = "0" +:+ rest).
Proof.
  unfold format_stack. split_and!.
  - done.
  - intros dest s. rewrite !reverse_cons, !fmap_app, !concat_app. simpl.
    by rewrite append_assoc.
  - intros fuel self input index Hrun.
    pose proof (parse_loop_shape fuel (input ++ ["$"]) self [St 0] 0) as Hs.
    unfold parse in Hrun. rewrite Hrun in Hs.
    destruct Hs as (_ & Hlast & _); [constructor|done|lia|].
    apply last_Some in Hlast as [l' ->].
    rewrite reverse_snoc, fmap_cons, concat_cons. by eexists.
Qed.

(** X24. The right-hand side with the dot that [print_closure_sets] shows
    for an item: one symbol longer, with the dot at [dot_pos] (at the end
    when [dot_pos] is past it); removing the dot gives the right-hand side
    back. *)
Theorem rhs_with_dot_reads_back (rhs : production) (dot_pos : nat) :
  length (rhs_with_dot rhs dot_pos) = S (length rhs) ∧
  rhs_with_dot rhs dot_pos !! (dot_pos `min` length rhs) = Some "." ∧
  delete (dot_pos `min` length rhs) (rhs_with_dot rhs dot_pos) = rhs ∧
  ("." ∉ rhs → filter (λ x, x ≠ ".") (rhs_with_dot rhs dot_pos) = rhs).
Proof.
  unfold rhs_with_dot.
  assert (length (take dot_pos rhs) = dot_pos `min` length rhs) as Hlen
    by apply length_take.
  split_and!.
  - rewrite length_app, length_cons, length_take, length_drop. lia.
  - rewrite <- Hlen. by apply list_lookup_middle.
  - rewrite <- Hlen. rewrite delete_middle. apply take_drop.
  - intros Hdot. rewrite filter_app, filter_cons_False by naive_solver.
    rewrite <- filter_app, take_drop. clear Hlen.
    induction rhs as [|x rhs IH]; [done|].
    apply not_elem_of_cons in Hdot as [Hx Hdot].
    rewrite filter_cons_True by congruence. f_equal. by apply IH.
Qed.

(** ** The cells of the action table *)

(** [leads] and [follows] read the grammar, the terminals and the start
    symbol only. *)
Lemma leads_ext (s1 s2 : LRParser) N x :
  grammar s1 = grammar s2 → terminals s1 = terminals s2 →
  leads s1 N x → leads s2 N x.
Proof.
  intros Hg Ht. induction 1 as [N prods x rest Hget Hp Hx|
                                 N prods sym rest x Hget Hp Hsym _ IH].
  - eapply leads_terminal; [by rewrite <- Hg|done|by rewrite <- Ht].
  - eapply leads_through; [by rewrite <- Hg|done|by rewrite <- Ht|done].
Qed.

Lemma follows_ext (s1 s2 : LRParser) N x :
  grammar s1 = grammar s2 → terminals s1 = terminals s2 →
  start_symbol s1 = start_symbol s2 →
  follows s1 N x → follows s2 N x.
Proof.
  intros Hg Ht Hs. induction 1 as [|N lhs prods u nxt v Hk Hp Hnxt|
                                    N lhs prods u nxt v x Hk Hp Hnxt Hl|
                                    N lhs prods u x Hk Hp _ IH].
  - rewrite Hs. constructor.
  - eapply follows_terminal; [by rewrite <- Hg|done|by rewrite <- Ht].
  - eapply follows_first; [by rewrite <- Hg|done|by rewrite <- Ht|].
    by eapply leads_ext.
  - eapply follows_end; [by rewrite <- Hg|done|done].
Qed.

(** X11. Every cell of the action table after [items] is justified by its
    state: a shift by the non-empty [goto] it leads to, under a terminal; a
    reduce by a complete item of the state whose left-hand side is not the
    start symbol and has the column in its FOLLOW set; accept by a complete
    item of the start symbol, under ['$']. *)
Theorem action_cells_justified (g : list (symbol * list production))
    (ts nts : list symbol) (start : symbol) (order : gset item → list item)
    (fuel depth : nat) (P : LRParser) (i : nat) (t : symbol) (a : action) :
  iteration_order order →
  items (init g ts nts start) order fuel depth = Some (Ok P) →
  cell (action_table P) i t = Some a →
  ∃ X, states P !! i = Some X ∧
       match a with
       | shift j =>
           t ∈ terminals P ∧ goto P X t ≠ ∅ ∧ states P !! j = Some (goto P X t)
       | reduce lhs rhs =>
           (lhs, rhs, length rhs) ∈ X ∧ lhs ≠ start_symbol P ∧ follows P lhs t
       | accept =>
           t = "$" ∧ ∃ rhs, (start_symbol P, rhs, length rhs) ∈ X
       end.
Proof.
  intros Horder Hitems Hc.
  pose proof (built_grammar _ _ _ _ _ _ _ _ Hitems) as Hg.
  pose proof (built_terminals _ _ _ _ _ _ _ _ Hitems) as Ht.
  pose proof (built_start_symbol _ _ _ _ _ _ _ _ Hitems) as Hs.
  destruct (built_action _ _ _ _ _ _ _ _ Hitems _ _ _ Hc)
    as [(j & X & -> & Hterm & HX & Hne & Hj)|(X & it & HX & Hit & [Hdot Htg] & ->)].
  - exists X. split; [done|]. rewrite (built_goto _ _ _ _ _ _ _ _ Hitems), Ht.
    done.
  - exists X. split; [done|].
    apply (iteration_order_elem _ _ _ Horder) in Hit.
    destruct it as [[lhs rhs] d]. unfold item_action, item_lhs, item_rhs, item_dot in *.
    cbn [fst snd] in *. subst d. rewrite Hs.
    cbn [start_symbol init] in *. case_decide as Hl.
    + subst lhs. split; [done|]. by exists rhs.
    + split_and!; [done..|].
      destruct (follow _ depth lhs) as [fs|] eqn:Hf; [|done].
      apply (follow_follows _ _ _ _ Hf) in Htg.
      eapply follows_ext; [| | |exact Htg]; by rewrite ?Hg, ?Ht, ?Hs.
Qed.

Lemma action_cells_justified_witness :
  ∃ X, states example_built !! 2 = Some X ∧
       (("F", ["id"], length ["id"]) ∈ X ∧ "F" ≠ start_symbol example_built ∧
        follows example_built "F" "+").
Proof.
  apply (action_cells_justified example_grammar ["+"; "*"; "("; ")"; "id"]
           ["S"; "E"; "T"; "F"] "S'" elements 100 1000 example_built 2 "+"
           (reduce "F" ["id"])).
  - apply iteration_order_elements.
  - apply example_items.
  - vm_decide.
Defined.

(** X8. Every state [items] stores is a non-empty set of items of the
    grammar (a listed production with the dot inside it), is closed under
    [closure], and holds an item with the dot at the front only for the
    start symbol or for a declared non-terminal that follows the dot of
    another of its items. *)
Theorem states_well_formed (g : list (symbol * list production))
    (ts nts : list symbol) (start : symbol) (order : gset item → list item)
    (fuel depth : nat) (P : LRParser) (i : nat) (X : gset item) :
  items (init g ts nts start) order fuel depth = Some (Ok P) →
  states P !! i = Some X →
  X ≠ ∅ ∧ closure P X = X ∧
  (∀ it, it ∈ X → item_in_grammar P it) ∧
  (∀ it, it ∈ X → item_dot it = 0 →
         item_lhs it = start_symbol P ∨
         ∃ it', it' ∈ X ∧ next_symbol it' = Some (item_lhs it) ∧
                item_lhs it ∈ non_terminals P).
Proof.
  intros Hitems Hi.
  pose proof (built_states _ _ _ _ _ _ _ _ Hitems _ _ Hi) as [Hne Hsat Hit Hder].
  pose proof (built_grammar _ _ _ _ _ _ _ _ Hitems) as Hg.
  pose proof (built_non_terminals _ _ _ _ _ _ _ _ Hitems) as Hn.
  pose proof (built_start_symbol _ _ _ _ _ _ _ _ Hitems) as Hs.
  split_and!.
  - done.
  - rewrite (closure_ext P (init g ts nts start)) by (by rewrite ?Hg, ?Hn).
    by apply closure_loop_fixed.
  - intros it Hin. destruct (Hit it Hin) as [Hp Hd]. split; [|done].
    by rewrite Hg.
  - intros it Hin Hd. rewrite Hs, Hn.
    destruct (Hder it Hin Hd) as [?|(it' & Hin' & Hex)]; [by left|right].
    apply elem_of_expand in Hex as (nxt & prods & p & Hnext & Hnt & _ & _ & ->).
    by exists it'.
Qed.

Lemma states_well_formed_witness :
  ({[ ("F", ["id"], 1) ]} : gset item) ≠ ∅ ∧
  closure example_built {[ ("F", ["id"], 1) ]} = {[ ("F", ["id"], 1) ]} ∧
  (∀ it, it ∈ ({[ ("F", ["id"], 1) ]} : gset item) →
         item_in_grammar example_built it) ∧
  (∀ it, it ∈ ({[ ("F", ["id"], 1) ]} : gset item) → item_dot it = 0 →
         item_lhs it = start_symbol example_built ∨
         ∃ it', it' ∈ ({[ ("F", ["id"], 1) ]} : gset item) ∧
                next_symbol it' = Some (item_lhs it) ∧
                item_lhs it ∈ non_terminals example_built).
Proof.
  apply (states_well_formed example_grammar ["+"; "*"; "("; ")"; "id"]
           ["S"; "E"; "T"; "F"] "S'" elements 100 1000 example_built 2).
  - apply example_items.
  - vm_decide.
Defined.
